(** * brk: the RAM-backed block device of drivers/block/brk.c

    A shallow embedding of the page store (radix tree of pages), the
    byte-range copy engine, the discard loop, the request loop and the
    BLKFLSBUF ioctl, followed by the properties of the driver. *)

From Stdlib Require Import ZArith Lia Strings.Byte.
From stdpp Require Import base gmap list fin_maps strings.

Open Scope Z_scope.

#[local] Set Warnings "-clear-no-such-hyp".

(** ** Constants of the driver *)

Definition SECTOR_SHIFT : Z := 9.

(** Modelled from the spec: PAGE_SHIFT is an architecture constant declared
    outside drivers/block/brk.c; the spec fixes one page at 4096 bytes, that
    is 8 sectors of 512 bytes. *)
Definition PAGE_SHIFT : Z := 12.

Definition PAGE_SIZE : Z := Z.shiftl 1 PAGE_SHIFT.
Definition PAGE_SECTORS_SHIFT : Z := PAGE_SHIFT - SECTOR_SHIFT.
Definition PAGE_SECTORS : Z := Z.shiftl 1 PAGE_SECTORS_SHIFT.
Definition SHA1_LENGTH : Z := 20.
Definition FREE_BATCH : Z := 16.

(** Modelled from the spec: PAGE_CACHE_SIZE is declared outside brk.c; the
    single-page entry point of the spec works on a page-sized length. *)
Definition PAGE_CACHE_SIZE : Z := PAGE_SIZE.

(** errno values, as positive numbers; the driver returns their negation. *)
Definition EIO : Z := 5.
Definition EBUSY : Z := 16.
Definition ENOTTY : Z := 25.
Definition ENOSPC : Z := 28.

(** Modelled from the spec: BLKFLSBUF is the "forget all contents" control
    command, declared in the block layer headers as _IO(0x12, 97). *)
Definition BLKFLSBUF : Z := 4705.

(** sector_t, pgoff_t and unsigned long are 64-bit unsigned: arithmetic on
    them wraps. *)
Definition wrap64 (z : Z) : Z := z mod 2 ^ 64.

(** ** Data model *)

(** A [struct page *] is a [positive]. The part of [struct page] the driver
    uses: the [index] field and the frame contents reached through
    [kmap_atomic]. *)
Record page := Page { index : Z; data : list byte }.

Inductive printk_arg :=
| ArgS (s : string)
| ArgD (d : Z).

(** Calls into the rest of the kernel that the driver makes and that matter
    to the allocation discipline or to the log. *)
Inductive event :=
| EvAllocPage (r : option positive)
| EvFreePage (p : positive)
| EvRadixPreload (ok : bool)
| EvCryptoAllocHash (alg : string) (ok : bool)
| EvCryptoFreeHash
| EvPrintk (fmt : string) (args : list printk_arg)
| EvKillBdev.

(** One device together with the kernel state it touches:
    - [capacity]: the gendisk capacity in sectors (set_capacity);
    - [brk_pages]: the radix tree brk->brk_pages, page index to page;
    - [page_mem]: the live pages handed out by alloc_page;
    - [gfp]: the outcomes of the coming fallible allocations, in order
      (an exhausted list means out of memory);
    - [klog]: the calls made so far, oldest first. *)
Record machine := Machine {
  capacity : Z;
  brk_pages : gmap Z positive;
  page_mem : gmap positive page;
  gfp : list bool;
  klog : list event
}.

Definition set_brk_pages (f : gmap Z positive → gmap Z positive) (m : machine) : machine :=
  Machine (capacity m) (f (brk_pages m)) (page_mem m) (gfp m) (klog m).
Definition set_page_mem (f : gmap positive page → gmap positive page) (m : machine) : machine :=
  Machine (capacity m) (brk_pages m) (f (page_mem m)) (gfp m) (klog m).
Definition set_gfp (g : list bool) (m : machine) : machine :=
  Machine (capacity m) (brk_pages m) (page_mem m) g (klog m).
Definition add_klog (e : event) (m : machine) : machine :=
  Machine (capacity m) (brk_pages m) (page_mem m) (gfp m) (klog m ++ [e]).

(** ** The monad of driver code: state plus fatal outcomes *)

Inductive fault :=
| BUG_index_mismatch   (* BUG_ON(page && page->index != idx) *)
| BUG_missing_page     (* BUG_ON(!page) *)
| BUG_free_pages       (* the BUG_ONs of brk_free_pages *)
| Oops                 (* access outside a mapped object, or through a bad pointer *)
| OutOfFuel.           (* a loop of the model ran out of fuel *)

Inductive outcome (A : Type) :=
| Ok (a : A) (m : machine)
| Crash (f : fault).
Arguments Ok {A} a m.
Arguments Crash {A} f.

Definition M (A : Type) : Type := machine → outcome A.

Definition ret {A} (a : A) : M A := λ m, Ok a m.
Definition bind {A B} (c : M A) (k : A → M B) : M B :=
  λ m, match c m with Ok a m' => k a m' | Crash f => Crash f end.
Definition crash {A} (f : fault) : M A := λ _, Crash f.
Definition gets {A} (f : machine → A) : M A := λ m, Ok (f m) m.
Definition modify (f : machine → machine) : M unit := λ m, Ok tt (f m).
Definition lift_opt {A} (o : option A) : M A :=
  match o with Some a => ret a | None => crash Oops end.

Notation "'let*' x ':=' c 'in' k" := (bind c (λ x, k))
  (at level 10, x pattern, c at level 100, k at level 200).

(** ** Memory regions

    A pointer is modelled by the region of bytes that starts at it. *)

Definition len (l : list byte) : Z := Z.of_nat (length l).

Definition zeros (n : Z) : list byte := replicate (Z.to_nat n) x00.

(** memcpy(dst, src, n): [None] when either region is shorter than [n]. *)
Definition memcpy (dst src : list byte) (n : Z) : option (list byte) :=
  if bool_decide (0 ≤ n ∧ n ≤ len dst ∧ n ≤ len src)
  then Some (take (Z.to_nat n) src ++ drop (Z.to_nat n) dst) else None.

(** memset(dst, 0, n). *)
Definition memset0 (dst : list byte) (n : Z) : option (list byte) :=
  if bool_decide (0 ≤ n ∧ n ≤ len dst)
  then Some (zeros n ++ drop (Z.to_nat n) dst) else None.

(** [p + off]: the update [f] applied to the region starting [off] bytes
    into [buf]. *)
Definition at_offset (buf : list byte) (off : Z)
    (f : list byte → option (list byte)) : option (list byte) :=
  if bool_decide (0 ≤ off ∧ off ≤ len buf)
  then (take (Z.to_nat off) buf ++.) <$> f (drop (Z.to_nat off) buf) else None.

(** ** Kernel services used by the driver *)

Definition log (e : event) : M unit := modify (add_klog e).

Definition printk (fmt : string) (args : list printk_arg) : M unit :=
  log (EvPrintk fmt args).

(** The outcome of the next fallible allocation. *)
Definition next_gfp : M bool :=
  λ m, match gfp m with
       | [] => Ok false m
       | b :: g => Ok b (set_gfp g m)
       end.

(** Modelled from the spec: the allocator collaborator supplies fixed-size
    zero-filled page buffers on demand and may fail; alloc_page itself is
    outside brk.c. The index field of a new page is not yet meaningful. *)
Definition alloc_page : M (option positive) :=
  let* ok := next_gfp in
  if ok : bool then
    let* p := gets (λ m, fresh (dom (page_mem m))) in
    let* _ := modify (set_page_mem (insert p (Page 0 (zeros PAGE_SIZE)))) in
    let* _ := log (EvAllocPage (Some p)) in
    ret (Some p)
  else
    let* _ := log (EvAllocPage None) in
    ret None.

Definition __free_page (p : positive) : M unit :=
  let* _ := modify (set_page_mem (delete p)) in
  log (EvFreePage p).

(** Modelled from the spec: radix_tree_preload reserves tree nodes so that
    the insertion under the lock cannot fail for lack of memory; it is an
    allocation and may fail. *)
Definition radix_tree_preload : M bool :=
  let* ok := next_gfp in
  let* _ := log (EvRadixPreload ok) in
  ret ok.

(** Modelled from the spec: the page store is a sparse mapping from page
    index to page; the radix tree itself is outside brk.c. *)
Definition radix_tree_lookup (idx : Z) : M (option positive) :=
  gets (λ m, brk_pages m !! idx).

(** [true] stands for a non-zero return: the slot is taken. After a
    successful radix_tree_preload the insertion cannot fail for lack of
    memory. *)
Definition radix_tree_insert (idx : Z) (p : positive) : M bool :=
  let* old := radix_tree_lookup idx in
  match old with
  | Some _ => ret true
  | None => let* _ := modify (set_brk_pages (insert idx p)) in ret false
  end.

Definition radix_tree_delete (idx : Z) : M (option positive) :=
  let* old := radix_tree_lookup idx in
  let* _ := modify (set_brk_pages (delete idx)) in
  ret old.

(** page->index, read and written through a page pointer. *)
Definition page_index (p : positive) : M Z :=
  let* pg := gets (λ m, page_mem m !! p) in
  lift_opt (index <$> pg).

Definition page_set_index (p : positive) (idx : Z) : M unit :=
  let* pg := gets (λ m, page_mem m !! p) in
  let* pg := lift_opt pg in
  modify (set_page_mem (insert p (Page idx (data pg)))).

(** The frame of a page, as seen through kmap_atomic. *)
Definition page_read (p : positive) : M (list byte) :=
  let* pg := gets (λ m, page_mem m !! p) in
  lift_opt (data <$> pg).

(** An update of the frame of a page through its mapping. *)
Definition page_write (p : positive) (f : list byte → option (list byte)) : M unit :=
  let* pg := gets (λ m, page_mem m !! p) in
  let* pg := lift_opt pg in
  let* d := lift_opt (f (data pg)) in
  modify (set_page_mem (insert p (Page (index pg) d))).

Definition clear_highpage (p : positive) : M unit :=
  page_write p (λ d, memset0 d PAGE_SIZE).

(** Modelled from the spec: radix_tree_gang_lookup(root, results, first,
    max) of the kernel's radix tree, outside brk.c: up to [max] entries
    whose index is at least [first], in ascending index order, and as many
    of them as there are (brk_free_pages relies on that, as its comment
    says). [radix_tree_next] is the entry with the least index from [pos]
    on. *)
Definition radix_tree_next (root : gmap Z positive) (pos : Z) : option (Z * positive) :=
  map_fold (λ k p acc,
      if bool_decide (pos ≤ k) then
        match acc with
        | Some (k', _) => if bool_decide (k < k') then Some (k, p) else acc
        | None => Some (k, p)
        end
      else acc) None root.

Fixpoint gang_lookup (root : gmap Z positive) (pos : Z) (max : nat) : list positive :=
  match max with
  | O => []
  | S max' =>
      match radix_tree_next root pos with
      | None => []
      | Some (k, p) => p :: gang_lookup root (k + 1) max'
      end
  end.

Definition radix_tree_gang_lookup (first : Z) (max : Z) : M (list positive) :=
  gets (λ m, gang_lookup (brk_pages m) first (Z.to_nat max)).

(** Modelled from the spec: the crypto layer is outside brk.c. A transform
    is asked for by name; [hash_digest alg buf sg_len nbytes] is what
    crypto_hash_init/update/final leave in the output buffer when told to
    hash [nbytes] bytes of a scatterlist of length [sg_len] set up over
    [buf], or [None] when the crypto layer faults on that request. *)
Class CryptoApi := {
  hash_digest : string → list byte → Z → Z → option (list byte)
}.

(** crypto_alloc_hash allocates the transform and may fail, in which case
    it returns an error pointer ([false]). *)
Definition crypto_alloc_hash (alg : string) : M bool :=
  let* ok := next_gfp in
  let* _ := log (EvCryptoAllocHash alg ok) in
  ret ok.

Definition crypto_free_hash : M unit := log EvCryptoFreeHash.

(** Modelled from the spec: kill_bdev invalidates the cache layered above
    the device; it does not touch the page store. *)
Definition kill_bdev : M unit := log EvKillBdev.

(** ** The driver *)

Section Driver.
Context `{crypto : CryptoApi}.

(** Look up and return a brk's page for a given sector. *)
Definition brk_lookup_page (sector : Z) : M (option positive) :=
  let idx := Z.shiftr sector PAGE_SECTORS_SHIFT in
  let* page := radix_tree_lookup idx in
  match page with
  | Some p =>
      let* i := page_index p in
      if bool_decide (i ≠ idx) then crash BUG_index_mismatch else ret page
  | None => ret page
  end.

(** The statements of brk_insert_page between spin_lock and spin_unlock,
    named by the statement that comes next. The lock keeps the other writers
    of the tree out; brk_lookup_page takes no lock, so the lookup of another
    thread can run between any two of these statements. *)
Inductive locked_pc :=
| PcTag                      (* page->index = idx; *)
| PcInsert                   (* if (radix_tree_insert(&brk->brk_pages, idx, page)) *)
| PcFree                     (* __free_page(page); *)
| PcLookup                   (* page = radix_tree_lookup(..., idx); the two BUG_ONs *)
| PcUnlock (page : positive). (* spin_unlock(&brk->brk_lock); [page] is returned *)

(** One statement of the locked section, with the new page [page] in
    hand. *)
Definition locked_step (page : positive) (idx : Z) (pc : locked_pc) : M locked_pc :=
  match pc with
  | PcTag =>
      let* _ := page_set_index page idx in
      ret PcInsert
  | PcInsert =>
      let* taken := radix_tree_insert idx page in
      ret (if taken : bool then PcFree else PcUnlock page)
  | PcFree =>
      let* _ := __free_page page in
      ret PcLookup
  | PcLookup =>
      let* page := radix_tree_lookup idx in
      match page with
      | None => crash BUG_missing_page
      | Some p =>
          let* i := page_index p in
          if bool_decide (i ≠ idx) then crash BUG_index_mismatch else ret (PcUnlock p)
      end
  | PcUnlock page => ret (PcUnlock page)
  end.

(** The next [k] statements of the locked section, or as many as are left
    before the unlock. *)
Fixpoint locked_run (k : nat) (page : positive) (idx : Z) (pc : locked_pc) : M locked_pc :=
  match k, pc with
  | O, _ | _, PcUnlock _ => ret pc
  | S k', _ =>
      let* pc := locked_step page idx pc in
      locked_run k' page idx pc
  end.

(** The part of brk_insert_page between spin_lock and spin_unlock: tag the
    new page, try to insert it, and fall back on the page that is already
    there; four statements at most. *)
Definition brk_insert_page_locked (page : positive) (sector : Z) : M (option positive) :=
  let idx := Z.shiftr sector PAGE_SECTORS_SHIFT in
  let* pc := locked_run 4 page idx PcTag in
  match pc with
  | PcUnlock page => ret (Some page)
  | _ => crash OutOfFuel
  end.

(** The part of brk_insert_page before the lock is taken: the lock-free
    lookup and, when it finds nothing, the two allocations. [inl] is an
    early return, [inr] the new page to insert under the lock. *)
Definition brk_insert_page_alloc (sector : Z) : M (option positive + positive) :=
  let* page := brk_lookup_page sector in
  match page with
  | Some p => ret (inl (Some p))
  | None =>
      let* page := alloc_page in
      match page with
      | None => ret (inl None)
      | Some p =>
          let* ok := radix_tree_preload in
          if ok : bool then ret (inr p)
          else let* _ := __free_page p in ret (inl None)
      end
  end.

(** Look up and return a brk's page for a given sector. If one does not
    exist, allocate an empty page, and insert that. Then return it. *)
Definition brk_insert_page (sector : Z) : M (option positive) :=
  let* r := brk_insert_page_alloc sector in
  match r with
  | inl early => ret early
  | inr page => brk_insert_page_locked page sector
  end.

Definition brk_free_page (sector : Z) : M unit :=
  let idx := Z.shiftr sector PAGE_SECTORS_SHIFT in
  let* page := radix_tree_delete idx in
  match page with
  | Some p => __free_page p
  | None => ret tt
  end.

Definition brk_zero_page (sector : Z) : M unit :=
  let* page := brk_lookup_page sector in
  match page with
  | Some p => clear_highpage p
  | None => ret tt
  end.

(** The for loop of brk_free_pages over one batch; returns the final
    [pos]. *)
Fixpoint brk_free_batch (pages : list positive) (pos : Z) : M Z :=
  match pages with
  | [] => ret pos
  | pg :: rest =>
      let* i := page_index pg in
      if bool_decide (i < pos) then crash BUG_free_pages else
      let pos := i in
      let* r := radix_tree_delete pos in
      if bool_decide (r = Some pg) then
        let* _ := __free_page pg in
        brk_free_batch rest pos
      else crash BUG_free_pages
  end.

(** The do-while loop of brk_free_pages. *)
Fixpoint brk_free_pages_loop (fuel : nat) (pos : Z) : M unit :=
  match fuel with
  | O => crash OutOfFuel
  | S fuel' =>
      let* pages := radix_tree_gang_lookup pos FREE_BATCH in
      let nr_pages := Z.of_nat (length pages) in
      let* pos := brk_free_batch pages pos in
      let pos := wrap64 (pos + 1) in
      if bool_decide (nr_pages = FREE_BATCH) then brk_free_pages_loop fuel' pos
      else ret tt
  end.

(** Free all backing store pages and radix tree. Every full batch removes
    FREE_BATCH entries, so one round more than there are entries is enough
    fuel. *)
Definition brk_free_pages : M unit :=
  let* n := gets (λ m, size (brk_pages m)) in
  brk_free_pages_loop (S n) 0.

(** copy_to_brk_setup must be called before copy_to_brk. It may sleep. *)
Definition copy_to_brk_setup (sector n : Z) : M Z :=
  let offset := Z.shiftl (Z.land sector (PAGE_SECTORS - 1)) SECTOR_SHIFT in
  let copy := Z.min n (PAGE_SIZE - offset) in
  let* page := brk_insert_page sector in
  match page with
  | None => ret (- ENOSPC)
  | Some _ =>
      if bool_decide (copy < n) then
        let sector := wrap64 (sector + Z.shiftr copy SECTOR_SHIFT) in
        let* page := brk_insert_page sector in
        match page with
        | None => ret (- ENOSPC)
        | Some _ => ret 0
        end
      else ret 0
  end.

(** The while loop of discard_from_brk. *)
Fixpoint discard_loop (fuel : nat) (sector n : Z) : M unit :=
  if bool_decide (n >= PAGE_SIZE) then
    match fuel with
    | O => crash OutOfFuel
    | S fuel' =>
        (* Don't want to actually discard pages here: if (0) free, else zero. *)
        let* _ := if false then brk_free_page sector else brk_zero_page sector in
        let sector := wrap64 (sector + Z.shiftr PAGE_SIZE SECTOR_SHIFT) in
        let n := n - PAGE_SIZE in
        discard_loop fuel' sector n
    end
  else ret tt.

(** Every round takes PAGE_SIZE off [n], so n / PAGE_SIZE rounds of fuel
    are enough. *)
Definition discard_from_brk (sector n : Z) : M unit :=
  discard_loop (Z.to_nat (n / PAGE_SIZE)) sector n.

(** The printing loop over the digest. *)
Definition print_digest (lambos : list byte) : M unit :=
  foldr (λ lol k,
      let* _ := printk "%d-%d\n"
                  [ArgD (Z.of_N (Byte.to_N (default x00 (lambos !! Z.to_nat lol)))); ArgD lol] in
      k)
    (ret tt) (seqZ 0 20).

(** Copy n bytes from src to the brk starting at sector. *)
Definition copy_to_brk (src : list byte) (sector n : Z) : M unit :=
  let offset := Z.shiftl (Z.land sector (PAGE_SECTORS - 1)) SECTOR_SHIFT in
  let copy := Z.min n (PAGE_SIZE - offset) in
  let* page := brk_lookup_page sector in
  match page with
  | None => crash BUG_missing_page
  | Some page =>
      let* _ := printk "sha1: %s\n" [ArgS "copy_to_brk"] in
      let dayjob := replicate 10 "A"%byte in
      let lambos := zeros SHA1_LENGTH in
      let* bitcoin := crypto_alloc_hash "sha1" in
      (* crypto_hash_init goes through money.tfm *)
      let* _ := if bitcoin : bool then ret tt else crash Oops in
      let* digest := lift_opt (hash_digest "sha1" dayjob copy 10) in
      let lambos := take (Z.to_nat SHA1_LENGTH) (digest ++ lambos) in
      let* _ := print_digest lambos in
      let* _ := crypto_free_hash in
      let* _ := page_write page (λ dst, at_offset dst offset (λ d, memcpy d src copy)) in
      if bool_decide (copy < n) then
        let src := drop (Z.to_nat copy) src in
        let sector := wrap64 (sector + Z.shiftr copy SECTOR_SHIFT) in
        let copy := n - copy in
        let* page := brk_lookup_page sector in
        match page with
        | None => crash BUG_missing_page
        | Some page => page_write page (λ dst, memcpy dst src copy)
        end
      else ret tt
  end.

(** Copy n bytes to dst from the brk starting at sector; the result is the
    region at [dst] afterwards. *)
Definition copy_from_brk (dst : list byte) (sector n : Z) : M (list byte) :=
  let offset := Z.shiftl (Z.land sector (PAGE_SECTORS - 1)) SECTOR_SHIFT in
  let copy := Z.min n (PAGE_SIZE - offset) in
  let* page := brk_lookup_page sector in
  let* dst :=
    match page with
    | Some page =>
        let* src := page_read page in
        lift_opt (memcpy dst (drop (Z.to_nat offset) src) copy)
    | None => lift_opt (memset0 dst copy)
    end in
  if bool_decide (copy < n) then
    let dst_off := copy in
    let sector := wrap64 (sector + Z.shiftr copy SECTOR_SHIFT) in
    let copy := n - copy in
    let* page := brk_lookup_page sector in
    match page with
    | Some page =>
        let* src := page_read page in
        lift_opt (at_offset dst dst_off (λ d, memcpy d src copy))
    | None => lift_opt (at_offset dst dst_off (λ d, memset0 d copy))
    end
  else ret dst.

Inductive rw_t := READ | WRITE | READA.

Definition is_read (rw : rw_t) : bool :=
  match rw with READ => true | _ => false end.

(** Process a single bvec of a bio: [page] is the frame of the caller's
    page; the result is the error code and that frame afterwards. *)
Definition brk_do_bvec (page : list byte) (len off : Z) (rw : rw_t) (sector : Z)
    : M (Z * list byte) :=
  let* err := if is_read rw then ret 0 else copy_to_brk_setup sector len in
  if bool_decide (err ≠ 0) then ret (err, page) else
  let mem := page in
  if is_read rw then
    let* d := copy_from_brk (drop (Z.to_nat off) mem) sector len in
    ret (err, take (Z.to_nat off) mem ++ d)
  else
    let* _ := copy_to_brk (drop (Z.to_nat off) mem) sector len in
    ret (err, page).

Record bio_vec := BioVec { bv_page : list byte; bv_len : Z; bv_offset : Z }.

(** A bio as it is submitted, its iterator at the start of the vector:
    start sector bi_iter.bi_sector, size in bytes bi_iter.bi_size, the
    REQ_DISCARD bit of bi_rw, the direction bio_rw(bio), and the vector
    bi_io_vec. *)
Record bio := Bio {
  bi_sector : Z;
  bi_size : Z;
  bi_discard : bool;
  bi_dir : rw_t;
  bi_io_vec : list bio_vec
}.

(** Modelled from the spec: bio_sectors and bio_end_sector are block layer
    macros: the size in sectors, and the start sector plus that. *)
Definition bio_sectors (b : bio) : Z := Z.shiftr (bi_size b) SECTOR_SHIFT.
Definition bio_end_sector (b : bio) : Z := wrap64 (bi_sector b + bio_sectors b).

(** Modelled from the spec: bio_for_each_segment is a macro of the block
    layer, outside brk.c; the spec has the segments of a request processed
    in order. The macro is driven by the bytes left in the iterator, not by
    the number of entries: it runs while iter.bi_size is not zero, hands
    out the current entry clipped to the bytes left (bio_iter_iovec), and
    after the body advances the iterator by the length it handed out
    (bio_advance_iter), moving to the next entry when the current one is
    used up. With bytes left and no entry to take them from it reads past
    the vector. An empty entry with bytes left is handed out again and
    again, since advancing by nothing moves nothing: once the body has
    returned 0 for it the loop does not come to an end.

    The loop of brk_make_request over it, with the body as brk.c has it:
    [err] and [sector] are the values of the variables on entry, [size] the
    bytes the iterator has left and [bvecs] the entries of the vector from
    the current one on. *)
Fixpoint brk_segments (rw : rw_t) (err sector size : Z) (bvecs : list bio_vec)
    : M (Z * list bio_vec) :=
  if bool_decide (size = 0) then ret (err, bvecs) else
  match bvecs with
  | [] => crash Oops
  | bvec :: rest =>
      let len := Z.min size (bv_len bvec) in
      let* r := brk_do_bvec (bv_page bvec) len (bv_offset bvec) rw sector in
      let err := r.1 in
      let bvec' := BioVec r.2 (bv_len bvec) (bv_offset bvec) in
      if bool_decide (err ≠ 0) then ret (err, bvec' :: rest) else
      let sector := wrap64 (sector + Z.shiftr len SECTOR_SHIFT) in
      if bool_decide (len = 0) then crash OutOfFuel else
      let* r' := brk_segments rw err sector (size - len) rest in
      ret (r'.1, bvec' :: r'.2)
  end.

(** The result is the error passed to bio_endio and the segments
    afterwards. *)
Definition brk_make_request (b : bio) : M (Z * list bio_vec) :=
  let sector := bi_sector b in
  let* cap := gets capacity in
  if bool_decide (bio_end_sector b > cap) then ret (- EIO, bi_io_vec b) else
  if bi_discard b then
    let* _ := discard_from_brk sector (bi_size b) in
    ret (0, bi_io_vec b)
  else
    let rw := match bi_dir b with READA => READ | rw => rw end in
    brk_segments rw (- EIO) sector (bi_size b) (bi_io_vec b).

Definition brk_rw_page (sector : Z) (page : list byte) (rw : rw_t) : M (Z * list byte) :=
  brk_do_bvec page PAGE_CACHE_SIZE 0 rw sector.

Definition brk_ioctl (bd_openers : Z) (cmd : Z) : M Z :=
  if bool_decide (cmd ≠ BLKFLSBUF) then ret (- ENOTTY) else
  if bool_decide (bd_openers ≤ 1) then
    let* _ := kill_bdev in
    let* _ := brk_free_pages in
    ret 0
  else ret (- EBUSY).

(** Arithmetic on int: the kernel is built so that it wraps to 32 bits,
    two's complement. *)
Definition wrap_int (z : Z) : Z := (z + 2 ^ 31) mod 2 ^ 32 - 2 ^ 31.

(** brk_alloc: a new device has no pages; set_capacity(disk, rd_size * 2),
    where rd_size is an int, the product is an int, and set_capacity takes
    a sector_t. *)
Definition brk_alloc (rd_size : Z) (g : list bool) : machine :=
  Machine (wrap64 (wrap_int (rd_size * 2))) ∅ ∅ g [].

End Driver.

(** ** Vocabulary of the statements *)

(** A value of type sector_t. *)
Definition sector_t (s : Z) : Prop := 0 ≤ s < 2 ^ 64.

(** sector >> PAGE_SECTORS_SHIFT and (sector & (PAGE_SECTORS-1)) << SECTOR_SHIFT,
    as every function of the driver computes them. *)
Definition page_idx (sector : Z) : Z := Z.shiftr sector PAGE_SECTORS_SHIFT.
Definition page_offset (sector : Z) : Z :=
  Z.shiftl (Z.land sector (PAGE_SECTORS - 1)) SECTOR_SHIFT.

(** The length of the first piece of a copy and the sector the second piece
    starts at. *)
Definition first_copy (sector n : Z) : Z := Z.min n (PAGE_SIZE - page_offset sector).
Definition next_sector (sector n : Z) : Z :=
  wrap64 (sector + Z.shiftr (first_copy sector n) SECTOR_SHIFT).

(** The page reachable under a page index, if any. *)
Definition page_at (m : machine) (idx : Z) : option page :=
  brk_pages m !! idx ≫= λ p, page_mem m !! p.

(** The invariant of the page store: every entry of the tree is a live page
    tagged with its key, and every live page is the entry of the tree under
    its tag; keys are page indices of 64-bit sectors, frames have PAGE_SIZE
    bytes, the capacity is a sector_t. *)
Definition wf (m : machine) : Prop :=
  (0 ≤ capacity m ∧ capacity m < 2 ^ 64) ∧
  map_Forall (λ idx p,
      (0 ≤ idx ∧ idx < 2 ^ 61) ∧ index <$> page_mem m !! p = Some idx)
    (brk_pages m) ∧
  map_Forall (λ p pg,
      brk_pages m !! index pg = Some p ∧ len (data pg) = PAGE_SIZE)
    (page_mem m).

#[global] Instance wf_dec m : Decision (wf m).
Proof. unfold wf. apply _. Defined.

(** Two machines with the same device contents. *)
Definition same_store (m m' : machine) : Prop :=
  capacity m' = capacity m ∧ brk_pages m' = brk_pages m ∧ page_mem m' = page_mem m.

(** Calls that allocate memory (and may therefore sleep). *)
Definition allocates (e : event) : bool :=
  match e with
  | EvAllocPage _ | EvRadixPreload _ | EvCryptoAllocHash _ _ => true
  | _ => false
  end.

(** The byte range [sector * 512, sector * 512 + n) covers page [idx]
    entirely, respectively does not meet it. *)
Definition fully_covered (sector n idx : Z) : Prop :=
  sector * 512 ≤ idx * PAGE_SIZE ∧ (idx + 1) * PAGE_SIZE ≤ sector * 512 + n.
Definition strictly_outside (sector n idx : Z) : Prop :=
  (idx + 1) * PAGE_SIZE ≤ sector * 512 ∨ sector * 512 + n ≤ idx * PAGE_SIZE.

(** The byte range meets page [idx]. *)
Definition touches (sector n idx : Z) : Prop :=
  idx * PAGE_SIZE < sector * 512 + n ∧ sector * 512 < (idx + 1) * PAGE_SIZE.

(** The range lies within the capacity of the device. *)
Definition in_capacity (m : machine) (sector n : Z) : Prop :=
  0 ≤ sector ∧ 0 ≤ n ∧ sector * 512 + n ≤ capacity m * 512.

(** A range of [n] bytes from [sector] on that stays within the sectors a
    sector_t can number; every range within the capacity of a device is
    one. *)
Definition sector_range (sector n : Z) : Prop :=
  sector_t sector ∧ 0 ≤ n ∧ sector * 512 + n ≤ 2 ^ 64 * 512.

(** What a read of [k] bytes at byte [off] of page [idx] yields: the bytes
    of the page, or zeros when there is none. *)
Definition read_part (m : machine) (idx off k : Z) : list byte :=
  match page_at m idx with
  | Some pg => take (Z.to_nat k) (drop (Z.to_nat off) (data pg))
  | None => zeros k
  end.

(** A page with the same tag and an all-zero frame. *)
Definition zero_page_of (pg : page) : page := Page (index pg) (zeros PAGE_SIZE).

(** The page indices that [k] rounds of the discard loop visit from
    [sector] on. *)
Fixpoint discard_indices (sector : Z) (k : nat) : list Z :=
  match k with
  | O => []
  | S k' => page_idx sector :: discard_indices (wrap64 (sector + 8)) k'
  end.

(** Page [idx] reads as all-zero: a read of the whole page fills the
    destination with PAGE_SIZE zero bytes. *)
Definition reads_zero (m : machine) (idx : Z) : Prop :=
  ∀ dst, PAGE_SIZE ≤ len dst →
    copy_from_brk dst (idx * PAGE_SECTORS) PAGE_SIZE m
    = Ok (zeros PAGE_SIZE ++ drop (Z.to_nat PAGE_SIZE) dst) m.

(** Where the next gang lookup has to start after one that started at
    [pos] and returned up to [max] entries: one past the last index
    returned. *)
Fixpoint gang_end (root : gmap Z positive) (pos : Z) (max : nat) : Z :=
  match max with
  | O => pos
  | S max' =>
      match radix_tree_next root pos with
      | None => pos
      | Some (k, _) => gang_end root (k + 1) max'
      end
  end.

(** A crypto layer for the examples: a constant digest. *)
Definition example_crypto : CryptoApi :=
  {| hash_digest := λ _ _ _ _, Some (replicate 20 x01) |}.

(** [logs m m' evs]: [m'] has the device contents of [m] and its log
    extended by [evs]. *)
Definition logs (m m' : machine) (evs : list event) : Prop :=
  same_store m m' ∧ klog m' = klog m ++ evs.

(** A machine whose store is consistent but for one more live page [p],
    allocated and not yet in the tree. *)
Definition pending (m : machine) (p : positive) : Prop :=
  is_Some (page_mem m !! p) ∧ wf (set_page_mem (delete p) m).

(** An operation keeps the invariant when every normal return from a
    consistent store leaves a consistent store. *)
Definition preserves_wf {A} (c : M A) : Prop :=
  ∀ m a m', wf m → c m = Ok a m' → wf m'.




(** ** Example machines

    A device of 1 MiB (2048 sectors) for which the next [k] allocations
    succeed. *)
Definition example_fresh (k : nat) : machine := brk_alloc 1024 (replicate k true).

Definition machine_of {A} (o : outcome A) (d : machine) : machine :=
  match o with Ok _ m => m | Crash _ => d end.

(** The device after one page of 'A' has been written at sector 8, that is
    to page index 1. *)
Definition example_written : machine :=
  machine_of
    (@brk_do_bvec example_crypto (replicate 4096 "A"%byte) 4096 0 WRITE 8 (example_fresh 8))
    (example_fresh 0).

(** The device after copy_to_brk_setup for 1024 bytes at sector 7, the
    last sector of page 0: the range straddles pages 0 and 1. *)
Definition example_prepared : machine :=
  machine_of (copy_to_brk_setup 7 1024 (example_fresh 8)) (example_fresh 0).

(** A device on which the second page allocation of a setup fails. *)
Definition example_short_of_memory : machine :=
  brk_alloc 1024 [true; true; true; false].



(** The device after one more page of 'A' has been written at sector 0:
    pages 0 and 1 hold data. *)
Definition example_two_pages : machine :=
  machine_of
    (@brk_do_bvec example_crypto (replicate 4096 "A"%byte) 4096 0 WRITE 0 example_written)
    example_written.

(** A discard request for sectors 4 to 15: the second half of page 0 and
    the whole of page 1. *)
Definition example_bio_discard : bio := Bio 4 6144 true WRITE [].

(** ** The device as an array of bytes *)

(** The byte at byte position [pos] of the device: the byte of the page that
    holds the position, and zero where the tree has no page. *)
Definition disk_byte (m : machine) (pos : Z) : byte :=
  match page_at m (pos / PAGE_SIZE) with
  | Some pg => default x00 (data pg !! Z.to_nat (pos mod PAGE_SIZE))
  | None => x00
  end.

(** The [n] bytes of the device from byte position [pos] on. *)
Definition disk_bytes (m : machine) (pos n : Z) : list byte :=
  disk_byte m <$> seqZ pos n.

(** ** Requests, segment by segment *)

(** A segment is not empty, lies within the caller's page and is at most a
    page long. *)
Definition seg_ok (bv : bio_vec) : Prop :=
  0 ≤ bv_offset bv ∧ 0 < bv_len bv
  ∧ bv_offset bv + bv_len bv ≤ len (bv_page bv) ∧ bv_len bv ≤ PAGE_SIZE.

(** The bytes of the caller's page that a segment designates. *)
Definition seg_payload (bv : bio_vec) : list byte :=
  take (Z.to_nat (bv_len bv)) (drop (Z.to_nat (bv_offset bv)) (bv_page bv)).


(** The bytes the segments of a bio designate, in all. *)
Definition segs_len (segs : list bio_vec) : Z :=
  foldr (λ bv acc, bv_len bv + acc) 0 segs.

(** A segment is a whole number of sectors long. *)
Definition seg_sectors (bv : bio_vec) : Prop := bv_len bv mod 512 = 0.



(** ** The allocator *)

(** The next [k] fallible allocations succeed. *)
Definition never_fails (k : nat) (m : machine) : Prop :=
  ∃ g, gfp m = replicate k true ++ g.

(** The crypto layer produces a digest for the request copy_to_brk makes of
    it, whatever the length of the scatterlist. *)
Definition digest_available `{crypto : CryptoApi} : Prop :=
  ∀ copy, is_Some (hash_digest "sha1" (replicate 10 "A"%byte) copy 10).

(** ** Direct access (CONFIG_BRK_DEV_XIP) *)

Definition ENOMEM : Z := 12.
Definition ENODEV : Z := 19.
Definition EINVAL : Z := 22.
Definition ERANGE : Z := 34.

(** brk_direct_access: [brk] tells whether bdev->bd_disk->private_data is
    set; the result is the error code and, on success, the page whose
    address and frame number the function stores through kaddr and pfn. *)
Definition brk_direct_access (brk : bool) (sector : Z) : M (Z * option positive) :=
  if negb brk then ret (- ENODEV, None) else
  if bool_decide (Z.land sector (PAGE_SECTORS - 1) ≠ 0) then ret (- EINVAL, None) else
  let* cap := gets capacity in
  if bool_decide (wrap64 (sector + PAGE_SECTORS) > cap) then ret (- ERANGE, None) else
  let* page := brk_insert_page sector in
  match page with
  | None => ret (- ENOSPC, None)
  | Some p => ret (0, Some p)
  end.

(** A write request of 6144 bytes from sector 6 on, in two segments: the
    first fills the end of page 0 and the start of page 1, the second, taken
    from the middle of its page, goes on into page 2. *)
Definition example_write_bio : bio :=
  Bio 6 6144 false WRITE
    [BioVec (replicate 4096 "D"%byte) 4096 0;
     BioVec (replicate 4096 "E"%byte) 2048 1024].


(** The device after the write request, with memory to spare. *)
Definition example_after_request : machine :=
  machine_of (@brk_make_request example_crypto example_write_bio (example_fresh 10))
    (example_fresh 0).

(** * Properties *)

#[global] Arguments zeros : simpl never.
#[global] Arguments memcpy : simpl never.
#[global] Arguments memset0 : simpl never.
#[global] Arguments at_offset : simpl never.
#[global] Arguments wrap64 : simpl never.

(** ** Arithmetic of sectors and pages *)

Lemma PAGE_SIZE_val : PAGE_SIZE = 4096.
Proof. reflexivity. Qed.

Lemma page_idx_div sector : page_idx sector = sector / 8.
Proof. unfold page_idx. rewrite Z.shiftr_div_pow2 by (cbv; discriminate). reflexivity. Qed.

Lemma page_offset_mod sector : page_offset sector = sector mod 8 * 512.
Proof.
  unfold page_offset.
  change (PAGE_SECTORS - 1) with (Z.ones 3).
  rewrite Z.land_ones by lia.
  rewrite Z.shiftl_mul_pow2 by (cbv; discriminate). reflexivity.
Qed.

Lemma page_offset_bounds sector :
  0 ≤ page_offset sector ∧ page_offset sector ≤ 3584 ∧ page_offset sector mod 512 = 0.
Proof.
  rewrite page_offset_mod.
  pose proof (Z.mod_pos_bound sector 8 ltac:(lia)).
  split; [lia|]. split; [lia|]. apply Z.mod_mul. lia.
Qed.

Lemma first_copy_bounds sector n :
  0 ≤ n → 0 ≤ first_copy sector n ∧ first_copy sector n ≤ n
          ∧ page_offset sector + first_copy sector n ≤ PAGE_SIZE.
Proof.
  intros Hn. unfold first_copy. rewrite PAGE_SIZE_val.
  pose proof (page_offset_bounds sector). lia.
Qed.

Lemma first_copy_lt sector n :
  first_copy sector n < n → first_copy sector n = PAGE_SIZE - page_offset sector.
Proof. unfold first_copy. lia. Qed.

(** When the copy crosses a page boundary, the second piece starts at the
    first sector of another page: the next one, unless the sector number
    wraps. *)
Lemma next_sector_spec sector n :
  sector_t sector → first_copy sector n < n →
  sector_t (next_sector sector n)
  ∧ page_idx (next_sector sector n) ≠ page_idx sector
  ∧ ((page_idx sector + 1) * 8 < 2 ^ 64 →
     page_idx (next_sector sector n) = page_idx sector + 1
     ∧ (page_idx sector + 1) * PAGE_SIZE = sector * 512 + first_copy sector n).
Proof.
  intros [Hs0 Hs1] Hlt. unfold next_sector.
  rewrite !(first_copy_lt _ _ Hlt), !PAGE_SIZE_val, !page_offset_mod.
  rewrite Z.shiftr_div_pow2 by (cbv; discriminate).
  change (2 ^ SECTOR_SHIFT) with 512.
  replace (4096 - sector mod 8 * 512) with ((8 - sector mod 8) * 512) by lia.
  rewrite Z.div_mul by lia.
  rewrite !page_idx_div. unfold wrap64, sector_t.
  pose proof (Z.mod_pos_bound sector 8 ltac:(lia)) as Hm.
  pose proof (Z.div_mod sector 8 ltac:(lia)) as Hd.
  set (q := sector / 8) in *. set (r := sector mod 8) in *.
  replace (sector + (8 - r)) with ((q + 1) * 8) by lia.
  assert (Hq : 0 ≤ q < 2 ^ 61) by lia.
  destruct (decide (q + 1 = 2 ^ 61)) as [He|Hne].
  - rewrite He. change (2 ^ 61 * 8) with (1 * 2 ^ 64).
    rewrite Z.mod_mul by lia. change (0 / 8) with 0.
    split; [lia|]. split; [lia|]. lia.
  - rewrite Z.mod_small by lia. rewrite Z.div_mul by lia.
    split; [lia|]. split; [lia|]. intros _. split; [reflexivity|lia].
Qed.

(** ** The invariant *)

Lemma wf_tree m idx p :
  wf m → brk_pages m !! idx = Some p →
  ∃ pg, page_mem m !! p = Some pg ∧ index pg = idx
        ∧ len (data pg) = PAGE_SIZE ∧ 0 ≤ idx < 2 ^ 61.
Proof.
  intros (_ & Ht & Hm) Hl. destruct (Ht _ _ Hl) as [Hr Hp].
  destruct (page_mem m !! p) as [pg|] eqn:E; [|discriminate].
  exists pg. simpl in Hp. destruct (Hm _ _ E) as [_ Hlen].
  injection Hp as Hp. destruct Hr. done.
Qed.

Lemma wf_mem m p pg :
  wf m → page_mem m !! p = Some pg →
  brk_pages m !! index pg = Some p ∧ len (data pg) = PAGE_SIZE.
Proof. intros (_ & _ & Hm) Hl. exact (Hm _ _ Hl). Qed.

Lemma wf_inj m i j p :
  wf m → brk_pages m !! i = Some p → brk_pages m !! j = Some p → i = j.
Proof.
  intros Hwf Hi Hj.
  destruct (wf_tree _ _ _ Hwf Hi) as (pg & E & <- & _).
  destruct (wf_tree _ _ _ Hwf Hj) as (pg' & E' & <- & _). congruence.
Qed.

Lemma wf_same_store m m' : same_store m m' → wf m → wf m'.
Proof. intros (Hc & Ht & Hm). unfold wf. rewrite Hc, Ht, Hm. done. Qed.

Lemma same_store_refl m : same_store m m.
Proof. done. Qed.

Lemma same_store_trans m1 m2 m3 :
  same_store m1 m2 → same_store m2 m3 → same_store m1 m3.
Proof. unfold same_store. intros (?&?&?) (?&?&?). split_and!; congruence. Qed.

Lemma wf_brk_alloc rd_size g : wf (brk_alloc rd_size g).
Proof.
  split; [|split; apply map_Forall_empty].
  simpl. unfold wrap64. pose proof (Z.mod_pos_bound (wrap_int (rd_size * 2)) (2 ^ 64)). lia.
Qed.

Lemma page_at_Some m idx pg :
  page_at m idx = Some pg ↔ ∃ p, brk_pages m !! idx = Some p ∧ page_mem m !! p = Some pg.
Proof.
  unfold page_at. destruct (brk_pages m !! idx) as [p|]; simpl.
  - split; [eauto|]. by intros (? & [= <-] & ?).
  - split; [done|]. by intros (? & ? & ?).
Qed.

Lemma page_at_None m idx :
  wf m → page_at m idx = None ↔ brk_pages m !! idx = None.
Proof.
  intros Hwf. unfold page_at. destruct (brk_pages m !! idx) as [p|] eqn:E; simpl; [|done].
  destruct (wf_tree _ _ _ Hwf E) as (pg & -> & _). done.
Qed.

(** ** Running the monad *)

Lemma bind_Ok {A B} (c : M A) (k : A → M B) m a m1 :
  c m = Ok a m1 → bind c k m = k a m1.
Proof. unfold bind. by intros ->. Qed.

Lemma bind_Ok_inv {A B} (c : M A) (k : A → M B) m b m' :
  bind c k m = Ok b m' → ∃ a m1, c m = Ok a m1 ∧ k a m1 = Ok b m'.
Proof. unfold bind. destruct (c m) as [a m1|]; [eauto|done]. Qed.

Lemma bind_Crash_inv {A B} (c : M A) (k : A → M B) m f :
  bind c k m = Crash f → c m = Crash f ∨ ∃ a m1, c m = Ok a m1 ∧ k a m1 = Crash f.
Proof. unfold bind. destruct (c m) as [a m1|]; [eauto|]. intros [= <-]. by left. Qed.

(** Under the invariant the lock-free lookup is the plain lookup in the
    tree: its assertion cannot fire. *)
Lemma brk_lookup_page_wf m sector :
  wf m → brk_lookup_page sector m = Ok (brk_pages m !! page_idx sector) m.
Proof.
  intros Hwf. unfold brk_lookup_page, bind, radix_tree_lookup, gets. fold (page_idx sector).
  destruct (brk_pages m !! page_idx sector) as [p|] eqn:E; [|done].
  destruct (wf_tree _ _ _ Hwf E) as (pg & Hp & Hi & _).
  unfold page_index, bind, gets. rewrite Hp. simpl.
  rewrite bool_decide_eq_false_2 by (intros ?; congruence). done.
Qed.

(** ** Memory regions *)

Ltac len_solve :=
  unfold len, zeros in *;
  rewrite ?length_app, ?length_take, ?length_drop, ?length_replicate in *; lia.

Lemma len_nonneg l : 0 ≤ len l.
Proof. len_solve. Qed.

Lemma len_zeros n : 0 ≤ n → len (zeros n) = n.
Proof. intros. len_solve. Qed.

Lemma zeros_app a b : 0 ≤ a → 0 ≤ b → zeros a ++ zeros b = zeros (a + b).
Proof.
  intros Ha Hb. unfold zeros. rewrite Z2Nat.inj_add by lia.
  symmetry. apply replicate_add.
Qed.

Lemma take_zeros k n : 0 ≤ k ≤ n → take (Z.to_nat k) (zeros n) = zeros k.
Proof.
  intros H. unfold zeros. rewrite take_replicate. f_equal. lia.
Qed.

Lemma drop_zeros k n : 0 ≤ k ≤ n → drop (Z.to_nat k) (zeros n) = zeros (n - k).
Proof.
  intros H. unfold zeros. rewrite drop_replicate. f_equal. lia.
Qed.

Lemma memcpy_Some dst src n :
  0 ≤ n → n ≤ len dst → n ≤ len src →
  memcpy dst src n = Some (take (Z.to_nat n) src ++ drop (Z.to_nat n) dst).
Proof. intros. unfold memcpy. by rewrite bool_decide_eq_true_2. Qed.

Lemma memcpy_inv dst src n d :
  memcpy dst src n = Some d →
  (0 ≤ n ∧ n ≤ len dst ∧ n ≤ len src)
  ∧ d = take (Z.to_nat n) src ++ drop (Z.to_nat n) dst ∧ len d = len dst.
Proof.
  unfold memcpy. case_bool_decide as H; [|done]. intros [= <-].
  split; [done|]. split; [done|]. len_solve.
Qed.

Lemma memset0_Some dst n :
  0 ≤ n → n ≤ len dst → memset0 dst n = Some (zeros n ++ drop (Z.to_nat n) dst).
Proof. intros. unfold memset0. by rewrite bool_decide_eq_true_2. Qed.

Lemma memset0_inv dst n d :
  memset0 dst n = Some d →
  (0 ≤ n ∧ n ≤ len dst) ∧ d = zeros n ++ drop (Z.to_nat n) dst ∧ len d = len dst.
Proof.
  unfold memset0. case_bool_decide as H; [|done]. intros [= <-].
  split; [done|]. split; [done|]. len_solve.
Qed.

Lemma at_offset_Some buf off f d :
  0 ≤ off → off ≤ len buf → f (drop (Z.to_nat off) buf) = Some d →
  at_offset buf off f = Some (take (Z.to_nat off) buf ++ d).
Proof. intros ?? Hf. unfold at_offset. rewrite bool_decide_eq_true_2 by done. by rewrite Hf. Qed.

Lemma at_offset_inv buf off f r :
  at_offset buf off f = Some r →
  (0 ≤ off ∧ off ≤ len buf)
  ∧ ∃ d, f (drop (Z.to_nat off) buf) = Some d ∧ r = take (Z.to_nat off) buf ++ d.
Proof.
  unfold at_offset. case_bool_decide as H; [|done].
  destruct (f _) as [d|]; [|done]. intros [= <-]. eauto.
Qed.

(** ** Pages in memory *)

Lemma page_read_Some m p pg :
  page_mem m !! p = Some pg → page_read p m = Ok (data pg) m.
Proof. intros H. unfold page_read, bind, gets. by rewrite H. Qed.

Lemma page_write_Some m p pg f d :
  page_mem m !! p = Some pg → f (data pg) = Some d →
  page_write p f m = Ok tt (set_page_mem (insert p (Page (index pg) d)) m).
Proof. intros H Hf. unfold page_write, bind, gets. rewrite H. simpl. by rewrite Hf. Qed.

Lemma page_write_inv m p f m' :
  page_write p f m = Ok tt m' →
  ∃ pg d, page_mem m !! p = Some pg ∧ f (data pg) = Some d
          ∧ m' = set_page_mem (insert p (Page (index pg) d)) m.
Proof.
  unfold page_write, bind, gets.
  destruct (page_mem m !! p) as [pg|]; [|done]. simpl.
  destruct (f (data pg)) as [d|] eqn:Hf; [|done]. simpl.
  intros [= <-]. by exists pg, d.
Qed.

Lemma page_write_Crash m p f flt : page_write p f m = Crash flt → flt = Oops.
Proof.
  unfold page_write, bind, gets.
  destruct (page_mem m !! p) as [pg|]; [|by intros [= <-]]. simpl.
  destruct (f (data pg)) as [d|]; [done|]. by intros [= <-].
Qed.

(** Overwriting the frame of a live page with as many bytes keeps the
    invariant. *)
Lemma wf_page_update m p pg d :
  wf m → page_mem m !! p = Some pg → len d = PAGE_SIZE →
  wf (set_page_mem (insert p (Page (index pg) d)) m).
Proof.
  intros Hwf Hp Hd. destruct Hwf as (Hc & Ht & Hm).
  split; [done|]. split; simpl.
  - intros idx q Hq. destruct (Ht _ _ Hq) as [Hr Hi]. split; [done|].
    destruct (decide (p = q)) as [<-|Hne].
    + rewrite lookup_insert_eq. rewrite Hp in Hi. done.
    + by rewrite lookup_insert_ne.
  - intros q pg' Hq. destruct (decide (p = q)) as [<-|Hne].
    + rewrite lookup_insert_eq in Hq. injection Hq as <-. simpl.
      destruct (Hm _ _ Hp). done.
    + rewrite lookup_insert_ne in Hq by done. exact (Hm _ _ Hq).
Qed.

(** What a page update does to the pages seen through the tree. *)
Lemma page_at_update m p pg d idx :
  wf m → page_mem m !! p = Some pg →
  page_at (set_page_mem (insert p (Page (index pg) d)) m) idx
  = if decide (idx = index pg) then Some (Page (index pg) d) else page_at m idx.
Proof.
  intros Hwf Hp. unfold page_at. simpl.
  destruct (wf_mem _ _ _ Hwf Hp) as [Hk _].
  destruct (decide (idx = index pg)) as [->|Hne].
  - rewrite Hk. simpl. by rewrite lookup_insert_eq.
  - destruct (brk_pages m !! idx) as [q|] eqn:E; simpl; [|done].
    rewrite lookup_insert_ne; [done|]. intros <-.
    apply Hne. eapply wf_inj; eauto.
Qed.

(** ** copy_from_brk *)

Lemma take_prefix (a b : list byte) k : len a = k → take (Z.to_nat k) (a ++ b) = a.
Proof. intros <-. unfold len. rewrite Nat2Z.id. apply take_app_length. Qed.

Lemma drop_prefix (a b : list byte) k : len a = k → drop (Z.to_nat k) (a ++ b) = b.
Proof. intros <-. unfold len. rewrite Nat2Z.id. apply drop_app_length. Qed.

Lemma drop_drop_Z (l : list byte) a b :
  0 ≤ a → 0 ≤ b → drop (Z.to_nat b) (drop (Z.to_nat a) l) = drop (Z.to_nat (a + b)) l.
Proof. intros. rewrite drop_drop. f_equal. lia. Qed.

Lemma len_read_part m idx off k :
  wf m → 0 ≤ off → 0 ≤ k → off + k ≤ PAGE_SIZE → len (read_part m idx off k) = k.
Proof.
  intros Hwf ???. unfold read_part.
  destruct (page_at m idx) as [pg|] eqn:E; [|by apply len_zeros].
  apply page_at_Some in E as (p & _ & Hp).
  destruct (wf_mem _ _ _ Hwf Hp) as [_ Hl]. len_solve.
Qed.

(** One piece of a read: from the page when it is there, zeros otherwise;
    the two cases give the same bytes as [read_part]. *)
Lemma read_piece m idx dst off k :
  wf m → 0 ≤ off → 0 ≤ k → k ≤ len dst → off + k ≤ PAGE_SIZE →
  match brk_pages m !! idx with
  | Some page =>
      bind (page_read page) (λ src, lift_opt (memcpy dst (drop (Z.to_nat off) src) k))
  | None => lift_opt (memset0 dst k)
  end m = Ok (read_part m idx off k ++ drop (Z.to_nat k) dst) m.
Proof.
  intros Hwf Hoff Hk Hdst Hpg. unfold read_part, page_at.
  destruct (brk_pages m !! idx) as [p|] eqn:E; simpl.
  - destruct (wf_tree _ _ _ Hwf E) as (pg & Hp & _ & Hl & _).
    rewrite (bind_Ok _ _ _ _ _ (page_read_Some _ _ _ Hp)), Hp.
    rewrite memcpy_Some by len_solve. simpl.
    by rewrite take_drop_commute.
  - by rewrite memset0_Some.
Qed.

Lemma copy_from_brk_spec m dst sector n :
  wf m → 0 ≤ n → n ≤ len dst →
  (first_copy sector n < n →
   is_Some (page_at m (page_idx (next_sector sector n))) →
   n - first_copy sector n ≤ PAGE_SIZE) →
  copy_from_brk dst sector n m
  = Ok (read_part m (page_idx sector) (page_offset sector) (first_copy sector n)
        ++ (if bool_decide (first_copy sector n < n)
            then read_part m (page_idx (next_sector sector n)) 0 (n - first_copy sector n)
            else [])
        ++ drop (Z.to_nat n) dst) m.
Proof.
  intros Hwf Hn Hdst Hsecond.
  pose proof (first_copy_bounds sector n Hn) as (Hc0 & Hcn & Hcp).
  pose proof (page_offset_bounds sector) as (Ho0 & _).
  unfold copy_from_brk.
  fold (page_offset sector). fold (first_copy sector n). fold (next_sector sector n).
  rewrite (bind_Ok _ _ _ _ _ (brk_lookup_page_wf _ _ Hwf)).
  erewrite bind_Ok; [|apply (read_piece m (page_idx sector) dst); first [done | lia]].
  set (p1 := read_part m (page_idx sector) (page_offset sector) (first_copy sector n)).
  assert (Hp1 : len p1 = first_copy sector n) by (by apply len_read_part).
  case_bool_decide as Hlt.
  - rewrite (bind_Ok _ _ _ _ _ (brk_lookup_page_wf _ _ Hwf)).
    set (idx2 := page_idx (next_sector sector n)) in *.
    set (k2 := n - first_copy sector n) in *.
    destruct (brk_pages m !! idx2) as [p|] eqn:E.
    + destruct (wf_tree _ _ _ Hwf E) as (pg & Hp & _ & Hl & _).
      assert (Hpa : page_at m idx2 = Some pg) by (apply page_at_Some; eauto).
      specialize (Hsecond Hlt (mk_is_Some _ _ Hpa)).
      rewrite (bind_Ok _ _ _ _ _ (page_read_Some _ _ _ Hp)).
      erewrite at_offset_Some; [|lia|len_solve|].
      2:{ rewrite drop_prefix by done. apply memcpy_Some; [lia|len_solve|lia]. }
      simpl. unfold read_part. rewrite Hpa. simpl.
      rewrite take_prefix by done. rewrite drop_drop_Z by lia.
      do 4 f_equal. subst k2. lia.
    + assert (Hpa : page_at m idx2 = None) by (by apply page_at_None).
      erewrite at_offset_Some; [|lia|len_solve|].
      2:{ rewrite drop_prefix by done. apply memset0_Some; [lia|len_solve]. }
      simpl. unfold read_part. rewrite Hpa.
      rewrite take_prefix by done. rewrite drop_drop_Z by lia.
      do 4 f_equal. subst k2. lia.
  - simpl. unfold ret. do 3 f_equal. lia.
Qed.

(** Within the capacity of a device the sector number does not wrap. *)
Lemma in_capacity_next m sector n :
  wf m → in_capacity m sector n → first_copy sector n < n →
  sector_t sector ∧ (page_idx sector + 1) * 8 < 2 ^ 64.
Proof.
  intros ((Hc0 & Hc1) & _) (Hs & Hn & Hcap) Hlt.
  rewrite (first_copy_lt _ _ Hlt), PAGE_SIZE_val, page_offset_mod in Hlt.
  rewrite page_idx_div. unfold sector_t.
  pose proof (Z.mod_pos_bound sector 8 ltac:(lia)).
  pose proof (Z.div_mod sector 8 ltac:(lia)). lia.
Qed.

Lemma in_capacity_sector_t m sector n :
  wf m → in_capacity m sector n → 0 < n → sector_t sector.
Proof. intros ((Hc0 & Hc1) & _) (Hs & Hn & Hcap) Hlt. unfold sector_t. lia. Qed.

Lemma touches_first sector n : 0 < n → touches sector n (page_idx sector).
Proof.
  intros Hn. unfold touches. rewrite page_idx_div, PAGE_SIZE_val.
  pose proof (Z.mod_pos_bound sector 8 ltac:(lia)).
  pose proof (Z.div_mod sector 8 ltac:(lia)). lia.
Qed.

Lemma touches_second sector n :
  sector_t sector → first_copy sector n < n → (page_idx sector + 1) * 8 < 2 ^ 64 →
  touches sector n (page_idx (next_sector sector n)).
Proof.
  intros Hs Hlt Hw.
  destruct (next_sector_spec sector n Hs Hlt) as (_ & _ & H).
  destruct (H Hw) as [-> He]. unfold touches.
  pose proof (first_copy_lt _ _ Hlt). pose proof (page_offset_bounds sector).
  rewrite PAGE_SIZE_val in *. lia.
Qed.

(** A read of a range no page of which is there. *)
Lemma copy_from_brk_unwritten m dst sector n :
  wf m → in_capacity m sector n → n ≤ len dst →
  (∀ idx, touches sector n idx → brk_pages m !! idx = None) →
  copy_from_brk dst sector n m = Ok (zeros n ++ drop (Z.to_nat n) dst) m.
Proof.
  intros Hwf Hcap Hdst Habs.
  pose proof Hcap as (Hs & Hn & _).
  pose proof (first_copy_bounds sector n Hn) as (Hc0 & Hcn & Hcp).
  assert (Hsec : first_copy sector n < n →
                 page_at m (page_idx (next_sector sector n)) = None).
  { intros Hlt. destruct (in_capacity_next _ _ _ Hwf Hcap Hlt) as [Hst Hw].
    apply page_at_None; [done|]. apply Habs. by apply touches_second. }
  rewrite copy_from_brk_spec; [|done..|].
  2:{ intros Hlt [pg Hpg]. rewrite (Hsec Hlt) in Hpg. done. }
  f_equal. rewrite app_assoc. f_equal.
  assert (Hfirst : read_part m (page_idx sector) (page_offset sector) (first_copy sector n)
                   = zeros (first_copy sector n)).
  { unfold read_part. destruct (decide (n = 0)) as [->|Hne].
    - replace (first_copy sector 0) with 0 by lia.
      by destruct (page_at m (page_idx sector)).
    - replace (page_at m (page_idx sector)) with (@None page); [done|].
      symmetry. apply page_at_None; [done|]. apply Habs. apply touches_first. lia. }
  rewrite Hfirst. case_bool_decide as Hlt.
  - unfold read_part. rewrite (Hsec Hlt). rewrite zeros_app by lia. f_equal. lia.
  - rewrite app_nil_r. f_equal. lia.
Qed.

(** C2. For every valid sector range that was never written (no page is
    present at any page index the range touches), copy_from_brk returns
    normally, leaves the machine as it was (no page is allocated), and fills
    the requested length with zero bytes, the rest of the destination being
    untouched; a read segment over such a range completes with error code 0
    and the zero bytes in its buffer. *)
Theorem read_of_unwritten_range_is_zero m dst sector n :
  wf m → in_capacity m sector n → n ≤ len dst →
  (∀ idx, touches sector n idx → brk_pages m !! idx = None) →
  copy_from_brk dst sector n m = Ok (zeros n ++ drop (Z.to_nat n) dst) m
  ∧ ∀ `{crypto : CryptoApi} page off, 0 ≤ off → off + n ≤ len page →
      brk_do_bvec page n off READ sector m
      = Ok (0, take (Z.to_nat off) page ++ zeros n
               ++ drop (Z.to_nat (off + n)) page) m.
Proof.
  intros Hwf Hcap Hdst Habs. split; [by apply copy_from_brk_unwritten|].
  intros crypto page off Hoff Hlen. pose proof Hcap as (_ & Hn & _).
  unfold brk_do_bvec. cbn [is_read]. unfold bind at 1, ret at 1.
  rewrite bool_decide_eq_false_2 by (intros H; by apply H).
  erewrite bind_Ok; [|apply copy_from_brk_unwritten; [done..|len_solve|done]].
  unfold ret. by rewrite drop_drop_Z by lia.
Qed.

(** ** Calls that only touch the allocator state and the log *)

Lemma logs_refl m : logs m m [].
Proof. split; [done|]. by rewrite app_nil_r. Qed.

Lemma logs_trans m1 m2 m3 e1 e2 :
  logs m1 m2 e1 → logs m2 m3 e2 → logs m1 m3 (e1 ++ e2).
Proof.
  intros [S1 L1] [S2 L2]. split; [by eapply same_store_trans|].
  by rewrite L2, L1, app_assoc.
Qed.

Lemma log_inv e m r m' : log e m = Ok r m' → logs m m' [e].
Proof. intros [= _ <-]. done. Qed.

Lemma next_gfp_inv m b m' : next_gfp m = Ok b m' → logs m m' [].
Proof.
  unfold next_gfp. destruct (gfp m); intros [= _ <-]; split; try done; simpl;
    by rewrite app_nil_r.
Qed.

Lemma crypto_alloc_hash_inv alg m b m' :
  crypto_alloc_hash alg m = Ok b m' → logs m m' [EvCryptoAllocHash alg b].
Proof.
  unfold crypto_alloc_hash. intros H.
  apply bind_Ok_inv in H as (ok & m1 & H1 & H).
  apply bind_Ok_inv in H as ([] & m2 & H2 & H).
  injection H as <- <-.
  apply (logs_trans _ _ _ [] _ (next_gfp_inv _ _ _ H1) (log_inv _ _ _ _ H2)).
Qed.

Lemma print_lines_inv (f : Z → event) ls m m' :
  foldr (λ lol k, let* _ := log (f lol) in k) (ret tt) ls m = Ok tt m' →
  logs m m' (f <$> ls).
Proof.
  revert m. induction ls as [|l ls IH]; intros m; simpl.
  - intros [= <-]. apply logs_refl.
  - intros H. apply bind_Ok_inv in H as ([] & m1 & H1 & H).
    apply (logs_trans _ _ _ [_] _ (log_inv _ _ _ _ H1) (IH _ H)).
Qed.

Lemma print_digest_inv lambos m m' :
  print_digest lambos m = Ok tt m' → ∃ evs, logs m m' evs ∧ Forall (λ e, allocates e = false) evs.
Proof.
  unfold print_digest, printk. intros H.
  apply (print_lines_inv (λ lol, EvPrintk _ [ArgD _; ArgD lol])) in H.
  eexists. split; [exact H|]. apply Forall_fmap, Forall_true. done.
Qed.

(** ** copy_to_brk *)

Tactic Notation "inv_bind" hyp(H) "as" ident(a) ident(m) ident(H1) :=
  apply bind_Ok_inv in H as (a & m & H1 & H);
  match type of a with unit => destruct a | _ => idtac end.

(** The steps of copy_to_brk between the first lookup and the first memcpy
    (the log line, the transform, the digest and its printing) leave the
    device contents alone and allocate the transform. *)
Lemma digest_steps_inv `{crypto : CryptoApi} {A} copy (k : M A) m r m' :
  (let* _ := printk "sha1: %s\n" [ArgS "copy_to_brk"] in
   let* bitcoin := crypto_alloc_hash "sha1" in
   let* _ := if bitcoin : bool then ret tt else crash Oops in
   let* digest := lift_opt (hash_digest "sha1" (replicate 10 "A"%byte) copy 10) in
   let* _ := print_digest (take (Z.to_nat SHA1_LENGTH) (digest ++ zeros SHA1_LENGTH)) in
   let* _ := crypto_free_hash in
   k) m = Ok r m' →
  ∃ m1 evs, logs m m1 evs ∧ EvCryptoAllocHash "sha1" true ∈ evs ∧ k m1 = Ok r m'.
Proof.
  intros H.
  inv_bind H as u1 m1 H1. apply log_inv in H1.
  inv_bind H as bitcoin m2 H2. apply crypto_alloc_hash_inv in H2.
  inv_bind H as u3 m3 H3. destruct bitcoin; [|done]. injection H3 as <-.
  inv_bind H as dg m4 H4. destruct (hash_digest _ _ _ _) as [digest|]; [|done].
  injection H4 as <- <-.
  inv_bind H as u5 m5 H5. apply print_digest_inv in H5 as (evs & H5 & _).
  inv_bind H as u6 m6 H6. apply log_inv in H6.
  eexists _, _. split; [|split; [|exact H]].
  - eapply logs_trans; [exact H1|]. eapply logs_trans; [exact H2|].
    eapply logs_trans; [exact H5|exact H6].
  - set_solver.
Qed.

Lemma copy_to_brk_inv `{crypto : CryptoApi} m src sector n m' :
  wf m → sector_t sector → copy_to_brk src sector n m = Ok tt m' →
  let off := page_offset sector in
  let copy := first_copy sector n in
  wf m' ∧ capacity m' = capacity m ∧ brk_pages m' = brk_pages m
  ∧ 0 ≤ n ∧ n ≤ len src
  ∧ ∃ p1 pg1,
      brk_pages m !! page_idx sector = Some p1 ∧ page_mem m !! p1 = Some pg1 ∧
      let new1 := Page (index pg1)
                    (take (Z.to_nat off) (data pg1)
                     ++ take (Z.to_nat copy) src
                     ++ drop (Z.to_nat (off + copy)) (data pg1)) in
      if bool_decide (copy < n) then
        ∃ p2 pg2,
          brk_pages m !! page_idx (next_sector sector n) = Some p2
          ∧ page_mem m !! p2 = Some pg2 ∧ p1 ≠ p2 ∧ n - copy ≤ PAGE_SIZE
          ∧ page_mem m' =
              <[p2 := Page (index pg2)
                        (take (Z.to_nat (n - copy)) (drop (Z.to_nat copy) src)
                         ++ drop (Z.to_nat (n - copy)) (data pg2))]>
                (<[p1 := new1]> (page_mem m))
      else page_mem m' = <[p1 := new1]> (page_mem m).
Proof.
  intros Hwf Hsec H. cbv zeta. unfold copy_to_brk in H.
  fold (page_offset sector) in H. fold (first_copy sector n) in H.
  fold (next_sector sector n) in H.
  pose proof (page_offset_bounds sector) as (Ho0 & Ho1 & _).
  inv_bind H as pg m0 H0. rewrite brk_lookup_page_wf in H0 by done. injection H0 as <- <-.
  destruct (brk_pages m !! page_idx sector) as [p1|] eqn:E1; [|done].
  apply digest_steps_inv in H as (m1 & evs & [Hs1 _] & _ & H).
  assert (Hwf1 : wf m1) by (by eapply wf_same_store).
  destruct Hs1 as (Hc1 & Ht1 & Hm1).
  inv_bind H as u2 m2 H0. apply page_write_inv in H0 as (pg1 & d1 & Hp1 & Hd1 & ->).
  apply at_offset_inv in Hd1 as (_ & d & Hd & ->).
  apply memcpy_inv in Hd as ((Hcp0 & Hcp1 & Hcp2) & -> & Hlen).
  destruct (wf_mem _ _ _ Hwf1 Hp1) as [Hk1 Hl1].
  assert (Hn0 : 0 ≤ n) by (unfold first_copy in Hcp0; lia).
  pose proof (first_copy_bounds sector n Hn0) as (_ & Hcn & Hcpg).
  rewrite drop_drop_Z in H by lia.
  set (new1 := Page (index pg1) _) in *.
  assert (Hwf2 : wf (set_page_mem (insert p1 new1) m1)).
  { apply wf_page_update; [done..|]. len_solve. }
  rewrite Hm1 in Hp1.
  case_bool_decide as Hlt.
  - inv_bind H as pg' m3 H0. rewrite brk_lookup_page_wf in H0 by done. injection H0 as <- <-.
    simpl in H. rewrite Ht1 in H.
    destruct (brk_pages m !! page_idx (next_sector sector n)) as [p2|] eqn:E2; [|done].
    apply page_write_inv in H as (pg2 & d2 & Hp2 & Hd2 & ->).
    apply memcpy_inv in Hd2 as ((Hc0' & Hc1' & Hc2') & -> & Hlen2).
    destruct (next_sector_spec sector n Hsec Hlt) as (_ & Hne & _).
    assert (Hp12 : p1 ≠ p2).
    { intros <-. apply Hne. symmetry. eapply (wf_inj m); eauto. }
    simpl in Hp2. rewrite lookup_insert_ne in Hp2 by done.
    rewrite Hm1 in Hp2.
    assert (Hl2 : len (data pg2) = PAGE_SIZE).
    { rewrite <- Hm1 in Hp2. by destruct (wf_mem _ _ _ Hwf1 Hp2). }
    split.
    { apply (wf_page_update _ p2 pg2); [done| |len_solve].
      simpl. by rewrite lookup_insert_ne, Hm1. }
    simpl. rewrite Hm1. split; [done|]. split; [done|]. split; [done|].
    split; [len_solve|].
    exists p1, pg1. split; [done|]. split; [done|].
    exists p2, pg2. split; [done|]. split; [done|]. split; [done|].
    split; [len_solve|]. done.
  - injection H as <-.
    split; [done|]. simpl. rewrite Hm1. split; [done|]. split; [done|]. split; [done|].
    split; [lia|].
    exists p1, pg1. done.
Qed.

(** The store after a successful copy_to_brk, page by page. *)
Lemma copy_to_brk_pages `{crypto : CryptoApi} m src sector n m' :
  wf m → sector_t sector → copy_to_brk src sector n m = Ok tt m' →
  let off := page_offset sector in
  let copy := first_copy sector n in
  (∃ old, page_at m (page_idx sector) = Some old
     ∧ page_at m' (page_idx sector)
       = Some (Page (index old)
                 (take (Z.to_nat off) (data old) ++ take (Z.to_nat copy) src
                  ++ drop (Z.to_nat (off + copy)) (data old))))
  ∧ (copy < n →
     n - copy ≤ PAGE_SIZE
     ∧ ∃ old, page_at m (page_idx (next_sector sector n)) = Some old
         ∧ page_at m' (page_idx (next_sector sector n))
           = Some (Page (index old)
                     (take (Z.to_nat (n - copy)) (drop (Z.to_nat copy) src)
                      ++ drop (Z.to_nat (n - copy)) (data old))))
  ∧ (∀ idx, idx ≠ page_idx sector →
       (copy < n → idx ≠ page_idx (next_sector sector n)) →
       page_at m' idx = page_at m idx).
Proof.
  intros Hwf Hsec H. cbv zeta.
  destruct (copy_to_brk_inv _ _ _ _ _ Hwf Hsec H)
    as (Hwf' & Hc & Ht & Hn0 & Hsrc & p1 & pg1 & E1 & Hp1 & Hrest).
  cbv zeta in Hrest. unfold page_at. rewrite Ht.
  case_bool_decide as Hlt.
  - destruct Hrest as (p2 & pg2 & E2 & Hp2 & Hne & Hk & ->).
    split_and!.
    + exists pg1. rewrite E1. simpl. rewrite Hp1.
      by rewrite lookup_insert_ne, lookup_insert_eq.
    + intros _. split; [done|]. exists pg2. rewrite E2. simpl. rewrite Hp2.
      by rewrite lookup_insert_eq.
    + intros idx Hi1 Hi2. specialize (Hi2 Hlt).
      destruct (brk_pages m !! idx) as [q|] eqn:E; simpl; [|done].
      rewrite !lookup_insert_ne; [done|..]; intros <-.
      * apply Hi1. eapply (wf_inj m); eauto.
      * apply Hi2. eapply (wf_inj m); eauto.
  - rewrite Hrest. split_and!.
    + exists pg1. rewrite E1. simpl. rewrite Hp1. by rewrite lookup_insert_eq.
    + intros ?. lia.
    + intros idx Hi1 _.
      destruct (brk_pages m !! idx) as [q|] eqn:E; simpl; [|done].
      rewrite lookup_insert_ne; [done|]. intros <-.
      apply Hi1. eapply (wf_inj m); eauto.
Qed.

(** A successful copy_to_brk followed by copy_from_brk of the same range. *)
Lemma copy_round_trip `{crypto : CryptoApi} m src dst sector n m' :
  wf m → sector_t sector → n ≤ len dst →
  copy_to_brk src sector n m = Ok tt m' →
  copy_from_brk dst sector n m'
  = Ok (take (Z.to_nat n) src ++ drop (Z.to_nat n) dst) m'.
Proof.
  intros Hwf Hsec Hdst H.
  pose proof (copy_to_brk_inv _ _ _ _ _ Hwf Hsec H)
    as (Hwf' & Hc & Ht & Hn0 & Hsrc & _).
  pose proof (copy_to_brk_pages _ _ _ _ _ Hwf Hsec H) as (Hfirst & Hsecond & _).
  cbv zeta in *.
  pose proof (first_copy_bounds sector n Hn0) as (Hc0 & Hcn & Hcp).
  pose proof (page_offset_bounds sector) as (Ho0 & _).
  rewrite copy_from_brk_spec; [|done..|].
  2:{ intros Hlt _. by destruct (Hsecond Hlt). }
  f_equal. rewrite app_assoc. f_equal.
  destruct Hfirst as (old1 & Ho1 & Hn1).
  assert (Hl1 : len (data old1) = PAGE_SIZE).
  { apply page_at_Some in Ho1 as (q & _ & Hq). by destruct (wf_mem _ _ _ Hwf Hq). }
  assert (Hr1 : read_part m' (page_idx sector) (page_offset sector) (first_copy sector n)
                = take (Z.to_nat (first_copy sector n)) src).
  { unfold read_part. rewrite Hn1. simpl.
    rewrite drop_prefix by len_solve. apply take_prefix. len_solve. }
  rewrite Hr1. case_bool_decide as Hlt.
  - destruct (Hsecond Hlt) as (Hk & old2 & Ho2 & Hn2).
    unfold read_part. rewrite Hn2. simpl.
    change (Z.to_nat 0) with 0%nat. rewrite drop_0.
    rewrite take_prefix by len_solve.
    rewrite take_take_drop. f_equal. lia.
  - rewrite app_nil_r. f_equal. lia.
Qed.

(** C1. A write of [n] bytes at [sector] that succeeds, followed by a read
    of the same range, returns the [n] bytes written, whether or not the
    range straddles a page boundary; this holds for every 64-bit sector, in
    particular for every range within the capacity. The bytes stored do not
    depend on the crypto layer: with any other digest function a successful
    write leaves the same device contents. *)
Theorem write_then_read_returns_data `{crypto : CryptoApi} m src dst sector n m' :
  wf m → sector_t sector → n ≤ len dst →
  copy_to_brk src sector n m = Ok tt m' →
  copy_from_brk dst sector n m'
    = Ok (take (Z.to_nat n) src ++ drop (Z.to_nat n) dst) m'
  ∧ len (take (Z.to_nat n) src) = n
  ∧ ∀ (crypto2 : CryptoApi) m2,
      @copy_to_brk crypto2 src sector n m = Ok tt m2 → same_store m' m2.
Proof.
  intros Hwf Hsec Hdst H.
  pose proof (copy_to_brk_inv _ _ _ _ _ Hwf Hsec H)
    as (Hwf' & Hc & Ht & Hn0 & Hsrc & p1 & pg1 & E1 & Hp1 & Hrest).
  cbv zeta in *.
  split; [by apply (copy_round_trip m)|]. split; [len_solve|].
  intros crypto2 m2 H2.
  pose proof (copy_to_brk_inv _ _ _ _ _ Hwf Hsec H2)
    as (_ & Hc2 & Ht2 & _ & _ & q1 & qg1 & F1 & Hq1 & Hrest2).
  cbv zeta in *. rewrite E1 in F1. injection F1 as <-.
  rewrite Hp1 in Hq1. injection Hq1 as <-.
  split; [congruence|]. split; [congruence|].
  case_bool_decide as Hlt.
  - destruct Hrest as (p2 & pg2 & E2 & Hp2 & _ & _ & ->).
    destruct Hrest2 as (q2 & qg2 & F2 & Hq2 & _ & _ & ->).
    rewrite E2 in F2. injection F2 as <-.
    rewrite Hp2 in Hq2. injection Hq2 as <-. done.
  - congruence.
Qed.

(** ** brk_insert_page *)

Lemma sector_t_page_idx sector : sector_t sector → 0 ≤ page_idx sector < 2 ^ 61.
Proof.
  intros [H0 H1]. rewrite page_idx_div.
  pose proof (Z.div_mod sector 8 ltac:(lia)).
  pose proof (Z.mod_pos_bound sector 8 ltac:(lia)). lia.
Qed.

Lemma alloc_page_run m :
  ∃ r m', alloc_page m = Ok r m' ∧ capacity m' = capacity m ∧ brk_pages m' = brk_pages m
    ∧ match r with
      | None => page_mem m' = page_mem m
      | Some p => page_mem m !! p = None
                  ∧ page_mem m' = <[p := Page 0 (zeros PAGE_SIZE)]> (page_mem m)
      end.
Proof.
  unfold alloc_page, bind, next_gfp.
  destruct (gfp m) as [|[] g]; simpl; eexists _, _; (split; [reflexivity|]); simpl;
    try done.
  split; [done|]. split; [done|]. split; [|done].
  apply not_elem_of_dom, is_fresh.
Qed.

Lemma radix_tree_preload_run m :
  ∃ ok m', radix_tree_preload m = Ok ok m' ∧ same_store m m'.
Proof.
  unfold radix_tree_preload, bind, next_gfp.
  destruct (gfp m) as [|b g]; simpl; eexists _, _; (split; [reflexivity|]); done.
Qed.

Lemma free_page_run p m :
  ∃ m', __free_page p m = Ok tt m' ∧ capacity m' = capacity m
        ∧ brk_pages m' = brk_pages m ∧ page_mem m' = delete p (page_mem m)
        ∧ EvFreePage p ∈ klog m'.
Proof.
  eexists. split; [reflexivity|]. simpl. split_and!; first [done | set_solver].
Qed.

(** The locked section, statement after statement. *)
Lemma brk_insert_page_locked_unfold page sector m :
  brk_insert_page_locked page sector m
  = (let idx := Z.shiftr sector PAGE_SECTORS_SHIFT in
     let* _ := page_set_index page idx in
     let* taken := radix_tree_insert idx page in
     if taken : bool then
       let* _ := __free_page page in
       let* page := radix_tree_lookup idx in
       match page with
       | None => crash BUG_missing_page
       | Some p =>
           let* i := page_index p in
           if bool_decide (i ≠ idx) then crash BUG_index_mismatch else ret (Some p)
       end
     else ret (Some page)) m.
Proof.
  unfold brk_insert_page_locked, locked_run, locked_step, page_set_index, radix_tree_insert,
    radix_tree_lookup, __free_page, page_index, log, bind, gets, modify, ret, crash, lift_opt.
  cbv zeta. simpl.
  destruct (page_mem m !! page); simpl; [|done].
  destruct (brk_pages m !! _) as [q|] eqn:E; simpl; [|done].
  unfold ret, crash. simpl. rewrite E.
  destruct (index <$> _); [|done].
  by case_bool_decide.
Qed.

Lemma pending_not_in_tree m p idx : pending m p → brk_pages m !! idx ≠ Some p.
Proof.
  intros [_ Hwf] E. destruct (wf_tree _ idx p Hwf E) as (pg & Hp & _).
  simpl in Hp. by rewrite lookup_delete_eq in Hp.
Qed.

(** The locked part of brk_insert_page, run with a new page [p] in hand:
    when the slot is taken, the new page is freed and the page of the tree
    is returned; otherwise the new page enters the tree tagged with its
    index, its frame as allocated. *)
Lemma brk_insert_page_locked_spec m p pg sector :
  pending m p → page_mem m !! p = Some pg → len (data pg) = PAGE_SIZE →
  sector_t sector →
  ∃ r m', brk_insert_page_locked p sector m = Ok (Some r) m'
    ∧ wf m' ∧ capacity m' = capacity m
    ∧ brk_pages m' !! page_idx sector = Some r
    ∧ match brk_pages m !! page_idx sector with
      | Some q => r = q ∧ brk_pages m' = brk_pages m
                  ∧ page_mem m' = delete p (page_mem m)
                  ∧ EvFreePage p ∈ klog m'
      | None => r = p ∧ brk_pages m' = <[page_idx sector := p]> (brk_pages m)
                ∧ page_mem m' = <[p := Page (page_idx sector) (data pg)]> (page_mem m)
      end.
Proof.
  intros Hpend Hp Hlen Hsec. pose proof Hpend as [_ Hwf].
  pose proof (sector_t_page_idx _ Hsec) as Hidx.
  rewrite brk_insert_page_locked_unfold. cbv zeta. fold (page_idx sector).
  unfold page_set_index, radix_tree_insert, radix_tree_lookup, bind, gets.
  rewrite Hp. simpl.
  destruct (brk_pages m !! page_idx sector) as [q|] eqn:E; simpl.
  - destruct (wf_tree _ _ _ Hwf E) as (qg & Hq & Hqi & Hql & _). simpl in Hq.
    assert (Hne : p ≠ q) by (intros ->; by rewrite lookup_delete_eq in Hq).
    rewrite lookup_delete_ne in Hq by done.
    rewrite E. simpl. unfold page_index, bind, gets. simpl.
    rewrite delete_insert_eq. rewrite lookup_delete_ne by done. rewrite Hq. simpl.
    rewrite bool_decide_eq_false_2 by (intros ?; congruence).
    eexists _, _. split; [reflexivity|]. simpl.
    split; [|split_and!; try done; [apply delete_insert_eq|set_solver]].
    eapply wf_same_store; [|exact Hwf].
    split_and!; simpl; try done. apply delete_insert_eq.
  - eexists _, _. split; [reflexivity|]. simpl. rewrite lookup_insert_eq.
    split; [|done].
    destruct Hwf as (Hc & Ht & Hm). simpl in *.
    split; [done|]. split; simpl.
    + intros idx q Hq. destruct (decide (idx = page_idx sector)) as [->|Hne].
      * rewrite lookup_insert_eq in Hq. injection Hq as <-.
        rewrite lookup_insert_eq. done.
      * rewrite lookup_insert_ne in Hq by done.
        destruct (Ht _ _ Hq) as [Hr Hi]. split; [done|].
        rewrite lookup_insert_ne; [|intros <-; by rewrite lookup_delete_eq in Hi].
        by rewrite lookup_delete_ne in Hi by (intros <-; by rewrite lookup_delete_eq in Hi).
    + intros q qg Hq.
      destruct (decide (q = p)) as [->|Hne].
      * rewrite lookup_insert_eq in Hq. injection Hq as <-. simpl.
        by rewrite lookup_insert_eq.
      * rewrite lookup_insert_ne in Hq by done.
        assert (Hq' : delete p (page_mem m) !! q = Some qg) by (by rewrite lookup_delete_ne).
        destruct (Hm _ _ Hq') as [Hk Hl]. split; [|done].
        rewrite lookup_insert_ne; [done|]. intros He. rewrite <- He in Hk. congruence.
Qed.

(** brk_insert_page from a consistent store: it returns normally; an entry
    already present is returned and nothing changes; otherwise either an
    allocation fails and the store is as before, or a new zero-filled page
    tagged with the index enters the tree. *)
Lemma brk_insert_page_spec m sector :
  wf m → sector_t sector →
  ∃ r m', brk_insert_page sector m = Ok r m' ∧ wf m' ∧ capacity m' = capacity m
    ∧ match brk_pages m !! page_idx sector with
      | Some p => r = Some p ∧ m' = m
      | None =>
          match r with
          | None => same_store m m'
          | Some p =>
              page_mem m !! p = None
              ∧ brk_pages m' = <[page_idx sector := p]> (brk_pages m)
              ∧ page_mem m' = <[p := Page (page_idx sector) (zeros PAGE_SIZE)]> (page_mem m)
          end
      end.
Proof.
  intros Hwf Hsec. unfold brk_insert_page, brk_insert_page_alloc, bind, ret.
  rewrite brk_lookup_page_wf by done.
  destruct (brk_pages m !! page_idx sector) as [p|] eqn:E; cbv beta iota.
  { eexists _, _. split; [reflexivity|]. done. }
  destruct (alloc_page_run m) as (r & m1 & -> & Hc1 & Ht1 & Hr).
  destruct r as [p|]; cbv beta iota.
  2:{ eexists _, _. split; [reflexivity|].
      split; [by apply (wf_same_store m)|]. done. }
  destruct Hr as [Hfresh Hm1].
  destruct (radix_tree_preload_run m1) as (ok & m2 & -> & Hc2 & Ht2 & Hm2).
  destruct ok; cbv beta iota.
  - assert (Hpend : pending m2 p).
    { split; [rewrite Hm2, Hm1, lookup_insert_eq; eauto|].
      apply (wf_same_store m); [|done]. split_and!; simpl; try congruence.
      rewrite Hm2, Hm1, delete_insert_eq. by apply delete_id. }
    destruct (brk_insert_page_locked_spec m2 p (Page 0 (zeros PAGE_SIZE)) sector Hpend)
      as (r & m3 & -> & Hwf3 & Hc3 & _ & Hcase); [|by apply len_zeros|done|].
    { by rewrite Hm2, Hm1, lookup_insert_eq. }
    rewrite Ht2, Ht1, E in Hcase. destruct Hcase as (-> & Ht3 & Hm3).
    eexists _, _. split; [reflexivity|]. split; [done|]. split; [congruence|].
    split; [done|]. split; [congruence|].
    rewrite Hm3, Hm2, Hm1. simpl. apply insert_insert_eq.
  - destruct (free_page_run p m2) as (m3 & -> & Hc3 & Ht3 & Hm3 & _).
    cbv beta iota.
    assert (Hs : same_store m m3).
    { split_and!; try congruence.
      rewrite Hm3, Hm2, Hm1, delete_insert_eq. by apply delete_id. }
    eexists _, _. split; [reflexivity|]. split; [by apply (wf_same_store m)|].
    split; [congruence|]. done.
Qed.

(** What callers of brk_insert_page rely on: nothing that was there is
    lost or altered, and the result tells whether the page is there. *)
Lemma brk_insert_page_grows m sector :
  wf m → sector_t sector →
  ∃ r m', brk_insert_page sector m = Ok r m' ∧ wf m' ∧ capacity m' = capacity m
    ∧ brk_pages m ⊆ brk_pages m' ∧ page_mem m ⊆ page_mem m'
    ∧ brk_pages m' !! page_idx sector = r
    ∧ (∀ idx, idx ≠ page_idx sector → brk_pages m' !! idx = brk_pages m !! idx).
Proof.
  intros Hwf Hsec.
  destruct (brk_insert_page_spec m sector Hwf Hsec) as (r & m' & H & Hwf' & Hc & Hcase).
  exists r, m'. split; [done|]. split; [done|]. split; [done|].
  destruct (brk_pages m !! page_idx sector) as [p|] eqn:E.
  - destruct Hcase as [-> ->]. done.
  - destruct r as [p|].
    + destruct Hcase as (Hf & -> & ->). split_and!.
      * by apply insert_subseteq.
      * by apply insert_subseteq.
      * apply lookup_insert_eq.
      * intros idx Hne. by rewrite lookup_insert_ne.
    + destruct Hcase as (_ & -> & ->). done.
Qed.

(** ** copy_to_brk_setup *)

(** Under the single-crossing precondition a range within the capacity
    touches the page of its first sector and at most the next one. *)
Lemma touches_at_most_two m sector n idx :
  wf m → in_capacity m sector n → page_offset sector + n ≤ 2 * PAGE_SIZE →
  touches sector n idx →
  idx = page_idx sector
  ∨ first_copy sector n < n ∧ idx = page_idx (next_sector sector n).
Proof.
  intros Hwf Hcap Hsingle [Ht1 Ht2].
  assert (Hidx : idx = page_idx sector ∨ idx = page_idx sector + 1
                       ∧ first_copy sector n < n).
  { unfold first_copy. rewrite page_idx_div, page_offset_mod, PAGE_SIZE_val in *.
    pose proof (Z.div_mod sector 8 ltac:(lia)).
    pose proof (Z.mod_pos_bound sector 8 ltac:(lia)). lia. }
  destruct Hidx as [->|[-> Hlt]]; [by left|right]. split; [done|].
  destruct (in_capacity_next _ _ _ Hwf Hcap Hlt) as [Hs Hw].
  destruct (next_sector_spec sector n Hs Hlt) as (_ & _ & H).
  by destruct (H Hw) as [-> _].
Qed.

(** copy_to_brk_setup always returns; it keeps the invariant and whatever
    the store held, and returns 0 exactly when the pages it asked for are
    in the tree. *)
Lemma copy_to_brk_setup_run m sector n :
  wf m → sector_t sector →
  ∃ r m', copy_to_brk_setup sector n m = Ok r m' ∧ wf m' ∧ capacity m' = capacity m
    ∧ brk_pages m ⊆ brk_pages m' ∧ page_mem m ⊆ page_mem m'
    ∧ (r = 0 ∨ r = - ENOSPC)
    ∧ (r = 0 →
       is_Some (brk_pages m' !! page_idx sector)
       ∧ (first_copy sector n < n →
          is_Some (brk_pages m' !! page_idx (next_sector sector n)))).
Proof.
  intros Hwf Hsec.
  destruct (brk_insert_page_grows m sector Hwf Hsec)
    as (r1 & m1 & H1 & Hwf1 & Hc1 & Hsub1 & Hmem1 & Hr1 & Hoth1).
  unfold copy_to_brk_setup.
  fold (page_offset sector). fold (first_copy sector n). fold (next_sector sector n).
  rewrite (bind_Ok _ _ _ _ _ H1).
  destruct r1 as [p1|].
  - case_bool_decide as Hlt.
    + destruct (next_sector_spec sector n Hsec Hlt) as (Hsec2 & Hne & _).
      destruct (brk_insert_page_grows m1 _ Hwf1 Hsec2)
        as (r2 & m2 & H2 & Hwf2 & Hc2 & Hsub2 & Hmem2 & Hr2 & Hoth2).
      rewrite (bind_Ok _ _ _ _ _ H2).
      exists (match r2 with Some _ => 0 | None => - ENOSPC end), m2.
      split; [by destruct r2|]. split; [done|]. split; [congruence|].
      split; [by etrans|]. split; [by etrans|]. split; [destruct r2; auto|].
      destruct r2 as [p2|]; [|unfold ENOSPC; lia]. intros _.
      rewrite Hoth2, Hr1, Hr2 by done. eauto.
    + exists 0, m1. split; [done|]. split; [done|]. split; [done|].
      split; [done|]. split; [done|]. split; [auto|]. intros _.
      rewrite Hr1. split; [eauto|]. intros ?. lia.
  - exists (- ENOSPC), m1. split; [done|]. split; [done|]. split; [done|].
    split; [done|]. split; [done|]. split; [auto|]. unfold ENOSPC. lia.
Qed.

(** C6. copy_to_brk_setup calls brk_insert_page for the page of the first
    sector and, when the range goes past the end of that page, for the page
    where the second piece starts: at most two calls, which are all the page
    indices the range touches under the single-crossing precondition. It
    returns -ENOSPC exactly when one of these calls returns no page, and 0
    otherwise, in which case every page it asked for is in the tree. Nothing
    is rolled back on failure: whatever was in the tree or in memory before
    is there afterwards, unchanged, including the page of a first call that
    succeeded. *)
Theorem copy_to_brk_setup_ensures_pages m sector n :
  wf m → sector_t sector →
  ∃ r1 m1 r m',
    brk_insert_page sector m = Ok r1 m1
    ∧ copy_to_brk_setup sector n m = Ok r m' ∧ wf m' ∧ capacity m' = capacity m
    ∧ match r1 with
      | None => r = - ENOSPC ∧ m' = m1
      | Some _ =>
          if bool_decide (first_copy sector n < n) then
            ∃ r2, brk_insert_page (next_sector sector n) m1 = Ok r2 m'
                  ∧ r = match r2 with Some _ => 0 | None => - ENOSPC end
          else r = 0 ∧ m' = m1
      end
    ∧ (r = 0 ∨ r = - ENOSPC)
    ∧ (r = 0 ↔
       is_Some (brk_pages m' !! page_idx sector)
       ∧ (first_copy sector n < n →
          is_Some (brk_pages m' !! page_idx (next_sector sector n))))
    ∧ (brk_pages m ⊆ brk_pages m1 ∧ brk_pages m1 ⊆ brk_pages m')
    ∧ (page_mem m ⊆ page_mem m1 ∧ page_mem m1 ⊆ page_mem m')
    ∧ (in_capacity m sector n → page_offset sector + n ≤ 2 * PAGE_SIZE → r = 0 →
       ∀ idx, touches sector n idx → is_Some (brk_pages m' !! idx)).
Proof.
  intros Hwf Hsec.
  destruct (brk_insert_page_grows m sector Hwf Hsec)
    as (r1 & m1 & H1 & Hwf1 & Hc1 & Hsub1 & Hmem1 & Hr1 & Hoth1).
  exists r1, m1. unfold copy_to_brk_setup.
  fold (page_offset sector). fold (first_copy sector n). fold (next_sector sector n).
  rewrite (bind_Ok _ _ _ _ _ H1).
  assert (Hcover : ∀ r m', wf m' → capacity m' = capacity m →
            (r = 0 ↔ is_Some (brk_pages m' !! page_idx sector)
                     ∧ (first_copy sector n < n →
                        is_Some (brk_pages m' !! page_idx (next_sector sector n)))) →
            in_capacity m sector n → page_offset sector + n ≤ 2 * PAGE_SIZE → r = 0 →
            ∀ idx, touches sector n idx → is_Some (brk_pages m' !! idx)).
  { intros r m' Hwf' Hc' Hiff Hcap Hsingle Hr idx Ht.
    apply Hiff in Hr as [Hp1 Hp2].
    destruct (touches_at_most_two m sector n idx Hwf Hcap Hsingle Ht) as [->|[Hlt ->]];
      auto. }
  destruct r1 as [p1|].
  - case_bool_decide as Hlt.
    + destruct (next_sector_spec sector n Hsec Hlt) as (Hsec2 & Hne & _).
      destruct (brk_insert_page_grows m1 _ Hwf1 Hsec2)
        as (r2 & m2 & H2 & Hwf2 & Hc2 & Hsub2 & Hmem2 & Hr2 & Hoth2).
      rewrite (bind_Ok _ _ _ _ _ H2).
      assert (Hfirst : brk_pages m2 !! page_idx sector = Some p1).
      { rewrite Hoth2 by done. done. }
      assert (Hiff : match r2 with Some _ => 0 | None => - ENOSPC end = 0 ↔
                is_Some (brk_pages m2 !! page_idx sector)
                ∧ (first_copy sector n < n →
                   is_Some (brk_pages m2 !! page_idx (next_sector sector n)))).
      { rewrite Hr2, Hfirst. destruct r2 as [p2|].
        - split; [|done]. intros _. split; eauto.
        - split; [intros ?; unfold ENOSPC in *; lia|].
          intros [_ H]. by destruct (H Hlt). }
      exists (match r2 with Some _ => 0 | None => - ENOSPC end), m2.
      split; [done|]. split; [by destruct r2|]. split; [done|].
      split; [congruence|]. split; [eauto|].
      split; [destruct r2; auto|]. split; [done|]. split; [done|]. split; [done|].
      apply Hcover; [done|congruence|done].
    + assert (Hiff : 0 = 0 ↔
                is_Some (brk_pages m1 !! page_idx sector)
                ∧ (first_copy sector n < n →
                   is_Some (brk_pages m1 !! page_idx (next_sector sector n)))).
      { rewrite Hr1. split; [|done]. intros _. split; [eauto|]. intros ?. lia. }
      exists 0, m1. split; [done|]. split; [done|]. split; [done|]. split; [done|].
      split; [done|]. split; [auto|]. split; [done|]. split; [done|]. split; [done|].
      by apply Hcover.
  - exists (- ENOSPC), m1. split; [done|]. split; [done|]. split; [done|].
    split; [done|]. split; [done|]. split; [auto|].
    assert (Hiff : - ENOSPC = 0 ↔
                is_Some (brk_pages m1 !! page_idx sector)
                ∧ (first_copy sector n < n →
                   is_Some (brk_pages m1 !! page_idx (next_sector sector n)))).
    { rewrite Hr1. split; [intros ?; unfold ENOSPC in *; lia|]. by intros [[? ?] _]. }
    split; [done|]. split; [done|]. split; [done|].
    by apply Hcover.
Qed.

(** ** How copy_to_brk can go wrong *)

Lemma print_lines_run (f : Z → event) ls m :
  ∃ m', foldr (λ lol k, let* _ := log (f lol) in k) (ret tt) ls m = Ok tt m'.
Proof.
  revert m. induction ls as [|l ls IH]; intros m; simpl; [by eexists|].
  unfold bind at 1. simpl. apply IH.
Qed.

Lemma print_digest_run lambos m : ∃ m', print_digest lambos m = Ok tt m'.
Proof.
  unfold print_digest, printk.
  apply (print_lines_run
           (λ lol, EvPrintk "%d-%d\n"
                     [ArgD (Z.of_N (Byte.to_N (default x00 (lambos !! Z.to_nat lol))));
                      ArgD lol])).
Qed.

Lemma next_gfp_false m m' : next_gfp m = Ok false m' → ∀ g, gfp m ≠ true :: g.
Proof.
  unfold next_gfp. destruct (gfp m) as [|[] g']; [done| |done].
  by intros [= ].
Qed.

Lemma digest_steps_crash `{crypto : CryptoApi} {A} copy (k : M A) m f :
  (let* _ := printk "sha1: %s\n" [ArgS "copy_to_brk"] in
   let* bitcoin := crypto_alloc_hash "sha1" in
   let* _ := if bitcoin : bool then ret tt else crash Oops in
   let* digest := lift_opt (hash_digest "sha1" (replicate 10 "A"%byte) copy 10) in
   let* _ := print_digest (take (Z.to_nat SHA1_LENGTH) (digest ++ zeros SHA1_LENGTH)) in
   let* _ := crypto_free_hash in
   k) m = Crash f →
  f = Oops
  ∧ ((∀ g, gfp m ≠ true :: g)
     ∨ hash_digest "sha1" (replicate 10 "A"%byte) copy 10 = None)
  ∨ ∃ m1, same_store m m1 ∧ k m1 = Crash f.
Proof.
  intros H.
  apply bind_Crash_inv in H as [H|(u1 & m1 & H1 & H)]; [done|].
  injection H1 as _ <-.
  apply bind_Crash_inv in H as [H|(b & m2 & H2 & H)].
  { unfold crypto_alloc_hash, bind, next_gfp in H. simpl in H. by destruct (gfp m). }
  assert (Hb : b = false → ∀ g, gfp m ≠ true :: g).
  { intros ->. unfold crypto_alloc_hash in H2.
    apply bind_Ok_inv in H2 as (ok & mx & Hx & H2).
    apply bind_Ok_inv in H2 as (u & my & _ & H2). injection H2 as -> _.
    exact (next_gfp_false _ _ Hx). }
  apply crypto_alloc_hash_inv in H2 as [S2 _].
  apply bind_Crash_inv in H as [H|(u3 & m3 & H3 & H)].
  { destruct b; [done|]. injection H as <-. left. split; [done|]. left. by apply Hb. }
  destruct b; [|done]. injection H3 as _ <-.
  apply bind_Crash_inv in H as [H|(dg & m4 & H4 & H)].
  { destruct (hash_digest _ _ _ _); [done|]. injection H as <-. left. split; [done|]. by right. }
  destruct (hash_digest _ _ _ _) as [digest|]; [|done]. injection H4 as <- <-.
  apply bind_Crash_inv in H as [H|(u5 & m5 & H5 & H)].
  { destruct (print_digest_run (take (Z.to_nat SHA1_LENGTH) (digest ++ zeros SHA1_LENGTH)) m2)
      as [m' Hm'].
    rewrite Hm' in H. done. }
  destruct u5. apply print_digest_inv in H5 as (evs & [S5 _] & _).
  apply bind_Crash_inv in H as [H|(u6 & m6 & H6 & H)]; [done|]. apply log_inv in H6 as [S6 _].
  right. exists m6. split; [|done].
  eapply same_store_trans; [|exact S6]. eapply same_store_trans; [|exact S5].
  eapply same_store_trans; [|exact S2]. done.
Qed.

(** From a consistent store copy_to_brk can only stop on its missing-page
    assertion when one of the two pages it looks up is not in the tree; every
    other abnormal end is a bad memory access. *)
Lemma copy_to_brk_crash `{crypto : CryptoApi} m src sector n f :
  wf m → sector_t sector → copy_to_brk src sector n m = Crash f →
  f = Oops
  ∨ f = BUG_missing_page
    ∧ (brk_pages m !! page_idx sector = None
       ∨ first_copy sector n < n
         ∧ brk_pages m !! page_idx (next_sector sector n) = None).
Proof.
  intros Hwf Hsec H. unfold copy_to_brk in H.
  fold (page_offset sector) in H. fold (first_copy sector n) in H.
  fold (next_sector sector n) in H.
  rewrite (bind_Ok _ _ _ _ _ (brk_lookup_page_wf _ _ Hwf)) in H.
  destruct (brk_pages m !! page_idx sector) as [p1|] eqn:E1.
  2:{ injection H as <-. right. auto. }
  apply digest_steps_crash in H as [[-> _]|(m1 & Hs1 & H)]; [by left|].
  assert (Hwf1 : wf m1) by (by eapply wf_same_store).
  destruct Hs1 as (Hc1 & Ht1 & Hm1).
  apply bind_Crash_inv in H as [H|(u & m2 & H2 & H)].
  { left. by eapply page_write_Crash. }
  destruct u. apply page_write_inv in H2 as (pg1 & d1 & Hp1 & Hd1 & ->).
  apply at_offset_inv in Hd1 as (_ & d & Hd & ->).
  apply memcpy_inv in Hd as ((Hcp0 & Hcp1 & Hcp2) & -> & Hlen).
  destruct (wf_mem _ _ _ Hwf1 Hp1) as [Hk1 Hl1].
  pose proof (page_offset_bounds sector) as (Ho0 & Ho1 & _).
  assert (Hwf2 : wf (set_page_mem (insert p1 (Page (index pg1)
             (take (Z.to_nat (page_offset sector)) (data pg1)
              ++ take (Z.to_nat (first_copy sector n)) src
              ++ drop (Z.to_nat (first_copy sector n))
                   (drop (Z.to_nat (page_offset sector)) (data pg1))))) m1)).
  { apply wf_page_update; [done..|]. len_solve. }
  case_bool_decide as Hlt; [|done].
  rewrite (bind_Ok _ _ _ _ _ (brk_lookup_page_wf _ _ Hwf2)) in H.
  simpl in H. rewrite Ht1 in H.
  destruct (brk_pages m !! page_idx (next_sector sector n)) as [p2|] eqn:E2.
  - left. by eapply page_write_Crash.
  - injection H as <-. right. auto.
Qed.

(** When copy_to_brk returns normally: from a consistent store where the
    pages of the range are in the tree, with a source of at least [n] bytes
    and a range of at most one page crossing, provided the transform can be
    allocated and the crypto layer produces a digest. *)
Lemma copy_to_brk_succeeds `{crypto : CryptoApi} m src sector n g digest :
  wf m → sector_t sector → 0 ≤ n → n ≤ len src →
  page_offset sector + n ≤ 2 * PAGE_SIZE →
  is_Some (brk_pages m !! page_idx sector) →
  (first_copy sector n < n →
   is_Some (brk_pages m !! page_idx (next_sector sector n))) →
  gfp m = true :: g →
  hash_digest "sha1" (replicate 10 "A"%byte) (first_copy sector n) 10 = Some digest →
  ∃ m', copy_to_brk src sector n m = Ok tt m'.
Proof.
  intros Hwf Hsec Hn Hsrc Hsingle [p1 E1] Hp2 Hgfp Hdig.
  pose proof (first_copy_bounds sector n Hn) as (Hc0 & Hcn & Hcp).
  pose proof (page_offset_bounds sector) as (Ho0 & Ho1 & _).
  destruct (copy_to_brk src sector n m) as [[] m'|f] eqn:H; [by eexists|exfalso].
  unfold copy_to_brk in H.
  fold (page_offset sector) in H. fold (first_copy sector n) in H.
  fold (next_sector sector n) in H.
  rewrite (bind_Ok _ _ _ _ _ (brk_lookup_page_wf _ _ Hwf)), E1 in H.
  apply digest_steps_crash in H as [[_ [Hg|Hd]]|(m1 & Hs1 & H)];
    [by eapply Hg|congruence|].
  assert (Hwf1 : wf m1) by (by eapply wf_same_store).
  destruct Hs1 as (Hc1 & Ht1 & Hm1).
  destruct (wf_tree _ _ _ Hwf E1) as (pg1 & Hpg1 & Hi1 & Hl1 & _).
  assert (Hw1 : page_write p1
            (λ dst, at_offset dst (page_offset sector)
                      (λ d, memcpy d src (first_copy sector n))) m1
          = Ok tt (set_page_mem (insert p1 (Page (index pg1)
               (take (Z.to_nat (page_offset sector)) (data pg1)
                ++ take (Z.to_nat (first_copy sector n)) src
                ++ drop (Z.to_nat (first_copy sector n))
                     (drop (Z.to_nat (page_offset sector)) (data pg1))))) m1)).
  { eapply page_write_Some; [by rewrite Hm1|].
    apply at_offset_Some; [lia|lia|]. apply memcpy_Some; [lia|len_solve|lia]. }
  rewrite (bind_Ok _ _ _ _ _ Hw1) in H.
  case_bool_decide as Hlt; [|done].
  destruct (Hp2 Hlt) as [p2 E2].
  destruct (next_sector_spec sector n Hsec Hlt) as (_ & Hne & _).
  assert (Hp12 : p1 ≠ p2).
  { intros <-. apply Hne. symmetry. eapply (wf_inj m); eauto. }
  destruct (wf_tree _ _ _ Hwf E2) as (pg2 & Hpg2 & Hi2 & Hl2 & _).
  match type of H with
  | bind _ _ ?m0 = _ =>
      assert (Hwf2 : wf m0);
        [apply wf_page_update; [done|by rewrite Hm1|len_solve]|];
      rewrite (bind_Ok _ _ _ _ _ (brk_lookup_page_wf _ _ Hwf2)) in H
  end.
  cbn [brk_pages set_page_mem] in H. rewrite Ht1, E2 in H.
  assert (Hcpy : memcpy (data pg2) (drop (Z.to_nat (first_copy sector n)) src)
                  (n - first_copy sector n)
                = Some (take (Z.to_nat (n - first_copy sector n))
                          (drop (Z.to_nat (first_copy sector n)) src)
                        ++ drop (Z.to_nat (n - first_copy sector n)) (data pg2))).
  { pose proof (first_copy_lt _ _ Hlt).
    apply memcpy_Some; [lia|lia|]. unfold len in *. rewrite length_drop. lia. }
  match type of H with
  | page_write _ ?f ?m0 = _ =>
      assert (Hlook : page_mem m0 !! p2 = Some pg2);
        [cbn [page_mem set_page_mem]; rewrite lookup_insert_ne by done; by rewrite Hm1|];
      rewrite (page_write_Some m0 p2 pg2 f _ Hlook Hcpy) in H
  end.
  clear -H. congruence.
Qed.

(** The same for one segment of a request: a write segment that completes
    with error code 0, then a read segment of the same geometry. *)
Lemma bvec_write_then_read `{crypto : CryptoApi} m page buf n off sector r m' :
  wf m → sector_t sector → 0 ≤ off → off + n ≤ len buf →
  brk_do_bvec page n off WRITE sector m = Ok (0, r) m' →
  brk_do_bvec buf n off READ sector m'
  = Ok (0, take (Z.to_nat off) buf
           ++ take (Z.to_nat n) (drop (Z.to_nat off) page)
           ++ drop (Z.to_nat (off + n)) buf) m'.
Proof.
  intros Hwf Hsec Hoff Hlen H. unfold brk_do_bvec in H. cbn [is_read] in H.
  inv_bind H as err m1 H1.
  destruct (copy_to_brk_setup_run m sector n Hwf Hsec) as (e & mx & Hx & Hwf1 & _).
  rewrite Hx in H1. injection H1 as -> ->.
  case_bool_decide as Herr; [injection H as -> _; done|].
  inv_bind H as u m2 H2. injection H as _ _ <-.
  pose proof (copy_to_brk_inv _ _ _ _ _ Hwf1 Hsec H2) as (_ & _ & _ & Hn0 & _).
  unfold brk_do_bvec. cbn [is_read]. unfold bind at 1, ret at 1.
  rewrite bool_decide_eq_false_2 by (intros Hf; by apply Hf).
  erewrite bind_Ok; [|eapply copy_round_trip; [exact Hwf1|done|len_solve|exact H2]].
  unfold ret. by rewrite drop_drop_Z by lia.
Qed.

(** C8. After a successful copy_to_brk_setup for [sector] and [n], the
    pages that copy_to_brk looks up for the same [sector] and [n] are in the
    tree, so it never stops on BUG_ON(!page) (nor on the index assertion of
    the lookup); the same holds for a whole write segment, where
    brk_do_bvec runs the two phases one after the other. *)
Theorem write_phase_never_misses_a_page `{crypto : CryptoApi} m sector n m1 :
  wf m → sector_t sector →
  copy_to_brk_setup sector n m = Ok 0 m1 →
  (is_Some (brk_pages m1 !! page_idx sector)
   ∧ (first_copy sector n < n →
      is_Some (brk_pages m1 !! page_idx (next_sector sector n))))
  ∧ (∀ src, copy_to_brk src sector n m1 ≠ Crash BUG_missing_page
            ∧ copy_to_brk src sector n m1 ≠ Crash BUG_index_mismatch)
  ∧ (∀ page off, brk_do_bvec page n off WRITE sector m ≠ Crash BUG_missing_page
                 ∧ brk_do_bvec page n off WRITE sector m ≠ Crash BUG_index_mismatch).
Proof.
  intros Hwf Hsec Hsetup.
  destruct (copy_to_brk_setup_run m sector n Hwf Hsec)
    as (r & m' & Hrun & Hwf1 & _ & _ & _ & _ & Hpresent).
  rewrite Hsetup in Hrun. injection Hrun as <- <-.
  specialize (Hpresent eq_refl) as [[p1 Hp1] Hp2].
  assert (Hcopy : ∀ src, copy_to_brk src sector n m1 ≠ Crash BUG_missing_page
                         ∧ copy_to_brk src sector n m1 ≠ Crash BUG_index_mismatch).
  { intros src. split; intros Hc;
      destruct (copy_to_brk_crash _ _ _ _ _ Hwf1 Hsec Hc) as [?|[? Hmiss]]; try done.
    destruct Hmiss as [Hmiss|[Hlt Hmiss]]; [congruence|].
    destruct (Hp2 Hlt) as [p2 Hp2']. congruence. }
  split; [eauto|]. split; [done|].
  intros page off. unfold brk_do_bvec. simpl.
  rewrite (bind_Ok _ _ _ _ _ Hsetup). simpl.
  destruct (Hcopy (drop (Z.to_nat off) page)) as [Hc1 Hc2].
  split; intros Hc; apply bind_Crash_inv in Hc as [Hc|(u & m2 & _ & Hc)];
    solve [done | discriminate Hc].
Qed.

(** ** Requests beyond the capacity *)


(** ** Discard *)

Lemma brk_zero_page_run m sector :
  wf m →
  ∃ m', brk_zero_page sector m = Ok tt m' ∧ wf m'
    ∧ capacity m' = capacity m ∧ brk_pages m' = brk_pages m
    ∧ gfp m' = gfp m ∧ klog m' = klog m
    ∧ ∀ idx, page_at m' idx
             = if decide (idx = page_idx sector)
               then zero_page_of <$> page_at m idx else page_at m idx.
Proof.
  intros Hwf. unfold brk_zero_page.
  rewrite (bind_Ok _ _ _ _ _ (brk_lookup_page_wf _ _ Hwf)).
  destruct (brk_pages m !! page_idx sector) as [p|] eqn:E.
  - destruct (wf_tree _ _ _ Hwf E) as (pg & Hp & Hi & Hl & _).
    unfold clear_highpage.
    erewrite page_write_Some; [|done|apply memset0_Some; [by rewrite PAGE_SIZE_val|lia]].
    assert (Hz : zeros PAGE_SIZE ++ drop (Z.to_nat PAGE_SIZE) (data pg) = zeros PAGE_SIZE).
    { rewrite drop_ge by len_solve. apply app_nil_r. }
    rewrite Hz. eexists. split; [done|].
    split; [apply wf_page_update; [done..|by apply len_zeros; rewrite PAGE_SIZE_val]|].
    split_and!; try done. intros idx. rewrite page_at_update by done. rewrite Hi.
    case_decide as Hd; [|done]. subst idx.
    unfold page_at. rewrite E. simpl. rewrite Hp. simpl.
    unfold zero_page_of. by rewrite Hi.
  - exists m. split_and!; try done. intros idx. case_decide as Hd; [|done].
    subst idx. unfold page_at. by rewrite E.
Qed.

Lemma zero_page_of_idemp (o : option page) :
  zero_page_of <$> (zero_page_of <$> o) = zero_page_of <$> o.
Proof. by destruct o. Qed.

Lemma discard_loop_run fuel : ∀ m sector n,
  wf m → 0 ≤ n → n / PAGE_SIZE ≤ Z.of_nat fuel →
  ∃ m', discard_loop fuel sector n m = Ok tt m' ∧ wf m'
    ∧ capacity m' = capacity m ∧ brk_pages m' = brk_pages m
    ∧ gfp m' = gfp m ∧ klog m' = klog m
    ∧ ∀ idx, page_at m' idx
             = if decide (idx ∈ discard_indices sector (Z.to_nat (n / PAGE_SIZE)))
               then zero_page_of <$> page_at m idx else page_at m idx.
Proof.
  induction fuel as [|fuel IH]; intros m sector n Hwf Hn Hfuel.
  - assert (Hlt : n < PAGE_SIZE).
    { rewrite PAGE_SIZE_val in *.
      pose proof (Z.div_mod n 4096 ltac:(lia)).
      pose proof (Z.mod_pos_bound n 4096 ltac:(lia)).
      pose proof (Z.div_pos n 4096 Hn ltac:(lia)). lia. }
    simpl. rewrite bool_decide_eq_false_2 by lia.
    exists m. split_and!; try done. intros idx.
    rewrite Z.div_small by lia. simpl.
    first [done | by rewrite decide_False by set_solver].
  - simpl. case_bool_decide as Hge.
    + destruct (brk_zero_page_run m sector Hwf) as (m1 & H1 & Hwf1 & Hc1 & Ht1 & Hg1 & Hk1 & Hp1).
      rewrite (bind_Ok _ _ _ _ _ H1).
      change (Z.shiftr PAGE_SIZE SECTOR_SHIFT) with 8.
      assert (Hdiv : n / PAGE_SIZE = (n - PAGE_SIZE) / PAGE_SIZE + 1).
      { rewrite PAGE_SIZE_val in *.
        replace n with ((n - 4096) + 1 * 4096) at 1 by lia.
        by rewrite Z.div_add by lia. }
      assert (0 ≤ (n - PAGE_SIZE) / PAGE_SIZE).
      { apply Z.div_pos; rewrite PAGE_SIZE_val in *; lia. }
      destruct (IH m1 (wrap64 (sector + 8)) (n - PAGE_SIZE) Hwf1)
        as (m2 & H2 & Hwf2 & Hc2 & Ht2 & Hg2 & Hk2 & Hp2); [lia..|].
      exists m2. split; [done|]. split; [done|].
      split_and!; try congruence.
      intros idx. rewrite Hp2, Hp1, Hdiv, Z2Nat.inj_add by lia.
      rewrite Nat.add_comm. simpl.
      repeat case_decide; try done; try set_solver.
      by rewrite zero_page_of_idemp.
    + assert (Hlt : n < PAGE_SIZE) by lia.
      exists m. split_and!; try done. intros idx.
      rewrite Z.div_small by lia. simpl.
    first [done | by rewrite decide_False by set_solver].
Qed.

(** The remainder of the length below a whole number of pages plays no
    role. *)
Lemma discard_loop_remainder fuel : ∀ m sector n,
  0 ≤ n →
  discard_loop fuel sector n m = discard_loop fuel sector (n - n mod PAGE_SIZE) m.
Proof.
  induction fuel as [|fuel IH]; intros m sector n Hn;
    pose proof (Z.mod_pos_bound n PAGE_SIZE ltac:(by rewrite PAGE_SIZE_val)) as Hm;
    pose proof (Z.div_mod n PAGE_SIZE ltac:(by rewrite PAGE_SIZE_val)) as Hd;
    assert (Hiff : n >= PAGE_SIZE ↔ n - n mod PAGE_SIZE >= PAGE_SIZE)
      by (rewrite PAGE_SIZE_val in *; nia).
  - simpl. repeat case_bool_decide; tauto.
  - simpl. repeat case_bool_decide; try tauto.
    unfold bind. destruct (brk_zero_page sector m) as [[] m1|]; [|done].
    rewrite IH by lia. f_equal.
    replace (n - PAGE_SIZE) with (n + (-1) * PAGE_SIZE) by lia.
    rewrite Z.mod_add by (by rewrite PAGE_SIZE_val). lia.
Qed.

Lemma discard_from_brk_step m sector n :
  0 ≤ n → PAGE_SIZE ≤ n →
  discard_from_brk sector n m
  = (let* _ := brk_zero_page sector in
     discard_from_brk (wrap64 (sector + 8)) (n - PAGE_SIZE)) m.
Proof.
  intros Hn Hge. unfold discard_from_brk.
  assert (Hdiv : n / PAGE_SIZE = (n - PAGE_SIZE) / PAGE_SIZE + 1).
  { rewrite PAGE_SIZE_val in *.
    replace n with ((n - 4096) + 1 * 4096) at 1 by lia.
    by rewrite Z.div_add by lia. }
  assert (0 ≤ (n - PAGE_SIZE) / PAGE_SIZE).
  { apply Z.div_pos; rewrite PAGE_SIZE_val in *; lia. }
  rewrite Hdiv, Z2Nat.inj_add, Nat.add_comm by lia. simpl.
  by rewrite bool_decide_eq_true_2 by lia.
Qed.

(** C10. The discard loop acts only while a whole page of length remains:
    a discard shorter than PAGE_SIZE leaves the machine exactly as it was;
    otherwise it zeroes the page that holds the current sector and goes on
    eight sectors further with PAGE_SIZE less to do. What is left of the
    length below a whole number of pages is ignored. Altogether the pages
    visited in n / PAGE_SIZE rounds are zeroed in place and every other page,
    the tree, the allocator and the log are untouched. *)
Theorem discard_acts_on_whole_pages_only m sector n :
  wf m → 0 ≤ n →
  (n < PAGE_SIZE → discard_from_brk sector n m = Ok tt m)
  ∧ (PAGE_SIZE ≤ n →
     discard_from_brk sector n m
     = (let* _ := brk_zero_page sector in
        discard_from_brk (wrap64 (sector + 8)) (n - PAGE_SIZE)) m)
  ∧ discard_from_brk sector n m = discard_from_brk sector (n - n mod PAGE_SIZE) m
  ∧ ∃ m', discard_from_brk sector n m = Ok tt m'
      ∧ capacity m' = capacity m ∧ brk_pages m' = brk_pages m
      ∧ gfp m' = gfp m ∧ klog m' = klog m
      ∧ ∀ idx, page_at m' idx
               = if decide (idx ∈ discard_indices sector (Z.to_nat (n / PAGE_SIZE)))
                 then zero_page_of <$> page_at m idx else page_at m idx.
Proof.
  intros Hwf Hn. split_and!.
  - intros Hlt. unfold discard_from_brk.
    destruct (Z.to_nat (n / PAGE_SIZE)); simpl; by rewrite bool_decide_eq_false_2 by lia.
  - intros Hge. by apply discard_from_brk_step.
  - unfold discard_from_brk. rewrite discard_loop_remainder by done. f_equal.
    f_equal. rewrite PAGE_SIZE_val.
    pose proof (Z.div_mod n 4096 ltac:(lia)) as Hd.
    replace (n - n mod 4096) with (n / 4096 * 4096) by lia.
    by rewrite Z.div_mul by lia.
  - destruct (discard_loop_run (Z.to_nat (n / PAGE_SIZE)) m sector n Hwf Hn)
      as (m' & H & _ & Hrest).
    { apply Z.div_pos with (b := PAGE_SIZE) in Hn; [lia|by rewrite PAGE_SIZE_val]. }
    exists m'. done.
Qed.

(** Without wrap-around of the sector number the loop visits consecutive
    pages. *)
Lemma discard_indices_elem k : ∀ sector idx,
  sector_t sector → sector + Z.of_nat k * 8 ≤ 2 ^ 64 →
  idx ∈ discard_indices sector k ↔ page_idx sector ≤ idx < page_idx sector + Z.of_nat k.
Proof.
  induction k as [|k IH]; intros sector idx Hs Hw; simpl.
  - split; [by intros ?%elem_of_nil|lia].
  - rewrite elem_of_cons. destruct k as [|k'].
    + simpl. split; [intros [->|?%elem_of_nil]; [lia|done]|intros ?; left; lia].
    + assert (Hnext : wrap64 (sector + 8) = sector + 8).
      { unfold wrap64. apply Z.mod_small. unfold sector_t in Hs. lia. }
      rewrite IH; rewrite Hnext; [|unfold sector_t in *; lia|lia].
      assert (Hp : page_idx (sector + 8) = page_idx sector + 1).
      { rewrite !page_idx_div. replace (sector + 8) with (sector + 1 * 8) by lia.
        by rewrite Z.div_add by lia. }
      rewrite Hp. lia.
Qed.

Lemma in_capacity_sector_range m sector n :
  wf m → in_capacity m sector n → sector_range sector n.
Proof.
  intros ((Hc0 & Hc1) & _) (Hs & Hn & Hcap). unfold sector_range, sector_t.
  destruct (decide (n = 0)) as [->|Hne]; [|lia].
  split_and!; try lia.
Qed.

(** A discard of a range of sectors always returns normally and leaves
    every page strictly outside the range as it was; when the range starts
    on a page boundary, every page it covers entirely reads as all-zero
    afterwards. *)
Theorem discard_zeroes_covered_pages m sector n :
  wf m → sector_range sector n →
  ∃ m', discard_from_brk sector n m = Ok tt m' ∧ wf m'
    ∧ brk_pages m' = brk_pages m
    ∧ (∀ idx, strictly_outside sector n idx → page_at m' idx = page_at m idx)
    ∧ (sector mod PAGE_SECTORS = 0 →
       ∀ idx, fully_covered sector n idx → reads_zero m' idx).
Proof.
  intros Hwf (Hst & Hn & Hc). pose proof Hst as [Hs0 Hs1].
  pose proof (Z.div_mod n 4096 ltac:(lia)) as Hnd.
  pose proof (Z.mod_pos_bound n 4096 ltac:(lia)) as Hnm.
  pose proof (Z.div_pos n 4096 Hn ltac:(lia)) as Hnq.
  pose proof (Z.div_mod sector 8 ltac:(lia)) as Hsd.
  pose proof (Z.mod_pos_bound sector 8 ltac:(lia)) as Hsm.
  destruct (discard_loop_run (Z.to_nat (n / PAGE_SIZE)) m sector n Hwf Hn)
    as (m' & H & Hwf' & _ & Ht & _ & _ & Hp).
  { rewrite PAGE_SIZE_val. lia. }
  assert (Hmem : ∀ idx, idx ∈ discard_indices sector (Z.to_nat (n / PAGE_SIZE))
                        ↔ sector / 8 ≤ idx < sector / 8 + n / 4096).
  { intros idx. rewrite discard_indices_elem; [|done|rewrite PAGE_SIZE_val; lia].
    rewrite page_idx_div, PAGE_SIZE_val. lia. }
  exists m'. split; [done|]. split; [done|]. split; [done|]. split.
  - intros idx Hout. rewrite Hp. rewrite decide_False; [done|].
    rewrite Hmem. unfold strictly_outside in Hout. rewrite PAGE_SIZE_val in Hout. lia.
  - intros Hal idx [Hc1 Hc2] dst Hdst.
    change PAGE_SECTORS with 8 in *. rewrite PAGE_SIZE_val in Hc1, Hc2.
    assert (Hin : idx ∈ discard_indices sector (Z.to_nat (n / PAGE_SIZE))).
    { apply Hmem. lia. }
    assert (Hi : page_idx (idx * 8) = idx).
    { rewrite page_idx_div. by rewrite Z.div_mul by lia. }
    assert (Ho : page_offset (idx * 8) = 0).
    { rewrite page_offset_mod. by rewrite Z.mod_mul by lia. }
    assert (Hf : first_copy (idx * 8) PAGE_SIZE = PAGE_SIZE).
    { unfold first_copy. rewrite Ho. lia. }
    rewrite copy_from_brk_spec; [|done|by rewrite PAGE_SIZE_val|done|rewrite Hf; lia].
    rewrite Hi, Ho, Hf. rewrite bool_decide_eq_false_2 by lia.
    rewrite app_nil_l. do 2 f_equal. unfold read_part.
    rewrite Hp, decide_True by done.
    destruct (page_at m idx) as [pg|]; [|done].
    cbn [fmap option_fmap option_map zero_page_of data].
    change (Z.to_nat 0) with 0%nat. rewrite drop_0.
    apply take_zeros. rewrite PAGE_SIZE_val. lia.
Qed.

(** ** brk_free_pages *)

Lemma radix_tree_next_spec (root : gmap Z positive) pos :
  match radix_tree_next root pos with
  | None => ∀ j, pos ≤ j → root !! j = None
  | Some (k, p) =>
      root !! k = Some p ∧ pos ≤ k
      ∧ ∀ j, pos ≤ j → is_Some (root !! j) → k ≤ j
  end.
Proof.
  unfold radix_tree_next.
  apply (map_fold_weak_ind (λ r (m : gmap Z positive),
    match r with
    | None => ∀ j, pos ≤ j → m !! j = None
    | Some (k, p) =>
        m !! k = Some p ∧ pos ≤ k ∧ ∀ j, pos ≤ j → is_Some (m !! j) → k ≤ j
    end)).
  - intros j _. apply lookup_empty.
  - intros i x m r Hi Hr. case_bool_decide as Hpos.
    + destruct r as [[k p]|].
      * destruct Hr as (Hk & Hpk & Hmin).
        assert (Hik : i ≠ k) by congruence.
        case_bool_decide as Hlt.
        -- split; [apply lookup_insert_eq|]. split; [done|].
           intros j Hj Hs. destruct (decide (j = i)) as [->|Hne]; [lia|].
           rewrite lookup_insert_ne in Hs by done. specialize (Hmin j Hj Hs). lia.
        -- split; [by rewrite lookup_insert_ne|]. split; [done|].
           intros j Hj Hs. destruct (decide (j = i)) as [->|Hne]; [lia|].
           rewrite lookup_insert_ne in Hs by done. by apply Hmin.
      * split; [apply lookup_insert_eq|]. split; [done|].
        intros j Hj Hs. destruct (decide (j = i)) as [->|Hne]; [lia|].
        rewrite lookup_insert_ne in Hs by done. rewrite (Hr j Hj) in Hs.
        by destruct Hs.
    + destruct r as [[k p]|].
      * destruct Hr as (Hk & Hpk & Hmin).
        assert (Hik : i ≠ k) by congruence.
        split; [by rewrite lookup_insert_ne|]. split; [done|].
        intros j Hj Hs. rewrite lookup_insert_ne in Hs by lia. by apply Hmin.
      * intros j Hj. rewrite lookup_insert_ne by lia. by apply Hr.
Qed.

Lemma gang_end_nil root pos max :
  gang_lookup root pos max = [] → gang_end root pos max = pos.
Proof.
  destruct max as [|max]; simpl; [done|].
  by destruct (radix_tree_next root pos) as [[k p]|].
Qed.

(** Removing an entry of the tree together with its page keeps the
    invariant. *)
Lemma wf_remove m m' k p :
  wf m → brk_pages m !! k = Some p →
  capacity m' = capacity m → brk_pages m' = delete k (brk_pages m) →
  page_mem m' = delete p (page_mem m) → wf m'.
Proof.
  intros Hwf Hk Hc Ht Hm. pose proof Hwf as (Hcap & Htree & Hmem).
  unfold wf. rewrite Hc, Ht, Hm. split; [done|]. split.
  - intros j q Hj. apply lookup_delete_Some in Hj as [Hne Hj].
    destruct (Htree _ _ Hj) as [Hr Hi]. split; [done|].
    rewrite lookup_delete_ne; [done|]. intros <-. apply Hne.
    by eapply wf_inj.
  - intros q qg Hq. apply lookup_delete_Some in Hq as [Hne Hq].
    destruct (Hmem _ _ Hq) as [Hi Hl]. split; [|done].
    rewrite lookup_delete_ne; [done|]. intros He. rewrite <- He in Hi. congruence.
Qed.

Lemma brk_free_batch_cons m p rest pos0 k pg :
  page_mem m !! p = Some pg → index pg = k → pos0 ≤ k →
  brk_pages m !! k = Some p →
  brk_free_batch (p :: rest) pos0 m
  = brk_free_batch rest k
      (add_klog (EvFreePage p) (set_page_mem (delete p) (set_brk_pages (delete k) m))).
Proof.
  intros Hp Hi Hpos Hk. cbn [brk_free_batch].
  unfold bind at 1. unfold page_index, bind at 1, gets. rewrite Hp. simpl.
  rewrite Hi. rewrite bool_decide_eq_false_2 by lia.
  unfold bind at 1. unfold radix_tree_delete, radix_tree_lookup, bind at 1, gets.
  unfold bind at 1, modify. simpl. rewrite Hk.
  rewrite bool_decide_eq_true_2 by done. reflexivity.
Qed.

(** One batch of brk_free_pages: the pages a gang lookup from [pos]
    returned are removed from the tree and freed, in ascending order of
    index, without tripping an assertion. *)
Lemma brk_free_batch_gang max : ∀ root m pos0 pos,
  wf m → pos0 ≤ pos →
  (∀ j, pos ≤ j → root !! j = brk_pages m !! j) →
  ∃ pos' m',
    brk_free_batch (gang_lookup root pos max) pos0 m = Ok pos' m'
    ∧ wf m' ∧ capacity m' = capacity m
    ∧ (gang_lookup root pos max = [] → pos' = pos0)
    ∧ (gang_lookup root pos max ≠ [] →
       pos' + 1 = gang_end root pos max ∧ 0 ≤ pos' < 2 ^ 61)
    ∧ pos ≤ gang_end root pos max
    ∧ (∀ j, brk_pages m' !! j
            = if decide (pos ≤ j < gang_end root pos max) then None
              else brk_pages m !! j)
    ∧ ((length (gang_lookup root pos max) < max)%nat →
       ∀ j, gang_end root pos max ≤ j → brk_pages m !! j = None)
    ∧ (size (brk_pages m') + length (gang_lookup root pos max))%nat
      = size (brk_pages m).
Proof.
  induction max as [|max IH]; intros root m pos0 pos Hwf Hpos Hagree.
  { exists pos0, m. simpl. split_and!; try done; try lia.
    intros j. by rewrite decide_False by lia. }
  simpl. pose proof (radix_tree_next_spec root pos) as Hnext.
  destruct (radix_tree_next root pos) as [[k p]|].
  2:{ exists pos0, m. simpl. split_and!; try done; try lia.
      - intros j. by rewrite decide_False by lia.
      - intros _ j Hj. rewrite <- Hagree by done. by apply Hnext. }
  destruct Hnext as (Hk & Hpk & Hmin).
  assert (Hk' : brk_pages m !! k = Some p) by (by rewrite <- Hagree).
  destruct (wf_tree _ _ _ Hwf Hk') as (pg & Hp & Hi & _ & Hrange).
  rewrite (brk_free_batch_cons m p _ pos0 k pg) by (done || lia).
  set (m1 := add_klog (EvFreePage p)
               (set_page_mem (delete p) (set_brk_pages (delete k) m))).
  assert (Hwf1 : wf m1) by (by apply (wf_remove m m1 k p)).
  destruct (IH root m1 k (k + 1) Hwf1 ltac:(lia)) as
    (pos' & m' & Hrun & Hwf' & Hc' & Hnil & Hcons & Hge & Htree & Hshort & Hsize).
  { intros j Hj. simpl. rewrite lookup_delete_ne by lia. apply Hagree. lia. }
  exists pos', m'. split; [exact Hrun|]. split; [done|]. split; [done|].
  split_and!.
  - done.
  - intros _. destruct (decide (gang_lookup root (k + 1) max = [])) as [He|Hne].
    + rewrite (gang_end_nil _ _ _ He). rewrite (Hnil He). lia.
    + by apply Hcons.
  - lia.
  - intros j. rewrite Htree. simpl.
    destruct (decide (j = k)) as [->|Hjk].
    + rewrite lookup_delete_eq. repeat case_decide; try done; lia.
    + rewrite lookup_delete_ne by done.
      repeat case_decide; try done; try lia.
      destruct (brk_pages m !! j) as [q|] eqn:Ej; [|done].
      assert (k ≤ j); [|lia]. apply Hmin; [lia|]. rewrite Hagree by lia. eauto.
  - intros Hlen j Hj. simpl in Hlen. assert (Hjk : j ≠ k) by lia.
    rewrite <- (Hshort ltac:(lia) j Hj). simpl. by rewrite lookup_delete_ne.
  - simpl in Hsize.
    assert (Hs : size (brk_pages m) = S (size (delete k (brk_pages m)))).
    { rewrite <- (insert_delete_id (brk_pages m) k p) at 1 by done.
      by rewrite map_size_insert_None by apply lookup_delete_eq. }
    rewrite Hs, <- Hsize. simpl. lia.
Qed.

Lemma length_gang_lookup root max : ∀ pos, (length (gang_lookup root pos max) ≤ max)%nat.
Proof.
  induction max as [|max IH]; intros pos; simpl; [lia|].
  destruct (radix_tree_next root pos) as [[k p]|]; simpl; [|lia].
  specialize (IH (k + 1)). lia.
Qed.

Lemma wf_empty_tree m : wf m → brk_pages m = ∅ → page_mem m = ∅.
Proof.
  intros Hwf He. apply map_empty. intros p.
  destruct (page_mem m !! p) as [pg|] eqn:E; [|done].
  destruct (wf_mem _ _ _ Hwf E) as [Hk _]. by rewrite He, lookup_empty in Hk.
Qed.

(** The do-while loop empties the tree, whatever the number of entries,
    given one round of fuel more than there are entries. *)
Lemma brk_free_pages_loop_run fuel : ∀ m pos,
  wf m → 0 ≤ pos ≤ 2 ^ 61 →
  (∀ j, j < pos → brk_pages m !! j = None) →
  (size (brk_pages m) < fuel)%nat →
  ∃ m', brk_free_pages_loop fuel pos m = Ok tt m' ∧ wf m'
        ∧ capacity m' = capacity m ∧ brk_pages m' = ∅ ∧ page_mem m' = ∅.
Proof.
  induction fuel as [|fuel IH]; intros m pos Hwf Hpos Hbelow Hfuel; [lia|].
  cbn [brk_free_pages_loop]. unfold bind at 1, radix_tree_gang_lookup, gets.
  destruct (brk_free_batch_gang (Z.to_nat FREE_BATCH) (brk_pages m) m pos pos Hwf)
    as (pos' & m1 & Hrun & Hwf1 & Hc1 & Hnil & Hcons & Hge & Htree & Hshort & Hsize);
    [lia|done|].
  rewrite (bind_Ok _ _ _ _ _ Hrun).
  pose proof (length_gang_lookup (brk_pages m) (Z.to_nat FREE_BATCH) pos) as Hlen.
  set (l := gang_lookup (brk_pages m) pos (Z.to_nat FREE_BATCH)) in *.
  case_bool_decide as Hfull.
  - assert (Hne : l ≠ []).
    { intros He. rewrite He in Hfull. simpl in Hfull. unfold FREE_BATCH in Hfull. lia. }
    destruct (Hcons Hne) as [Hend Hrange].
    assert (Hw : wrap64 (pos' + 1) = pos' + 1).
    { unfold wrap64. apply Z.mod_small. lia. }
    rewrite Hw, Hend.
    destruct (IH m1 (gang_end (brk_pages m) pos (Z.to_nat FREE_BATCH)) Hwf1)
      as (m' & Hrun' & Hwf' & Hc' & Ht' & Hm'); [lia| |unfold FREE_BATCH in *; lia|].
    { intros j Hj. rewrite Htree. case_decide; [done|]. apply Hbelow. lia. }
    exists m'. split_and!; try done. congruence.
  - assert (Hempty : brk_pages m1 = ∅).
    { apply map_empty. intros j. rewrite Htree. case_decide as Hd; [done|].
      destruct (decide (j < pos)) as [Hlt|Hnlt]; [by apply Hbelow|].
      apply Hshort; [|lia]. unfold FREE_BATCH in *. lia. }
    exists m1. split_and!; try done. by apply wf_empty_tree.
Qed.

Lemma brk_free_pages_run m :
  wf m →
  ∃ m', brk_free_pages m = Ok tt m' ∧ wf m' ∧ capacity m' = capacity m
        ∧ brk_pages m' = ∅ ∧ page_mem m' = ∅.
Proof.
  intros Hwf. unfold brk_free_pages, bind at 1, gets.
  apply brk_free_pages_loop_run; [done|lia| |lia].
  intros j Hj. destruct (brk_pages m !! j) as [p|] eqn:E; [|done].
  destruct (wf_tree _ _ _ Hwf E) as (_ & _ & _ & _ & Hr). lia.
Qed.

Lemma read_empty_store m dst sector n :
  wf m → brk_pages m = ∅ → 0 ≤ n → n ≤ len dst →
  copy_from_brk dst sector n m = Ok (zeros n ++ drop (Z.to_nat n) dst) m.
Proof.
  intros Hwf He Hn Hdst.
  assert (Hnone : ∀ idx, page_at m idx = None).
  { intros idx. apply page_at_None; [done|]. by rewrite He, lookup_empty. }
  pose proof (first_copy_bounds sector n Hn) as (Hc0 & Hcn & _).
  rewrite copy_from_brk_spec; [|done..|].
  2:{ intros _ [pg Hpg]. by rewrite Hnone in Hpg. }
  f_equal. rewrite app_assoc. f_equal. unfold read_part. rewrite !Hnone.
  case_bool_decide.
  - rewrite zeros_app by lia. f_equal. lia.
  - rewrite app_nil_r. f_equal. lia.
Qed.

(** C9. brk_free_pages removes every entry of the tree and frees every
    page, however many entries there are: it goes through the tree in
    batches of FREE_BATCH until a batch comes back short, and never runs out
    of rounds. Hence after a BLKFLSBUF ioctl with at most one opener, which
    returns 0, the store is empty and every read, of any range, returns
    zero bytes only. *)
Theorem free_pages_leaves_nothing m :
  wf m →
  (∃ m', brk_free_pages m = Ok tt m' ∧ wf m' ∧ capacity m' = capacity m
         ∧ brk_pages m' = ∅ ∧ page_mem m' = ∅)
  ∧ ∀ bd_openers, bd_openers ≤ 1 →
      ∃ m', brk_ioctl bd_openers BLKFLSBUF m = Ok 0 m' ∧ wf m'
        ∧ capacity m' = capacity m ∧ brk_pages m' = ∅ ∧ page_mem m' = ∅
        ∧ ∀ dst sector n, 0 ≤ n → n ≤ len dst →
            copy_from_brk dst sector n m' = Ok (zeros n ++ drop (Z.to_nat n) dst) m'.
Proof.
  intros Hwf.
  split; [by apply brk_free_pages_run|].
  intros bd_openers Hop. unfold brk_ioctl.
  rewrite bool_decide_eq_false_2 by (intros H; by apply H).
  rewrite bool_decide_eq_true_2 by done.
  unfold kill_bdev, bind at 1, log, modify.
  destruct (brk_free_pages_run (add_klog EvKillBdev m))
    as (m' & Hrun & Hwf' & Hc' & Ht' & Hm').
  { by apply (wf_same_store m). }
  rewrite (bind_Ok _ _ _ _ _ Hrun).
  exists m'. split_and!; try done.
  intros dst sector n Hn Hdst. by apply read_empty_store.
Qed.

(** ** The invariant across the operations *)

Lemma brk_lookup_page_pure sector m r m' :
  brk_lookup_page sector m = Ok r m' → m' = m.
Proof.
  unfold brk_lookup_page, bind, radix_tree_lookup, gets.
  destruct (brk_pages m !! _) as [p|]; [|by intros [= _ <-]].
  unfold page_index, bind, gets. destruct (page_mem m !! p) as [pg|]; simpl; [|done].
  case_bool_decide; [done|]. by intros [= _ <-].
Qed.

Lemma lift_opt_inv {A} (o : option A) m a m' :
  lift_opt o m = Ok a m' → o = Some a ∧ m' = m.
Proof. destruct o; [|done]. by intros [= <- <-]. Qed.

Lemma page_read_pure p m d m' : page_read p m = Ok d m' → m' = m.
Proof.
  unfold page_read, bind, gets. destruct (page_mem m !! p); simpl; [|done].
  by intros [= _ <-].
Qed.

(** A read never changes the machine: no page is allocated, nothing is
    logged. *)
Lemma copy_from_brk_pure dst sector n m d m' :
  copy_from_brk dst sector n m = Ok d m' → m' = m.
Proof.
  unfold copy_from_brk. intros H.
  inv_bind H as pg1 m1 H1. apply brk_lookup_page_pure in H1 as ->.
  inv_bind H as d1 m2 H2.
  assert (m2 = m) as ->.
  { destruct pg1 as [p|].
    - inv_bind H2 as src mx Hx. apply page_read_pure in Hx as ->.
      by apply lift_opt_inv in H2 as [_ ->].
    - by apply lift_opt_inv in H2 as [_ ->]. }
  case_bool_decide; [|by injection H as _ <-].
  inv_bind H as pg2 m3 H3. apply brk_lookup_page_pure in H3 as ->.
  destruct pg2 as [p|].
  - inv_bind H as src mx Hx. apply page_read_pure in Hx as ->.
    by apply lift_opt_inv in H as [_ ->].
  - by apply lift_opt_inv in H as [_ ->].
Qed.


Lemma brk_do_bvec_wf `{crypto : CryptoApi} page len off rw sector :
  sector_t sector → preserves_wf (brk_do_bvec page len off rw sector).
Proof.
  intros Hsec m a m' Hwf H. unfold brk_do_bvec in H.
  inv_bind H as err m1 H1.
  assert (Hwf1 : wf m1).
  { destruct rw; simpl in H1; try (by injection H1 as _ <-);
      destruct (copy_to_brk_setup_run m sector len Hwf Hsec) as (r & mx & Hr & Hw & _);
      rewrite Hr in H1; by injection H1 as _ <-. }
  case_bool_decide; [by injection H as _ <-|].
  destruct (is_read rw).
  - inv_bind H as d m2 H2. apply copy_from_brk_pure in H2 as ->. by injection H as _ <-.
  - inv_bind H as u m2 H2. injection H as _ <-.
    by destruct (copy_to_brk_inv _ _ _ _ _ Hwf1 Hsec H2) as (? & _).
Qed.

Lemma wrap64_sector_t z : sector_t (wrap64 z).
Proof. unfold sector_t, wrap64. apply Z.mod_pos_bound. lia. Qed.







(** *** Several threads on their way to the lock *)











(** ** Allocation in the copy phase *)

Lemma page_write_klog p f m m' : page_write p f m = Ok tt m' → klog m' = klog m.
Proof. intros H. by apply page_write_inv in H as (pg & d & _ & _ & ->). Qed.

(** Every copy_to_brk that returns has asked the crypto layer for a
    transform, which is an allocation, on its way. *)
Lemma copy_to_brk_log `{crypto : CryptoApi} src sector n m m' :
  copy_to_brk src sector n m = Ok tt m' →
  ∃ evs, klog m' = klog m ++ evs ∧ EvCryptoAllocHash "sha1" true ∈ evs.
Proof.
  intros H. unfold copy_to_brk in H.
  inv_bind H as pg m0 H0. apply brk_lookup_page_pure in H0 as ->.
  destruct pg as [p1|]; [|done].
  apply digest_steps_inv in H as (m1 & evs & [_ Hlog] & Hin & H).
  exists evs. split; [|done].
  inv_bind H as u m2 H2. apply page_write_klog in H2.
  case_bool_decide.
  - inv_bind H as pg2 m3 H3. apply brk_lookup_page_pure in H3 as ->.
    destruct pg2 as [p2|]; [|done]. apply page_write_klog in H. congruence.
  - injection H as <-. congruence.
Qed.

(** * The properties at concrete inputs *)

Ltac by_compute := vm_compute; first [reflexivity | done].
Ltac wf_compute := apply (bool_decide_unpack _); vm_compute; reflexivity.

(** C3, at a concrete input. copy_to_brk is documented not to sleep, and
    runs between kmap_atomic and kunmap_atomic; yet the copy of 512 bytes to
    sector 0 of a prepared device calls crypto_alloc_hash, an allocation: of
    the calls it logs, that one allocates. A read of the same range logs
    nothing and leaves the machine as it was. *)
Theorem copy_phase_of_a_write_allocates :
  let m := machine_of (copy_to_brk_setup 0 512 (example_fresh 8)) (example_fresh 0) in
  let src := replicate 512 "A"%byte in
  ∃ m', @copy_to_brk example_crypto src 0 512 m = Ok tt m'
        ∧ filter (λ e, allocates e = true) (drop (length (klog m)) (klog m'))
          = [EvCryptoAllocHash "sha1" true]
        ∧ copy_from_brk (zeros 512) 0 512 m' = Ok src m'.
Proof.
  eexists. split; [by_compute|]. split; by_compute.
Qed.

(** A straddling write of 1024 bytes at sector 7 reads back. *)
Lemma write_then_read_returns_data_witness :
  let src := replicate 1024 "B"%byte in
  let dst := zeros 2048 in
  let m' := machine_of (@copy_to_brk example_crypto src 7 1024 example_prepared)
              example_prepared in
  copy_from_brk dst 7 1024 m'
  = Ok (take (Z.to_nat 1024) src ++ drop (Z.to_nat 1024) dst) m'.
Proof.
  intros src dst m'.
  refine (proj1 (@write_then_read_returns_data example_crypto
                   example_prepared src dst 7 1024 m' _ _ _ _)).
  - wf_compute.
  - by_compute.
  - by_compute.
  - by_compute.
Defined.

(** Spec scenario 3: 512 bytes at sector 1500 of a device that only holds
    page 1. *)
Lemma read_of_unwritten_range_is_zero_witness :
  let dst := replicate 512 "B"%byte in
  copy_from_brk dst 1500 512 example_written
  = Ok (zeros 512 ++ drop (Z.to_nat 512) dst) example_written.
Proof.
  intros dst.
  refine (proj1 (read_of_unwritten_range_is_zero example_written dst 1500 512 _ _ _ _)).
  - wf_compute.
  - by_compute.
  - by_compute.
  - intros idx [H1 H2]. rewrite PAGE_SIZE_val in *.
    assert (idx = 187) as -> by lia. by_compute.
Defined.

(** C4, at a concrete input. The driver announces discards at page
    granularity that read back as zeros, and takes any discard request; its
    loop zeroes the page of the current sector and steps a page on, as many
    times as there are whole pages in the length, without ever aligning the
    start. A discard request for sectors 4 to 15 on a device that holds
    data in pages 0 and 1 covers page 1 entirely: it completes with 0,
    page 1 still holds what was written to it, and sectors 0 to 3, which
    are not in the range, have been wiped. *)
Theorem discard_unaligned_misses_covered_page :
  ∃ m', wf example_two_pages ∧ in_capacity example_two_pages 4 6144
        ∧ fully_covered 4 6144 1
        ∧ @brk_make_request example_crypto example_bio_discard example_two_pages
          = Ok (0, []) m'
        ∧ discard_from_brk 4 6144 example_two_pages = Ok tt m'
        ∧ ¬ reads_zero m' 1
        ∧ copy_from_brk (zeros 4096) 8 4096 m' = Ok (replicate 4096 "A"%byte) m'
        ∧ copy_from_brk (zeros 2048) 0 2048 example_two_pages
          = Ok (replicate 2048 "A"%byte) example_two_pages
        ∧ copy_from_brk (zeros 2048) 0 2048 m' = Ok (zeros 2048) m'.
Proof.
  eexists. split; [wf_compute|]. split; [by_compute|].
  split; [by_compute|]. split; [by_compute|]. split; [by_compute|].
  split; [|split; [by_compute|split; by_compute]].
  intros Hz. specialize (Hz (zeros 4096) ltac:(by_compute)).
  vm_compute in Hz. discriminate Hz.
Qed.

(** Spec scenario 4, one page: a discard of sectors 8 to 15. *)
Lemma discard_zeroes_covered_pages_witness :
  ∃ m', discard_from_brk 8 4096 example_written = Ok tt m' ∧ reads_zero m' 1.
Proof.
  destruct (discard_zeroes_covered_pages example_written 8 4096)
    as (m' & H & _ & _ & _ & Hz).
  - wf_compute.
  - by_compute.
  - exists m'. split; [exact H|]. apply Hz; by_compute.
Defined.



(** The first page is allocated, the second is not: -ENOSPC, a consistent
    store, and page 0 stays allocated. *)
Lemma copy_to_brk_setup_ensures_pages_witness :
  ∃ m', copy_to_brk_setup 7 1024 example_short_of_memory = Ok (- ENOSPC) m'
        ∧ wf m' ∧ is_Some (brk_pages m' !! 0) ∧ brk_pages m' !! 1 = None.
Proof.
  destruct (copy_to_brk_setup_ensures_pages example_short_of_memory 7 1024)
    as (r1 & m1 & r & m' & _ & H & Hwf & _ & _ & Hr & Hiff & Hsub & _).
  - wf_compute.
  - by_compute.
  - exists m'. assert (Hrun := H). vm_compute in Hrun. injection Hrun as Hr' Hm'.
    assert (Hlt : first_copy 7 1024 < 1024) by by_compute.
    assert (Hp0 : is_Some (brk_pages m' !! 0)).
    { rewrite <- Hm'. eexists. by_compute. }
    destruct Hr as [Hr|Hr]; rewrite Hr in *; [discriminate Hr'|].
    split; [exact H|]. split; [exact Hwf|]. split; [exact Hp0|].
    destruct (brk_pages m' !! 1) as [p|] eqn:E; [exfalso|done].
    assert (Hz : - ENOSPC = 0); [|discriminate Hz].
    apply Hiff. split; [exact Hp0|]. intros _.
    replace (page_idx (next_sector 7 1024)) with 1 by by_compute. by rewrite E.
Defined.


(** After the setup for a straddling write, the copy finds both pages. *)
Lemma write_phase_never_misses_a_page_witness :
  @copy_to_brk example_crypto (replicate 1024 "B"%byte) 7 1024 example_prepared
  ≠ Crash BUG_missing_page.
Proof.
  destruct (@write_phase_never_misses_a_page example_crypto
              (example_fresh 8) 7 1024 example_prepared) as (_ & H & _).
  - wf_compute.
  - by_compute.
  - by_compute.
  - apply H.
Defined.

(** BLKFLSBUF with a single opener empties the example device. *)
Lemma free_pages_leaves_nothing_witness :
  ∃ m', brk_ioctl 1 BLKFLSBUF example_written = Ok 0 m' ∧ brk_pages m' = ∅.
Proof.
  destruct (free_pages_leaves_nothing example_written) as [_ H].
  - wf_compute.
  - destruct (H 1) as (m' & Hrun & _ & _ & Ht & _); [by_compute|].
    by exists m'.
Defined.

(** A discard one byte short of a page does nothing. *)
Lemma discard_acts_on_whole_pages_only_witness :
  discard_from_brk 8 4095 example_written = Ok tt example_written.
Proof.
  destruct (discard_acts_on_whole_pages_only example_written 8 4095) as [H _].
  - wf_compute.
  - by_compute.
  - apply H. by_compute.
Defined.

(** ** The device as an array of bytes *)

Lemma len_disk_bytes m pos n : 0 ≤ n → len (disk_bytes m pos n) = n.
Proof. intros. unfold len, disk_bytes. rewrite length_fmap, length_seqZ. lia. Qed.

Lemma disk_bytes_app m pos a b :
  0 ≤ a → 0 ≤ b → disk_bytes m pos (a + b) = disk_bytes m pos a ++ disk_bytes m (pos + a) b.
Proof.
  intros. unfold disk_bytes. rewrite seqZ_app by lia. by rewrite fmap_app.
Qed.

Lemma disk_bytes_lookup m pos n (i : nat) :
  Z.of_nat i < n → disk_bytes m pos n !! i = Some (disk_byte m (pos + Z.of_nat i)).
Proof.
  intros. unfold disk_bytes. rewrite list_lookup_fmap.
  rewrite lookup_seqZ_lt by lia. done.
Qed.

Lemma disk_bytes_ext m m' pos n :
  (∀ q, pos ≤ q < pos + n → disk_byte m' q = disk_byte m q) →
  disk_bytes m' pos n = disk_bytes m pos n.
Proof.
  intros H. unfold disk_bytes. apply list_eq. intros i.
  rewrite !list_lookup_fmap.
  destruct (seqZ pos n !! i) as [q|] eqn:E; [|done]. simpl.
  apply lookup_seqZ in E as [-> ?]. f_equal. apply H. lia.
Qed.

Lemma zeros_lookup n (i : nat) : Z.of_nat i < n → zeros n !! i = Some x00.
Proof. intros. unfold zeros. apply lookup_replicate_2. lia. Qed.

(** Within one page, what the read path takes from the page (or the zeros
    it produces when there is none) are the bytes of the device. *)
Lemma read_part_disk_bytes m idx off k :
  wf m → 0 ≤ off → 0 ≤ k → off + k ≤ PAGE_SIZE →
  read_part m idx off k = disk_bytes m (idx * PAGE_SIZE + off) k.
Proof.
  intros Hwf Hoff Hk Hle. rewrite PAGE_SIZE_val in *.
  apply list_eq. intros i.
  destruct (decide (Z.of_nat i < k)) as [Hi|Hi].
  - rewrite disk_bytes_lookup by done. unfold disk_byte, read_part.
    rewrite PAGE_SIZE_val.
    replace ((idx * 4096 + off + Z.of_nat i) / 4096) with idx
      by (apply (Z.div_unique _ _ _ (off + Z.of_nat i)); lia).
    replace ((idx * 4096 + off + Z.of_nat i) mod 4096) with (off + Z.of_nat i)
      by (apply (Z.mod_unique _ _ idx); lia).
    destruct (page_at m idx) as [pg|] eqn:E.
    + apply page_at_Some in E as (p & Hp & Hpg).
      destruct (wf_mem _ _ _ Hwf Hpg) as [_ Hlen].
      rewrite lookup_take_lt by lia. rewrite lookup_drop.
      replace (Z.to_nat off + i)%nat with (Z.to_nat (off + Z.of_nat i)) by lia.
      destruct (data pg !! Z.to_nat (off + Z.of_nat i)) as [b|] eqn:Eb; [done|].
      apply lookup_ge_None in Eb. unfold len in Hlen. rewrite PAGE_SIZE_val in Hlen. lia.
    + by apply zeros_lookup.
  - rewrite !lookup_ge_None_2; [done| |].
    + pose proof (len_disk_bytes m (idx * 4096 + off) k Hk). unfold len in *. lia.
    + pose proof (len_read_part m idx off k Hwf Hoff Hk) as Hl.
      rewrite PAGE_SIZE_val in Hl. specialize (Hl Hle). unfold len in *. lia.
Qed.

Lemma sector_bytes sector : page_idx sector * PAGE_SIZE + page_offset sector = sector * 512.
Proof.
  rewrite page_idx_div, page_offset_mod, PAGE_SIZE_val.
  pose proof (Z.div_mod sector 8 ltac:(lia)). lia.
Qed.

Lemma sector_range_crossing sector n :
  sector_range sector n → first_copy sector n < n →
  (page_idx sector + 1) * 8 < 2 ^ 64.
Proof.
  intros (Hs & Hn & Hr) Hlt. apply first_copy_lt in Hlt as Hfc.
  pose proof (sector_bytes sector) as Hb. rewrite PAGE_SIZE_val in *. lia.
Qed.

(** A read of a range that crosses at most one page boundary returns the
    bytes of the device over the range and leaves the machine as it was. *)
Lemma copy_from_brk_disk m dst sector n :
  wf m → sector_range sector n → n ≤ len dst →
  page_offset sector + n ≤ 2 * PAGE_SIZE →
  copy_from_brk dst sector n m
  = Ok (disk_bytes m (sector * 512) n ++ drop (Z.to_nat n) dst) m.
Proof.
  intros Hwf Hr Hdst Htwo. pose proof Hr as (Hs & Hn & _).
  pose proof (first_copy_bounds sector n Hn) as (Hf0 & Hf1 & Hf2).
  pose proof (page_offset_bounds sector) as (Ho0 & _ & _).
  rewrite copy_from_brk_spec; [|done..|].
  2:{ intros Hlt _. rewrite (first_copy_lt _ _ Hlt). lia. }
  f_equal. rewrite app_assoc. f_equal.
  rewrite read_part_disk_bytes, sector_bytes by done.
  case_bool_decide as Hlt.
  - destruct (next_sector_spec sector n Hs Hlt) as (_ & _ & Hnext).
    destruct (Hnext (sector_range_crossing _ _ Hr Hlt)) as [-> Heq].
    rewrite read_part_disk_bytes; [|done|lia|lia|rewrite (first_copy_lt _ _ Hlt); lia].
    rewrite Heq, Z.add_0_r.
    rewrite <- disk_bytes_app by lia. f_equal. lia.
  - rewrite app_nil_r. by replace (first_copy sector n) with n by lia.
Qed.

Lemma splice_lookup (old src : list byte) off k j :
  0 ≤ off → 0 ≤ k → off + k ≤ len old → k ≤ len src → 0 ≤ j →
  (take (Z.to_nat off) old ++ take (Z.to_nat k) src ++ drop (Z.to_nat (off + k)) old)
    !! Z.to_nat j
  = if decide (off ≤ j < off + k) then src !! Z.to_nat (j - off) else old !! Z.to_nat j.
Proof.
  unfold len. intros Hoff Hk Hold Hsrc Hj.
  assert (Hl1 : length (take (Z.to_nat off) old) = Z.to_nat off)
    by (rewrite length_take; lia).
  assert (Hl2 : length (take (Z.to_nat k) src) = Z.to_nat k)
    by (rewrite length_take; lia).
  destruct (decide (j < off)) as [Hlt|Hge].
  - rewrite decide_False by lia.
    rewrite lookup_app_l by lia. apply lookup_take_lt. lia.
  - rewrite lookup_app_r by lia. rewrite Hl1.
    replace (Z.to_nat j - Z.to_nat off)%nat with (Z.to_nat (j - off)) by lia.
    destruct (decide (j < off + k)) as [Hin|Hout].
    + rewrite decide_True by lia. rewrite lookup_app_l by lia.
      apply lookup_take_lt. lia.
    + rewrite decide_False by lia. rewrite lookup_app_r by lia.
      rewrite Hl2, lookup_drop. f_equal. lia.
Qed.

Lemma disk_byte_page m pos pg :
  page_at m (pos / PAGE_SIZE) = Some pg →
  disk_byte m pos = default x00 (data pg !! Z.to_nat (pos mod PAGE_SIZE)).
Proof. unfold disk_byte. by intros ->. Qed.

Lemma disk_byte_same_page m m' pos :
  page_at m' (pos / PAGE_SIZE) = page_at m (pos / PAGE_SIZE) →
  disk_byte m' pos = disk_byte m pos.
Proof. unfold disk_byte. by intros ->. Qed.

(** A write changes the bytes of its range to the bytes of the source, and
    no other byte of the device. *)
Lemma copy_to_brk_disk `{crypto : CryptoApi} m src sector n m' :
  wf m → sector_range sector n →
  copy_to_brk src sector n m = Ok tt m' →
  ∀ pos, disk_byte m' pos
         = if decide (sector * 512 ≤ pos < sector * 512 + n)
           then default x00 (src !! Z.to_nat (pos - sector * 512))
           else disk_byte m pos.
Proof.
  intros Hwf Hr H pos. pose proof Hr as (Hs & _ & _).
  destruct (copy_to_brk_inv _ _ _ _ _ Hwf Hs H) as (Hwf' & _ & _ & Hn & Hsrc & _).
  destruct (copy_to_brk_pages _ _ _ _ _ Hwf Hs H) as (H1 & H2 & H3).
  cbv zeta in H1, H2, H3.
  pose proof (first_copy_bounds sector n Hn) as (Hf0 & Hf1 & Hf2).
  pose proof (page_offset_bounds sector) as (Ho0 & _ & _).
  pose proof (sector_bytes sector) as Hb.
  pose proof (Z.div_mod pos 4096 ltac:(lia)) as Hd.
  pose proof (Z.mod_pos_bound pos 4096 ltac:(lia)) as Hm.
  rewrite PAGE_SIZE_val in *.
  set (q := pos / 4096) in *. set (j := pos mod 4096) in *.
  destruct (decide (q = page_idx sector)) as [Hq|Hq].
  - destruct H1 as (old & Hold & Hnew).
    destruct (proj1 (page_at_Some _ _ _) Hold) as (p & _ & Hpg).
    destruct (wf_mem _ _ _ Hwf Hpg) as [_ Hlen]. rewrite PAGE_SIZE_val in Hlen.
    unfold disk_byte. rewrite PAGE_SIZE_val. fold q j. rewrite Hq, Hnew, Hold.
    cbn [data]. rewrite splice_lookup by lia.
    destruct (decide (first_copy sector n < n)) as [Hlt|Hge].
    + rewrite (first_copy_lt _ _ Hlt), PAGE_SIZE_val in *.
      repeat case_decide; try done; try lia. do 2 f_equal. lia.
    + repeat case_decide; try done; try lia. do 2 f_equal. lia.
  - destruct (decide (first_copy sector n < n)) as [Hlt|Hge].
    + destruct (H2 Hlt) as (Hle & old & Hold & Hnew).
      destruct (next_sector_spec sector n Hs Hlt) as (_ & _ & Hnext).
      destruct (Hnext (sector_range_crossing _ _ Hr Hlt)) as [Hidx Heq].
      rewrite PAGE_SIZE_val in Heq.
      destruct (decide (q = page_idx sector + 1)) as [Hq'|Hq'].
      * destruct (proj1 (page_at_Some _ _ _) Hold) as (p & _ & Hpg).
        destruct (wf_mem _ _ _ Hwf Hpg) as [_ Hlen]. rewrite PAGE_SIZE_val in Hlen.
        unfold disk_byte. rewrite PAGE_SIZE_val. fold q j.
        rewrite Hq', <- Hidx, Hnew, Hold. cbn [data].
        unfold len in *.
        destruct (decide (j < n - first_copy sector n)) as [Hj|Hj].
        -- rewrite decide_True by lia.
           rewrite lookup_app_l by (rewrite length_take, length_drop; lia).
           rewrite lookup_take_lt by lia. rewrite lookup_drop.
           do 2 f_equal. lia.
        -- rewrite decide_False by lia.
           rewrite lookup_app_r by (rewrite length_take, length_drop; lia).
           rewrite length_take, length_drop, lookup_drop. do 2 f_equal. lia.
      * rewrite decide_False by lia.
        apply disk_byte_same_page. rewrite PAGE_SIZE_val. fold q.
        apply H3; [done|]. intros _. rewrite Hidx. done.
    + rewrite decide_False by lia.
      apply disk_byte_same_page. rewrite PAGE_SIZE_val. fold q.
      apply H3; [done|]. intros ?. lia.
Qed.

Lemma same_store_page_at m m' idx : same_store m m' → page_at m' idx = page_at m idx.
Proof. intros (_ & Ht & Hm). unfold page_at. by rewrite Ht, Hm. Qed.

(** The page reachable under each index after a new page entered the
    tree. *)
Lemma page_at_new_page m m' k p pg idx :
  wf m → page_mem m !! p = None →
  brk_pages m' = <[k := p]> (brk_pages m) → page_mem m' = <[p := pg]> (page_mem m) →
  page_at m' idx = if decide (idx = k) then Some pg else page_at m idx.
Proof.
  intros Hwf Hfresh Ht Hm. unfold page_at. rewrite Ht, Hm.
  case_decide as Hk.
  - subst. rewrite lookup_insert_eq. simpl. by rewrite lookup_insert_eq.
  - rewrite lookup_insert_ne by done.
    destruct (brk_pages m !! idx) as [q|] eqn:E; [|done]. simpl.
    destruct (wf_tree _ _ _ Hwf E) as (qg & Hq & _).
    rewrite lookup_insert_ne; [done|]. intros ->. congruence.
Qed.

Lemma brk_insert_page_disk m sector :
  wf m → sector_t sector →
  ∃ r m', brk_insert_page sector m = Ok r m' ∧ wf m'
          ∧ ∀ pos, disk_byte m' pos = disk_byte m pos.
Proof.
  intros Hwf Hs.
  destruct (brk_insert_page_spec m sector Hwf Hs) as (r & m' & H & Hwf' & _ & Hcase).
  exists r, m'. split; [done|]. split; [done|]. intros pos.
  destruct (brk_pages m !! page_idx sector) as [p|] eqn:E.
  - by destruct Hcase as [_ ->].
  - destruct r as [p|].
    + destruct Hcase as (Hfresh & Ht & Hm).
      unfold disk_byte.
      rewrite (page_at_new_page m m' _ _ _ _ Hwf Hfresh Ht Hm).
      case_decide as Hk; [|done].
      rewrite Hk. rewrite (proj2 (page_at_None m _ Hwf) E). cbn [data].
      pose proof (Z.mod_pos_bound pos PAGE_SIZE ltac:(by rewrite PAGE_SIZE_val)) as Hb.
      rewrite zeros_lookup; [done|lia].
    + apply disk_byte_same_page. by apply same_store_page_at.
Qed.

(** Preparing a write never changes what a reader sees. *)
Lemma copy_to_brk_setup_disk m sector n :
  wf m → sector_t sector →
  ∃ r m', copy_to_brk_setup sector n m = Ok r m' ∧ wf m'
          ∧ ∀ pos, disk_byte m' pos = disk_byte m pos.
Proof.
  intros Hwf Hs. unfold copy_to_brk_setup. cbv zeta.
  destruct (brk_insert_page_disk m sector Hwf Hs) as (r1 & m1 & H1 & Hwf1 & Hd1).
  rewrite (bind_Ok _ _ _ _ _ H1).
  destruct r1 as [p1|]; [|by eexists _, _].
  case_bool_decide; [|by eexists _, _].
  match goal with |- context [brk_insert_page (wrap64 ?z)] =>
    destruct (brk_insert_page_disk m1 _ Hwf1 (wrap64_sector_t z))
      as (r2 & m2 & H2 & Hwf2 & Hd2)
  end.
  rewrite (bind_Ok _ _ _ _ _ H2).
  destruct r2; eexists _, _; (split; [done|]); (split; [done|]);
    intros pos; by rewrite Hd2, Hd1.
Qed.

Lemma disk_byte_zeroed m m' pos :
  page_at m' (pos / PAGE_SIZE) = zero_page_of <$> page_at m (pos / PAGE_SIZE) →
  disk_byte m' pos = x00.
Proof.
  unfold disk_byte. intros ->.
  destruct (page_at m (pos / PAGE_SIZE)); [|done]. cbn [fmap option_fmap option_map zero_page_of data].
  pose proof (Z.mod_pos_bound pos PAGE_SIZE ltac:(by rewrite PAGE_SIZE_val)) as Hb.
  rewrite zeros_lookup; [done|lia].
Qed.

(** A discard zeroes n / PAGE_SIZE whole pages, counted from the page that
    holds the start sector, and no other byte. *)
Lemma discard_from_brk_disk m sector n :
  wf m → sector_range sector n →
  ∃ m', discard_from_brk sector n m = Ok tt m'
    ∧ ∀ pos, disk_byte m' pos
             = if decide (page_idx sector * PAGE_SIZE ≤ pos
                          < (page_idx sector + n / PAGE_SIZE) * PAGE_SIZE)
               then x00 else disk_byte m pos.
Proof.
  intros Hwf (Hs & Hn & Hr). pose proof Hs as [Hs0 Hs1].
  pose proof (Z.div_mod n 4096 ltac:(lia)) as Hnd.
  pose proof (Z.mod_pos_bound n 4096 ltac:(lia)) as Hnm.
  pose proof (Z.div_pos n 4096 Hn ltac:(lia)) as Hnq.
  destruct (discard_loop_run (Z.to_nat (n / PAGE_SIZE)) m sector n Hwf Hn)
    as (m' & H & _ & _ & _ & _ & _ & Hp).
  { rewrite PAGE_SIZE_val. lia. }
  exists m'. split; [done|]. intros pos.
  specialize (Hp (pos / PAGE_SIZE)).
  rewrite (decide_ext _ (page_idx sector ≤ pos / PAGE_SIZE
                         < page_idx sector + n / PAGE_SIZE)) in Hp.
  2:{ rewrite discard_indices_elem; [|done|rewrite PAGE_SIZE_val; lia].
      rewrite PAGE_SIZE_val. lia. }
  pose proof (Z.div_mod pos 4096 ltac:(lia)) as Hd.
  pose proof (Z.mod_pos_bound pos 4096 ltac:(lia)) as Hm.
  rewrite PAGE_SIZE_val in *.
  case_decide as Hin.
  - rewrite decide_True by lia. apply (disk_byte_zeroed m). by rewrite PAGE_SIZE_val.
  - rewrite decide_False by lia. apply disk_byte_same_page. by rewrite PAGE_SIZE_val.
Qed.

Lemma brk_free_page_spec m sector :
  wf m →
  ∃ m', brk_free_page sector m = Ok tt m' ∧ wf m'
    ∧ capacity m' = capacity m ∧ gfp m' = gfp m
    ∧ brk_pages m' = delete (page_idx sector) (brk_pages m)
    ∧ match brk_pages m !! page_idx sector with
      | Some p => page_mem m' = delete p (page_mem m) ∧ klog m' = klog m ++ [EvFreePage p]
      | None => m' = m
      end.
Proof.
  intros Hwf. unfold brk_free_page. fold (page_idx sector).
  unfold radix_tree_delete, radix_tree_lookup, bind, gets, modify. simpl.
  destruct (brk_pages m !! page_idx sector) as [p|] eqn:E.
  - eexists. split; [reflexivity|]. split; [|done].
    by apply (wf_remove m _ (page_idx sector) p).
  - exists m. unfold ret, set_brk_pages. rewrite (delete_id _ _ E).
    by destruct m.
Qed.

Lemma page_at_removed m m' k p idx :
  wf m → brk_pages m !! k = Some p →
  brk_pages m' = delete k (brk_pages m) → page_mem m' = delete p (page_mem m) →
  page_at m' idx = if decide (idx = k) then None else page_at m idx.
Proof.
  intros Hwf Hk Ht Hm. unfold page_at. rewrite Ht, Hm.
  case_decide as Hd.
  - subst. by rewrite lookup_delete_eq.
  - rewrite lookup_delete_ne by done.
    destruct (brk_pages m !! idx) as [q|] eqn:E; [|done]. simpl.
    rewrite lookup_delete_ne; [done|]. intros <-. apply Hd. by eapply wf_inj.
Qed.

(** Freeing the page of a sector and zeroing it are the same to a reader;
    only brk_free_page gives the page back to the allocator. *)
Lemma brk_free_page_vs_zero m sector :
  wf m →
  ∃ mf mz, brk_free_page sector m = Ok tt mf ∧ brk_zero_page sector m = Ok tt mz
    ∧ (∀ pos, disk_byte mf pos = disk_byte mz pos)
    ∧ brk_pages mf !! page_idx sector = None
    ∧ brk_pages mz = brk_pages m
    ∧ dom (page_mem mz) = dom (page_mem m)
    ∧ ∀ p, brk_pages m !! page_idx sector = Some p →
        page_mem mf = delete p (page_mem m) ∧ EvFreePage p ∈ klog mf.
Proof.
  intros Hwf.
  destruct (brk_free_page_spec m sector Hwf) as (mf & Hf & Hwff & _ & _ & Htf & Hcf).
  destruct (brk_zero_page_run m sector Hwf) as (mz & Hz & Hwfz & _ & Htz & _ & _ & Hpz).
  exists mf, mz. split; [done|]. split; [done|]. split_and!.
  - intros pos. unfold disk_byte. rewrite Hpz.
    destruct (brk_pages m !! page_idx sector) as [p|] eqn:E.
    + destruct Hcf as [Hm _].
      rewrite (page_at_removed m mf _ _ _ Hwf E Htf Hm).
      case_decide as Hd; [|done].
      destruct (page_at m (pos / PAGE_SIZE)); [|done].
      cbn [fmap option_fmap option_map zero_page_of data].
      pose proof (Z.mod_pos_bound pos PAGE_SIZE ltac:(by rewrite PAGE_SIZE_val)) as Hb.
      rewrite zeros_lookup; [done|lia].
    + subst mf. case_decide as Hd; [|done]. rewrite Hd.
      by rewrite (proj2 (page_at_None m _ Hwf) E).
  - rewrite Htf. apply lookup_delete_eq.
  - done.
  - apply set_eq. intros p. rewrite !elem_of_dom.
    destruct Hwfz as (_ & Htz' & Hmz). destruct Hwf as (_ & Htm & Hmm).
    split; intros [pg Hpg].
    + destruct (Hmz _ _ Hpg) as [Hi _]. rewrite Htz in Hi.
      destruct (Htm _ _ Hi) as [_ Hx]. by destruct (page_mem m !! p).
    + destruct (Hmm _ _ Hpg) as [Hi _]. rewrite <- Htz in Hi.
      destruct (Htz' _ _ Hi) as [_ Hx]. by destruct (page_mem mz !! p).
  - intros p E. rewrite E in Hcf. destruct Hcf as [Hm Hl]. split; [done|].
    rewrite Hl. set_solver.
Qed.

(** ** Requests, segment by segment *)

Lemma shiftr_sectors n : Z.shiftr n SECTOR_SHIFT = n / 512.
Proof. by rewrite Z.shiftr_div_pow2 by (cbv; discriminate). Qed.

Lemma segs_len_nonneg segs : Forall seg_ok segs → 0 ≤ segs_len segs.
Proof.
  induction 1 as [|bv rest (_ & Hl & _) _ IH]; simpl; [done|]. lia.
Qed.

Lemma seg_ok_range bv sector :
  seg_ok bv → page_offset sector + bv_len bv ≤ 2 * PAGE_SIZE.
Proof.
  intros (_ & _ & _ & Hl). pose proof (page_offset_bounds sector).
  rewrite PAGE_SIZE_val in *. lia.
Qed.


Lemma next_segment_sector sector n :
  sector_t sector → 0 ≤ n → sector * 512 + n < 2 ^ 64 * 512 →
  wrap64 (sector + Z.shiftr n SECTOR_SHIFT) = sector + n / 512
  ∧ sector_t (sector + n / 512)
  ∧ (sector + n / 512) * 512 ≤ sector * 512 + n.
Proof.
  intros [Hs0 Hs1] Hn Hr. rewrite shiftr_sectors.
  pose proof (Z.div_mod n 512 ltac:(lia)) as Hd.
  pose proof (Z.mod_pos_bound n 512 ltac:(lia)) as Hm.
  assert (0 ≤ n / 512) by (apply Z.div_pos; lia).
  unfold wrap64, sector_t. rewrite Z.mod_small by lia. lia.
Qed.

(** The loop over the segments of a bio whose size is the sum of the
    lengths of its segments, none of them empty: no segment is clipped, and
    the loop ends with the last one. *)
Lemma segs_len_cons bv rest : segs_len (bv :: rest) = bv_len bv + segs_len rest.
Proof. reflexivity. Qed.

Lemma brk_segments_cons `{crypto : CryptoApi} rw err sector size bv rest m :
  0 < bv_len bv → bv_len bv ≤ size →
  brk_segments rw err sector size (bv :: rest) m
  = (let* r := brk_do_bvec (bv_page bv) (bv_len bv) (bv_offset bv) rw sector in
     if bool_decide (r.1 ≠ 0)
     then ret (r.1, BioVec r.2 (bv_len bv) (bv_offset bv) :: rest)
     else
       let* r' := brk_segments rw r.1
                    (wrap64 (sector + Z.shiftr (bv_len bv) SECTOR_SHIFT))
                    (size - bv_len bv) rest in
       ret (r'.1, BioVec r.2 (bv_len bv) (bv_offset bv) :: r'.2)) m.
Proof.
  intros Hl Hsz. cbn [brk_segments]. rewrite bool_decide_eq_false_2 by lia.
  rewrite Z.min_r by lia. unfold bind at 1 3.
  destruct (brk_do_bvec _ _ _ _ _ m) as [r m1|]; [|done].
  case_bool_decide; [done|]. by rewrite bool_decide_eq_false_2 by lia.
Qed.


Lemma in_capacity_end_sector m b :
  wf m → in_capacity m (bi_sector b) (bi_size b) →
  sector_t (bi_sector b) ∧ ¬ bio_end_sector b > capacity m
  ∧ bi_sector b * 512 + bi_size b < 2 ^ 64 * 512.
Proof.
  intros ((Hc0 & Hc1) & _) (Hs & Hn & Hcap).
  unfold bio_end_sector, bio_sectors. rewrite shiftr_sectors.
  pose proof (Z.div_mod (bi_size b) 512 ltac:(lia)) as Hd.
  pose proof (Z.mod_pos_bound (bi_size b) 512 ltac:(lia)) as Hm.
  assert (0 ≤ bi_size b / 512) by (apply Z.div_pos; lia).
  unfold sector_t, wrap64. rewrite Z.mod_small by lia. lia.
Qed.


Lemma len_seg_payload bv : seg_ok bv → len (seg_payload bv) = bv_len bv.
Proof.
  intros (Ho & Hl & Hlen & _). unfold seg_payload, len in *.
  rewrite length_take, length_drop. lia.
Qed.

Lemma copy_to_brk_setup_disk_inv m sector n r m' :
  wf m → sector_t sector → copy_to_brk_setup sector n m = Ok r m' →
  wf m' ∧ capacity m' = capacity m ∧ (r = 0 ∨ r = - ENOSPC)
  ∧ ∀ pos, disk_byte m' pos = disk_byte m pos.
Proof.
  intros Hwf Hs H.
  destruct (copy_to_brk_setup_disk m sector n Hwf Hs) as (r1 & m1 & H1 & Hwf1 & Hd).
  destruct (copy_to_brk_setup_run m sector n Hwf Hs) as (r2 & m2 & H2 & _ & Hc & _ & _ & Hr & _).
  rewrite H in H1, H2. injection H1 as <- <-. injection H2 as <- <-. done.
Qed.

(** One write segment. *)
Lemma brk_do_bvec_write_disk `{crypto : CryptoApi} m bv sector r m' :
  wf m → seg_ok bv → sector_range sector (bv_len bv) →
  brk_do_bvec (bv_page bv) (bv_len bv) (bv_offset bv) WRITE sector m = Ok r m' →
  wf m' ∧ capacity m' = capacity m ∧ r.2 = bv_page bv ∧ (r.1 = 0 ∨ r.1 = - ENOSPC)
  ∧ ∀ pos, disk_byte m' pos
           = if decide (r.1 = 0 ∧ sector * 512 ≤ pos < sector * 512 + bv_len bv)
             then default x00 (seg_payload bv !! Z.to_nat (pos - sector * 512))
             else disk_byte m pos.
Proof.
  intros Hwf Hok Hr H. pose proof Hok as (Ho & Hl & Hlen & Hp).
  pose proof Hr as (Hs & _ & _).
  unfold brk_do_bvec in H. cbn [is_read] in H.
  inv_bind H as err m1 H1.
  destruct (copy_to_brk_setup_disk_inv _ _ _ _ _ Hwf Hs H1) as (Hwf1 & Hc1 & Herr & Hd1).
  case_bool_decide as He.
  - injection H as <- <-. cbn [fst snd]. split_and!; try done.
    intros pos. rewrite decide_False by (intros [? _]; done). apply Hd1.
  - inv_bind H as u m2 H2. injection H as <- <-. cbn [fst snd].
    destruct (copy_to_brk_inv _ _ _ _ _ Hwf1 Hs H2) as (Hwf2 & Hc2 & _).
    assert (err = 0) as -> by (destruct (decide (err = 0)); [done|by destruct He]).
    split_and!; try done; try (by left); try congruence.
    intros pos. rewrite (copy_to_brk_disk _ _ _ _ _ Hwf1 Hr H2 pos), Hd1.
    destruct (decide (sector * 512 ≤ pos < sector * 512 + bv_len bv)) as [Hin|Hout].
    + rewrite decide_True by done. unfold seg_payload.
      rewrite lookup_take_lt by lia. done.
    + rewrite decide_False by (intros [_ ?]; done). done.
Qed.

Lemma lookup_app_Z (a b : list byte) j :
  0 ≤ j →
  (a ++ b) !! Z.to_nat j
  = if decide (j < len a) then a !! Z.to_nat j else b !! Z.to_nat (j - len a).
Proof.
  intros Hj. unfold len. case_decide.
  - apply lookup_app_l. lia.
  - rewrite lookup_app_r by lia. f_equal. lia.
Qed.

Lemma seg_eta bv : BioVec (bv_page bv) (bv_len bv) (bv_offset bv) = bv.
Proof. by destruct bv. Qed.

Lemma segs_len_take_le segs k :
  Forall seg_ok segs → 0 ≤ segs_len (take k segs) ≤ segs_len segs.
Proof.
  intros Hok. revert k. induction Hok as [|bv rest (_ & Hl & _) Hrest IH]; intros k.
  - by rewrite take_nil.
  - destruct k as [|k]; simpl.
    + pose proof (segs_len_nonneg _ Hrest). fold (segs_len rest). lia.
    + fold (segs_len rest). fold (segs_len (take k rest)). specialize (IH k). lia.
Qed.

(** The loop of a write request: it goes over the segments in order and
    stops at the first one for which the pages cannot be had; the bytes of
    the [k] segments before that one are on the device, one after the
    other, and nothing else has changed. *)
Lemma brk_segments_write `{crypto : CryptoApi} segs : ∀ err sector m r m',
  wf m → Forall seg_ok segs → Forall seg_sectors segs → sector_t sector →
  sector * 512 + segs_len segs < 2 ^ 64 * 512 →
  brk_segments WRITE err sector (segs_len segs) segs m = Ok r m' →
  wf m' ∧ capacity m' = capacity m ∧ r.2 = segs
  ∧ ∃ k : nat,
      (k ≤ length segs)%nat
      ∧ (if decide (k = length segs)
         then r.1 = match segs with [] => err | _ => 0 end
         else r.1 = - ENOSPC)
      ∧ ∀ pos, disk_byte m' pos
               = if decide (sector * 512 ≤ pos
                            < sector * 512 + segs_len (take k segs))
                 then default x00 (concat (seg_payload <$> segs)
                                     !! Z.to_nat (pos - sector * 512))
                 else disk_byte m pos.
Proof.
  induction segs as [|bv rest IH]; intros err sector m r m' Hwf Hok Hsec Hs Hr H.
  - injection H as <- <-. split; [done|]. split; [done|]. split; [done|]. exists 0%nat.
    split; [done|]. split; [done|]. intros pos. simpl. by rewrite decide_False by lia.
  - apply Forall_cons in Hok as [Hbv Hrest]. apply Forall_cons in Hsec as [Hbs Hrs].
    pose proof (segs_len_nonneg _ Hrest) as Hrl.
    pose proof Hbv as (_ & Hl & _). rewrite segs_len_cons in Hr.
    destruct (next_segment_sector sector (bv_len bv) Hs ltac:(lia) ltac:(lia)) as (Hw & Hs' & Hle).
    rewrite brk_segments_cons in H by (rewrite ?segs_len_cons; lia).
    replace (segs_len (bv :: rest) - bv_len bv) with (segs_len rest) in H
      by (rewrite segs_len_cons; lia).
    inv_bind H as r1 m1 H1.
    destruct (brk_do_bvec_write_disk m bv sector r1 m1 Hwf Hbv
                ltac:(split_and!; [done|lia|lia]) H1)
      as (Hwf1 & Hc1 & Hpage & Hcode & Hd1).
    rewrite Hpage, seg_eta in H.
    case_bool_decide as He.
    + injection H as <- <-. split; [done|]. split; [done|]. split; [done|]. exists 0%nat.
      split; [simpl; lia|]. split.
      { rewrite decide_False by done. by destruct Hcode. }
      intros pos. rewrite Hd1. rewrite decide_False by (intros [? _]; done).
      simpl. by rewrite decide_False by lia.
    + assert (r1.1 = 0) as He0 by (destruct (decide (r1.1 = 0)); [done|by destruct He]).
      inv_bind H as r2 m2 H2. injection H as <- <-.
      rewrite Hw in H2.
      destruct (IH r1.1 (sector + bv_len bv / 512) m1 r2 m2 Hwf1 Hrest Hrs Hs' ltac:(lia) H2)
        as (Hwf2 & Hc2 & Hsegs & k & Hk & Hres & Hd2).
      split; [done|]. split; [congruence|]. split; [cbn [snd]; by rewrite Hsegs|].
      exists (S k). split; [simpl; lia|]. split.
      { cbn [fst length]. destruct (decide (k = length rest)) as [->|Hne].
        - rewrite decide_True by done. rewrite Hres, He0. by destruct rest.
        - rewrite decide_False by lia. done. }
      intros pos. rewrite Hd2, Hd1.
      cbn [take segs_len foldr fmap list_fmap concat]. fold (segs_len (take k rest)).
      pose proof (segs_len_take_le rest k Hrest) as Hkl.
      pose proof (len_seg_payload bv Hbv) as Hpl.
      unfold seg_sectors in Hbs.
      pose proof (Z.div_mod (bv_len bv) 512 ltac:(lia)) as Hdm.
      assert (Hpos : (sector + bv_len bv / 512) * 512 = sector * 512 + bv_len bv) by lia.
      rewrite Hpos.
      destruct (decide (sector * 512 + bv_len bv ≤ pos
                        < sector * 512 + bv_len bv + segs_len (take k rest))) as [Hin|Hout].
      * rewrite decide_True by lia.
        rewrite lookup_app_Z by lia. rewrite decide_False by lia.
        rewrite Hpl. do 3 f_equal. lia.
      * destruct (decide (r1.1 = 0 ∧ sector * 512 ≤ pos < sector * 512 + bv_len bv))
          as [Hin1|Hout1].
        -- rewrite decide_True by lia.
           rewrite lookup_app_Z by lia. rewrite decide_True by lia. done.
        -- rewrite decide_False by lia. done.
Qed.

(** A write request. *)
Lemma brk_make_request_write `{crypto : CryptoApi} m b r m' :
  wf m → bi_discard b = false → bi_dir b = WRITE →
  Forall seg_ok (bi_io_vec b) → Forall seg_sectors (bi_io_vec b) →
  bi_size b = segs_len (bi_io_vec b) →
  in_capacity m (bi_sector b) (bi_size b) →
  brk_make_request b m = Ok r m' →
  wf m' ∧ capacity m' = capacity m ∧ r.2 = bi_io_vec b
  ∧ ∃ k : nat,
      (k ≤ length (bi_io_vec b))%nat
      ∧ (if decide (k = length (bi_io_vec b))
         then r.1 = match bi_io_vec b with [] => - EIO | _ => 0 end
         else r.1 = - ENOSPC)
      ∧ ∀ pos, disk_byte m' pos
               = if decide (bi_sector b * 512 ≤ pos
                            < bi_sector b * 512 + segs_len (take k (bi_io_vec b)))
                 then default x00 (concat (seg_payload <$> bi_io_vec b)
                                     !! Z.to_nat (pos - bi_sector b * 512))
                 else disk_byte m pos.
Proof.
  intros Hwf Hd Hdir Hok Hsec Hsz Hcap H.
  destruct (in_capacity_end_sector m b Hwf Hcap) as (Hs & Hend & Hr).
  unfold brk_make_request in H. unfold bind at 1, gets at 1 in H.
  rewrite bool_decide_eq_false_2 in H by done. rewrite Hd, Hdir in H.
  rewrite Hsz in H.
  eapply brk_segments_write; [done..| |done]. by rewrite <- Hsz.
Qed.


(** ** The allocator *)

Lemma never_fails_weaken k k' m : (k' ≤ k)%nat → never_fails k m → never_fails k' m.
Proof.
  intros Hle [g Hg]. exists (replicate (k - k') true ++ g).
  rewrite Hg, app_assoc, <- replicate_add. do 2 f_equal. lia.
Qed.

(** What brk_insert_page does for a page index that is not in the tree, by
    the outcomes of the two allocations it makes. *)
Lemma brk_insert_page_outcome m sector :
  wf m → sector_t sector → brk_pages m !! page_idx sector = None →
  let p := fresh (dom (page_mem m)) in
  let a1 := default false (head (gfp m)) in
  let a2 := default false (head (tail (gfp m))) in
  ∃ m', brk_insert_page sector m = Ok (if a1 && a2 then Some p else None) m'
    ∧ gfp m' = (if a1 then tail (tail (gfp m)) else tail (gfp m))
    ∧ klog m' = klog m ++ (if a1 then [EvAllocPage (Some p); EvRadixPreload a2]
                                      ++ (if a2 then [] else [EvFreePage p])
                           else [EvAllocPage None]).
Proof.
  intros Hwf Hs E p a1 a2.
  unfold brk_insert_page, brk_insert_page_alloc, bind, ret.
  rewrite brk_lookup_page_wf by done. rewrite E. cbv beta iota.
  unfold alloc_page, radix_tree_preload, bind, ret, next_gfp.
  subst a1 a2.
  destruct (gfp m) as [|[] g] eqn:Eg; cbn [gets modify log set_gfp gfp page_mem head tail default andb].
  - eexists. split; [reflexivity|]. done.
  - fold p. cbn [gfp add_klog set_page_mem set_gfp].
    destruct g as [|[] g]; cbn [head tail default].
    + eexists. split; [reflexivity|]. cbn. by rewrite <- !app_assoc.
    + rewrite brk_insert_page_locked_unfold. cbv zeta.
      unfold page_set_index, radix_tree_insert, radix_tree_lookup,
        bind, ret, gets, modify, lift_opt.
      cbn [page_mem brk_pages add_klog set_page_mem set_gfp set_brk_pages].
      rewrite lookup_insert_eq. unfold ret.
      cbn [page_mem brk_pages add_klog set_page_mem set_gfp set_brk_pages data].
      change (sector ≫ PAGE_SECTORS_SHIFT) with (page_idx sector). rewrite E.
      eexists. split; [reflexivity|]. cbn. by rewrite <- !app_assoc.
    + eexists. split; [reflexivity|]. cbn. by rewrite <- !app_assoc.
  - eexists. split; [reflexivity|]. done.
Qed.

Lemma brk_insert_page_present m sector p :
  wf m → brk_pages m !! page_idx sector = Some p →
  brk_insert_page sector m = Ok (Some p) m.
Proof.
  intros Hwf E. unfold brk_insert_page, brk_insert_page_alloc, bind, ret.
  rewrite brk_lookup_page_wf by done. by rewrite E.
Qed.

Lemma brk_insert_page_never_fails k m sector :
  wf m → sector_t sector → never_fails (2 + k) m →
  ∃ p m', brk_insert_page sector m = Ok (Some p) m' ∧ wf m' ∧ never_fails k m'.
Proof.
  intros Hwf Hs Hnf.
  destruct (brk_pages m !! page_idx sector) as [p|] eqn:E.
  - exists p, m. split; [by apply brk_insert_page_present|]. split; [done|].
    eapply never_fails_weaken; [|done]. lia.
  - destruct (brk_insert_page_outcome m sector Hwf Hs E) as (m' & H & Hg & _).
    destruct Hnf as [g Eg]. rewrite Eg in H, Hg. cbn in H, Hg.
    eexists _, m'. split; [exact H|]. split; [|by exists g].
    destruct (brk_insert_page_spec m sector Hwf Hs) as (r & mx & Hx & Hwfx & _).
    rewrite H in Hx. by injection Hx as _ <-.
Qed.

Lemma copy_to_brk_setup_never_fails k m sector n :
  wf m → sector_t sector → never_fails (4 + k) m →
  ∃ m', copy_to_brk_setup sector n m = Ok 0 m' ∧ wf m' ∧ never_fails k m'.
Proof.
  intros Hwf Hs Hnf. unfold copy_to_brk_setup. cbv zeta.
  destruct (brk_insert_page_never_fails (2 + k) m sector Hwf Hs Hnf)
    as (p1 & m1 & H1 & Hwf1 & Hnf1).
  rewrite (bind_Ok _ _ _ _ _ H1).
  case_bool_decide.
  - match goal with |- context [brk_insert_page (wrap64 ?z)] =>
      destruct (brk_insert_page_never_fails k m1 _ Hwf1 (wrap64_sector_t z) Hnf1)
        as (p2 & m2 & H2 & Hwf2 & Hnf2)
    end.
    rewrite (bind_Ok _ _ _ _ _ H2). by exists m2.
  - exists m1. split; [done|]. split; [done|].
    eapply never_fails_weaken; [|done]. lia.
Qed.

Lemma log_gfp e m r m' : log e m = Ok r m' → gfp m' = gfp m.
Proof. by intros [= _ <-]. Qed.

Lemma print_lines_gfp (f : Z → event) ls m m' :
  foldr (λ lol k, let* _ := log (f lol) in k) (ret tt) ls m = Ok tt m' →
  gfp m' = gfp m.
Proof.
  revert m. induction ls as [|l ls IH]; intros m H; [by injection H as <-|].
  simpl in H. inv_bind H as u m1 H1. apply log_gfp in H1. rewrite <- H1. by apply IH.
Qed.

Lemma print_digest_gfp lambos m m' : print_digest lambos m = Ok tt m' → gfp m' = gfp m.
Proof.
  unfold print_digest, printk. intros H.
  by apply (print_lines_gfp
    (λ lol, EvPrintk "%d-%d\n"
       [ArgD (Z.of_N (Byte.to_N (default x00 (lambos !! Z.to_nat lol)))); ArgD lol]) (seqZ 0 20)).
Qed.

Lemma page_write_gfp p f m m' : page_write p f m = Ok tt m' → gfp m' = gfp m.
Proof. intros H. by apply page_write_inv in H as (pg & d & _ & _ & ->). Qed.

(** copy_to_brk makes one fallible allocation: the hash transform. *)
Lemma copy_to_brk_gfp `{crypto : CryptoApi} src sector n m m' :
  copy_to_brk src sector n m = Ok tt m' → gfp m' = tail (gfp m).
Proof.
  intros H. unfold copy_to_brk in H. cbv zeta in H.
  inv_bind H as pg m0 H0. apply brk_lookup_page_pure in H0 as ->.
  destruct pg as [p1|]; [|done].
  inv_bind H as u1 m1 H1. apply log_gfp in H1.
  inv_bind H as bitcoin m2 H2.
  assert (Hg2 : gfp m2 = tail (gfp m1)).
  { unfold crypto_alloc_hash in H2. inv_bind H2 as ok mx Hx.
    inv_bind H2 as u my Hy. injection H2 as _ <-. apply log_gfp in Hy.
    rewrite Hy. unfold next_gfp in Hx.
    destruct (gfp m1) eqn:Eg; injection Hx as _ <-; simpl; [by rewrite Eg|done]. }
  inv_bind H as u3 m3 H3. destruct bitcoin; [|done]. injection H3 as <-.
  inv_bind H as dg m4 H4. apply lift_opt_inv in H4 as [_ ->].
  inv_bind H as u5 m5 H5. apply print_digest_gfp in H5.
  inv_bind H as u6 m6 H6. apply log_gfp in H6.
  inv_bind H as u7 m7 H7. apply page_write_gfp in H7.
  assert (Hg7 : gfp m7 = tail (gfp m)) by congruence.
  case_bool_decide.
  - inv_bind H as pg' m8 H8. apply brk_lookup_page_pure in H8 as ->.
    destruct pg' as [p2|]; [|done]. apply page_write_gfp in H. congruence.
  - injection H as <-. done.
Qed.

Lemma never_fails_head k m : never_fails (S k) m → ∃ g, gfp m = true :: g ∧ g = replicate k true ++ drop (S k) (gfp m).
Proof.
  intros [g Hg]. exists (replicate k true ++ g). split; [done|].
  rewrite Hg. f_equal. change (replicate (S k) true ++ g) with (true :: (replicate k true ++ g)).
  cbn [drop]. rewrite drop_app_length'; [done|]. by rewrite length_replicate.
Qed.

(** One write segment, when memory is to be had. *)
Lemma brk_do_bvec_write_never_fails `{crypto : CryptoApi} k m bv sector :
  wf m → seg_ok bv → sector_t sector → digest_available → never_fails (5 + k) m →
  ∃ m', brk_do_bvec (bv_page bv) (bv_len bv) (bv_offset bv) WRITE sector m
        = Ok (0, bv_page bv) m'
    ∧ wf m' ∧ never_fails k m'.
Proof.
  intros Hwf Hok Hs Hdig Hnf. pose proof Hok as (Ho & Hl & Hlen & Hp).
  destruct (copy_to_brk_setup_never_fails (1 + k) m sector (bv_len bv) Hwf Hs Hnf)
    as (m1 & H1 & Hwf1 & Hnf1).
  destruct (copy_to_brk_setup_run m sector (bv_len bv) Hwf Hs)
    as (r & mx & Hx & _ & _ & _ & _ & _ & Hpages).
  rewrite H1 in Hx. injection Hx as <- <-. destruct (Hpages eq_refl) as [Hp1 Hp2].
  destruct (never_fails_head _ _ Hnf1) as (g & Hg & Hgk).
  destruct (Hdig (first_copy sector (bv_len bv))) as [digest Hdigest].
  destruct (copy_to_brk_succeeds m1 (drop (Z.to_nat (bv_offset bv)) (bv_page bv))
              sector (bv_len bv) g digest Hwf1 Hs ltac:(lia)) as (m2 & H2); try done.
  { unfold len in *. rewrite length_drop. lia. }
  { by apply seg_ok_range. }
  exists m2. unfold brk_do_bvec. cbn [is_read].
  rewrite (bind_Ok _ _ _ _ _ H1).
  rewrite bool_decide_eq_false_2 by (intros Hf; by apply Hf).
  rewrite (bind_Ok _ _ _ _ _ H2). split; [done|].
  split; [by destruct (copy_to_brk_inv _ _ _ _ _ Hwf1 Hs H2)|].
  apply copy_to_brk_gfp in H2. rewrite Hg in H2. simpl in H2.
  exists (drop (S k) (gfp m1)). by rewrite H2.
Qed.

Lemma brk_segments_write_never_fails `{crypto : CryptoApi} k segs : ∀ err sector m,
  wf m → Forall seg_ok segs → sector_t sector → digest_available →
  never_fails (5 * length segs + k) m →
  ∃ m', brk_segments WRITE err sector (segs_len segs) segs m
        = Ok (match segs with [] => err | _ => 0 end, segs) m'
    ∧ wf m' ∧ never_fails k m'.
Proof.
  induction segs as [|bv rest IH]; intros err sector m Hwf Hok Hs Hdig Hnf.
  - exists m. done.
  - apply Forall_cons in Hok as [Hbv Hrest].
    destruct (brk_do_bvec_write_never_fails (5 * length rest + k) m bv sector Hwf Hbv Hs Hdig)
      as (m1 & H1 & Hwf1 & Hnf1).
    { eapply never_fails_weaken; [|done]. simpl. lia. }
    pose proof (segs_len_nonneg _ Hrest) as Hrl. pose proof Hbv as (_ & Hl & _).
    rewrite brk_segments_cons by (rewrite ?segs_len_cons; lia).
    replace (segs_len (bv :: rest) - bv_len bv) with (segs_len rest)
      by (rewrite segs_len_cons; lia).
    rewrite (bind_Ok _ _ _ _ _ H1). cbn [fst snd].
    rewrite bool_decide_eq_false_2 by (intros Hf; by apply Hf).
    match goal with |- context [brk_segments _ _ (wrap64 ?z)] =>
      destruct (IH 0 _ m1 Hwf1 Hrest (wrap64_sector_t z) Hdig Hnf1) as (m2 & H2 & Hwf2 & Hnf2)
    end.
    rewrite (bind_Ok _ _ _ _ _ H2). exists m2. split; [|done].
    unfold ret. cbn [fst snd]. rewrite seg_eta. by destruct rest.
Qed.

(** The error code of one segment. *)
Lemma brk_do_bvec_code `{crypto : CryptoApi} page len off rw sector m r m' :
  wf m → sector_t sector →
  brk_do_bvec page len off rw sector m = Ok r m' →
  r.1 = 0 ∨ r.1 = - ENOSPC ∧ is_read rw = false.
Proof.
  intros Hwf Hs H. unfold brk_do_bvec in H. inv_bind H as err m1 H1.
  assert (Herr : err = 0 ∨ err = - ENOSPC ∧ is_read rw = false).
  { destruct (is_read rw) eqn:Er; [injection H1 as <- _; by left|].
    destruct (copy_to_brk_setup_run m sector len Hwf Hs) as (e & mx & Hx & _ & _ & _ & _ & He & _).
    rewrite H1 in Hx. injection Hx as <- _. destruct He; [by left|by right]. }
  case_bool_decide as He; [by injection H as <- _|].
  destruct (is_read rw).
  - inv_bind H as d m2 H2. by injection H as <- _.
  - inv_bind H as u m2 H2. by injection H as <- _.
Qed.

Lemma brk_segments_code `{crypto : CryptoApi} rw segs : ∀ err sector size m r m',
  wf m → sector_t sector →
  brk_segments rw err sector size segs m = Ok r m' →
  if decide (size = 0) then r = (err, segs) ∧ m' = m
  else r.1 = 0 ∨ r.1 = - ENOSPC ∧ is_read rw = false.
Proof.
  induction segs as [|bv rest IH]; intros err sector size m r m' Hwf Hs H;
    cbn [brk_segments] in H; case_bool_decide as Hsz;
    try (rewrite decide_True by done; by injection H as <- <-); [done|].
  rewrite decide_False by done.
  inv_bind H as r1 m1 H1.
  pose proof (brk_do_bvec_code _ _ _ _ _ _ _ _ Hwf Hs H1) as Hc.
  pose proof (brk_do_bvec_wf _ _ _ _ _ Hs _ _ _ Hwf H1) as Hwf1.
  case_bool_decide as He; [by injection H as <- _|].
  case_bool_decide as Hlen; [done|].
  inv_bind H as r2 m2 H2. injection H as <- _. cbn [fst].
  specialize (IH _ _ _ _ _ _ Hwf1 (wrap64_sector_t _) H2).
  case_decide; [|done]. destruct IH as [-> _]. cbn [fst].
  destruct (decide (r1.1 = 0)); [by left|by destruct He].
Qed.

Lemma discard_from_brk_total m sector n :
  wf m → ∃ m', discard_from_brk sector n m = Ok tt m' ∧ wf m'.
Proof.
  intros Hwf. destruct (decide (0 ≤ n)) as [Hn|Hn].
  - destruct (discard_loop_run (Z.to_nat (n / PAGE_SIZE)) m sector n Hwf Hn)
      as (m' & H & Hwf' & _); [|by exists m'].
    apply Z.div_pos with (b := PAGE_SIZE) in Hn; [lia|by rewrite PAGE_SIZE_val].
  - exists m. split; [|done]. unfold discard_from_brk.
    destruct (Z.to_nat _); simpl;
      by rewrite bool_decide_eq_false_2 by (rewrite PAGE_SIZE_val; lia).
Qed.

(** The error codes of a request. *)
Lemma brk_make_request_code `{crypto : CryptoApi} m b r m' :
  wf m → sector_t (bi_sector b) → brk_make_request b m = Ok r m' →
  (r.1 = 0 ∨ r.1 = - EIO ∨ r.1 = - ENOSPC)
  ∧ (r.1 = - EIO ↔
     bio_end_sector b > capacity m ∨ bi_discard b = false ∧ bi_size b = 0)
  ∧ (r.1 = - EIO → m' = m ∧ r.2 = bi_io_vec b)
  ∧ (r.1 = - ENOSPC →
     ¬ bio_end_sector b > capacity m ∧ bi_discard b = false
     ∧ bi_dir b = WRITE ∧ bi_size b ≠ 0).
Proof.
  intros Hwf Hs H. unfold brk_make_request in H.
  unfold bind at 1, gets at 1 in H.
  case_bool_decide as Hend.
  { injection H as <- <-. cbn [fst snd]. unfold EIO, ENOSPC.
    split_and!; try done; auto; lia. }
  destruct (bi_discard b) eqn:Ed.
  { destruct (discard_from_brk_total m (bi_sector b) (bi_size b) Hwf) as (mx & Hx & _).
    rewrite (bind_Ok _ _ _ _ _ Hx) in H. injection H as <- <-. cbn [fst snd].
    unfold EIO, ENOSPC. split_and!; try done; auto; try lia.
    all: try (split; [lia|]; intros [?|[? _]]; done). }
  apply brk_segments_code in H; [|done..].
  case_decide as Hsz.
  { destruct H as [-> ->]. cbn [fst snd]. unfold EIO, ENOSPC.
    split_and!; try done; auto; try lia. }
  unfold EIO, ENOSPC in *.
  split; [destruct H as [?|[? _]]; auto|].
  split; [split; [destruct H as [?|[? _]]; lia|intros [?|[_ ?]]; done]|].
  split; [destruct H as [?|[? _]]; lia|].
  intros He. destruct H as [?|[_ Hr]]; [lia|].
  split_and!; try done. by destruct (bi_dir b).
Qed.

(** ** Pages that come and go *)

Lemma insert_then_free m sector p m1 :
  wf m → sector_t sector → brk_pages m !! page_idx sector = None →
  brk_insert_page sector m = Ok (Some p) m1 →
  ∃ m2, brk_free_page sector m1 = Ok tt m2 ∧ same_store m m2
        ∧ brk_lookup_page sector m2 = Ok None m2
        ∧ klog m2 = klog m1 ++ [EvFreePage p].
Proof.
  intros Hwf Hs E H.
  destruct (brk_insert_page_spec m sector Hwf Hs) as (r & mx & Hx & Hwf1 & Hc1 & Hcase).
  rewrite H in Hx. injection Hx as <- <-. rewrite E in Hcase.
  destruct Hcase as (Hfresh & Ht1 & Hm1).
  destruct (brk_free_page_spec m1 sector Hwf1) as (m2 & H2 & Hwf2 & Hc2 & _ & Ht2 & Hcase2).
  rewrite Ht1, lookup_insert_eq in Hcase2. destruct Hcase2 as [Hm2 Hl2].
  exists m2. split; [done|].
  assert (Hsame : same_store m m2).
  { split_and!; [congruence| |].
    - rewrite Ht2, Ht1, delete_insert_eq. by apply delete_id.
    - rewrite Hm2, Hm1, delete_insert_eq. by apply delete_id. }
  split; [done|]. split; [|done].
  rewrite brk_lookup_page_wf by done. destruct Hsame as (_ & -> & _). by rewrite E.
Qed.

(** Two consistent machines that agree on every page index are equal. *)
Lemma wf_ext m1 m2 :
  wf m1 → wf m2 → capacity m1 = capacity m2 → brk_pages m1 = brk_pages m2 →
  (∀ idx, page_at m1 idx = page_at m2 idx) →
  gfp m1 = gfp m2 → klog m1 = klog m2 → m1 = m2.
Proof.
  intros Hwf1 Hwf2 Hc Ht Hp Hg Hl.
  assert (Hm : page_mem m1 = page_mem m2).
  { apply map_eq. intros p.
    assert (Hhalf : ∀ ma mb, wf ma → brk_pages ma = brk_pages mb →
              (∀ idx, page_at ma idx = page_at mb idx) →
              ∀ pg, page_mem ma !! p = Some pg → page_mem mb !! p = Some pg).
    { intros ma mb Hwfa Htab Hpab pg Hpg.
      destruct (wf_mem _ _ _ Hwfa Hpg) as [Hi _].
      assert (Hat : page_at ma (index pg) = Some pg).
      { apply page_at_Some. eauto. }
      rewrite Hpab in Hat. apply page_at_Some in Hat as (q & Hq & Hqg).
      rewrite <- Htab, Hi in Hq. by injection Hq as <-. }
    destruct (page_mem m1 !! p) as [pg|] eqn:E1.
    - symmetry. by apply (Hhalf m1 m2).
    - destruct (page_mem m2 !! p) as [pg|] eqn:E2; [|done].
      apply (Hhalf m2 m1) in E2; [congruence|done|done|done]. }
  destruct m1, m2. simpl in *. congruence.
Qed.

Lemma discard_twice m sector n :
  wf m → 0 ≤ n →
  ∃ m', discard_from_brk sector n m = Ok tt m' ∧ discard_from_brk sector n m' = Ok tt m'.
Proof.
  intros Hwf Hn.
  assert (Hfuel : n / PAGE_SIZE ≤ Z.of_nat (Z.to_nat (n / PAGE_SIZE))).
  { apply Z.div_pos with (b := PAGE_SIZE) in Hn; [lia|by rewrite PAGE_SIZE_val]. }
  destruct (discard_loop_run _ m sector n Hwf Hn Hfuel)
    as (m1 & H1 & Hwf1 & Hc1 & Ht1 & Hg1 & Hl1 & Hp1).
  destruct (discard_loop_run _ m1 sector n Hwf1 Hn Hfuel)
    as (m2 & H2 & Hwf2 & Hc2 & Ht2 & Hg2 & Hl2 & Hp2).
  exists m1. split; [done|]. unfold discard_from_brk. rewrite H2. f_equal.
  apply wf_ext; try done. intros idx. rewrite Hp2, Hp1.
  case_decide; [|done]. apply zero_page_of_idemp.
Qed.

(** ** Every page is freed once *)

(** One batch: the pages are freed in the order of the batch, each was
    live, and none is freed twice. *)
Lemma brk_free_batch_log pages : ∀ pos m pos' m',
  wf m → brk_free_batch pages pos m = Ok pos' m' →
  wf m' ∧ gfp m' = gfp m
  ∧ klog m' = klog m ++ (EvFreePage <$> pages)
  ∧ NoDup pages
  ∧ (∀ p, is_Some (page_mem m !! p) ↔ p ∈ pages ∨ is_Some (page_mem m' !! p))
  ∧ (∀ p, p ∈ pages → page_mem m' !! p = None).
Proof.
  induction pages as [|pg rest IH]; intros pos m pos' m' Hwf H.
  - injection H as _ <-. rewrite app_nil_r. split_and!; try done.
    + constructor.
    + intros p. split; [by right|]. intros [Hp|Hp]; [by apply elem_of_nil in Hp|done].
    + intros p Hp. by apply elem_of_nil in Hp.
  - cbn [brk_free_batch] in H. inv_bind H as i m0 H0.
    unfold page_index in H0. inv_bind H0 as o mx Hx. injection Hx as <- <-.
    destruct (page_mem m !! pg) as [pgg|] eqn:Epg; [|done]. injection H0 as <- <-.
    case_bool_decide as Hlt; [done|].
    inv_bind H as r m1 H1.
    unfold radix_tree_delete, radix_tree_lookup, bind, gets, modify in H1.
    injection H1 as <- <-.
    case_bool_decide as Hr; [|done].
    inv_bind H as u m2 H2. injection H2 as <-.
    assert (Hwf2 : wf (add_klog (EvFreePage pg)
                         (set_page_mem (delete pg) (set_brk_pages (delete (index pgg)) m)))).
    { by apply (wf_remove m _ (index pgg) pg). }
    destruct (IH _ _ _ _ Hwf2 H) as (Hwf' & Hg & Hl & Hnd & Hdom & Hgone).
    cbn [klog add_klog set_page_mem set_brk_pages page_mem gfp] in *.
    split; [done|]. split; [done|]. split; [by rewrite Hl, <- app_assoc|].
    assert (Hnotin : pg ∉ rest).
    { intros Hin. assert (Hs : is_Some (delete pg (page_mem m) !! pg)).
      { apply Hdom. by left. }
      rewrite lookup_delete_eq in Hs. by destruct Hs. }
    split; [by constructor|]. split.
    + intros p. rewrite elem_of_cons. destruct (decide (p = pg)) as [->|Hne].
      * split; [auto|]. intros _. eauto.
      * specialize (Hdom p). rewrite lookup_delete_ne in Hdom by done. naive_solver.
    + intros p [->|Hp]%elem_of_cons; [|by apply Hgone].
      destruct (page_mem m' !! pg) as [x|] eqn:E; [|done].
      assert (Hs : is_Some (delete pg (page_mem m) !! pg)).
      { apply Hdom. right. eauto. }
      rewrite lookup_delete_eq in Hs. by destruct Hs.
Qed.

Lemma brk_free_pages_loop_log fuel : ∀ pos m m',
  wf m → brk_free_pages_loop fuel pos m = Ok tt m' →
  ∃ freed, gfp m' = gfp m
    ∧ klog m' = klog m ++ (EvFreePage <$> freed)
    ∧ NoDup freed
    ∧ (∀ p, is_Some (page_mem m !! p) ↔ p ∈ freed ∨ is_Some (page_mem m' !! p))
    ∧ (∀ p, p ∈ freed → page_mem m' !! p = None).
Proof.
  induction fuel as [|fuel IH]; intros pos m m' Hwf H; [done|].
  cbn [brk_free_pages_loop] in H. inv_bind H as pages m0 H0.
  injection H0 as <- <-.
  inv_bind H as pos1 m1 H1.
  destruct (brk_free_batch_log _ _ _ _ _ Hwf H1) as (Hwf1 & Hg1 & Hl1 & Hnd1 & Hdom1 & Hgone1).
  set (pages := gang_lookup (brk_pages m) pos (Z.to_nat FREE_BATCH)) in *.
  case_bool_decide.
  - destruct (IH _ _ _ Hwf1 H) as (freed & Hg & Hl & Hnd & Hdom & Hgone).
    exists (pages ++ freed). split; [congruence|].
    split; [by rewrite Hl, Hl1, fmap_app, app_assoc|]. split.
    + apply NoDup_app. split; [done|]. split; [|done].
      intros p Hp Hf. assert (Hs : is_Some (page_mem m1 !! p)) by (apply Hdom; by left).
      rewrite (Hgone1 p Hp) in Hs. by destruct Hs.
    + split.
      * intros p. rewrite elem_of_app, Hdom1, Hdom. naive_solver.
      * intros p [Hp|Hp]%elem_of_app; [|by apply Hgone].
        destruct (page_mem m' !! p) as [x|] eqn:E; [|done].
        assert (Hs : is_Some (page_mem m1 !! p)) by (apply Hdom; right; eauto).
        rewrite (Hgone1 p Hp) in Hs. by destruct Hs.
  - injection H as <-. by exists pages.
Qed.

(** brk_free_pages gives every page of the device back to the allocator,
    once, and allocates nothing. *)
Lemma brk_free_pages_log m :
  wf m →
  ∃ freed m', brk_free_pages m = Ok tt m'
    ∧ gfp m' = gfp m
    ∧ klog m' = klog m ++ (EvFreePage <$> freed)
    ∧ NoDup freed
    ∧ (∀ p, p ∈ freed ↔ is_Some (page_mem m !! p))
    ∧ brk_pages m' = ∅ ∧ page_mem m' = ∅ ∧ capacity m' = capacity m.
Proof.
  intros Hwf.
  destruct (brk_free_pages_run m Hwf) as (m' & H & _ & Hc & Ht & Hm).
  pose proof H as H'. unfold brk_free_pages in H'. inv_bind H' as n m0 H0.
  injection H0 as <- <-.
  destruct (brk_free_pages_loop_log _ _ _ _ Hwf H') as (freed & Hg & Hl & Hnd & Hdom & _).
  exists freed, m'. split_and!; try done.
  intros p. rewrite Hdom, Hm, lookup_empty. split; [auto|].
  intros [?|Hs]; [done|]. by destruct Hs.
Qed.

(** ** The control command *)

Lemma brk_ioctl_outcome m bd_openers cmd :
  wf m →
  ∃ r m', brk_ioctl bd_openers cmd m = Ok r m'
    ∧ (r = 0 ↔ cmd = BLKFLSBUF ∧ bd_openers ≤ 1)
    ∧ (r = - ENOTTY ↔ cmd ≠ BLKFLSBUF)
    ∧ (r = - EBUSY ↔ cmd = BLKFLSBUF ∧ 1 < bd_openers)
    ∧ (r ≠ 0 → m' = m)
    ∧ (r = 0 →
       ∃ freed, klog m' = klog m ++ EvKillBdev :: (EvFreePage <$> freed)
         ∧ NoDup freed ∧ (∀ p, p ∈ freed ↔ is_Some (page_mem m !! p))
         ∧ gfp m' = gfp m).
Proof.
  intros Hwf. unfold brk_ioctl.
  case_bool_decide as Hcmd.
  { exists (- ENOTTY), m. unfold ENOTTY, EBUSY. split; [done|].
    split_and!; try done; try (split; [lia|tauto]). }
  case_bool_decide as Hop.
  - unfold kill_bdev, log. unfold bind at 1, modify.
    assert (Hwf1 : wf (add_klog EvKillBdev m)) by (by apply (wf_same_store m)).
    destruct (brk_free_pages_log _ Hwf1) as (freed & m' & H & Hg & Hl & Hnd & Hdom & _).
    rewrite (bind_Ok _ _ _ _ _ H). exists 0, m'. unfold ENOTTY, EBUSY.
    split; [done|]. split_and!; try done; try (split; [lia|]; lia).
    intros _. exists freed. cbn [klog add_klog page_mem gfp] in *.
    split; [by rewrite Hl, <- app_assoc|]. done.
  - exists (- EBUSY), m. unfold ENOTTY, EBUSY. split; [done|].
    split_and!; try done; try (split; [lia|]; lia).
Qed.

(** ** The single-page entry point *)

Lemma brk_rw_page_round_trip `{crypto : CryptoApi} m sector page buf r m' :
  wf m → sector_t sector → len page = PAGE_SIZE → len buf = PAGE_SIZE →
  brk_rw_page sector page WRITE m = Ok (0, r) m' →
  r = page ∧ brk_rw_page sector buf READ m' = Ok (0, page) m'.
Proof.
  intros Hwf Hs Hp Hb H. unfold brk_rw_page in *.
  change PAGE_CACHE_SIZE with PAGE_SIZE in *.
  split.
  - unfold brk_do_bvec in H. cbn [is_read] in H. inv_bind H as err m1 H1.
    case_bool_decide; [by injection H as _ <-|].
    inv_bind H as u m2 H2. by injection H as _ <-.
  - rewrite (bvec_write_then_read m page buf PAGE_SIZE 0 sector r m' Hwf Hs); [|lia|lia|done].
    do 2 f_equal. change (Z.to_nat 0) with 0%nat. rewrite take_0, drop_0, app_nil_l.
    rewrite Z.add_0_l.
    rewrite take_ge by (unfold len in *; lia).
    rewrite drop_ge by (unfold len in *; lia). apply app_nil_r.
Qed.

(** ** Direct access *)

Lemma land_page_sectors sector : Z.land sector (PAGE_SECTORS - 1) = sector mod 8.
Proof. change (PAGE_SECTORS - 1) with (Z.ones 3). by rewrite Z.land_ones by lia. Qed.

(** The frame of a page in the tree holds the bytes of the device for its
    index. *)
Lemma page_frame_disk_bytes m idx p pg :
  wf m → brk_pages m !! idx = Some p → page_mem m !! p = Some pg →
  data pg = disk_bytes m (idx * PAGE_SIZE) PAGE_SIZE.
Proof.
  intros Hwf Hp Hpg. destruct (wf_mem _ _ _ Hwf Hpg) as [_ Hlen].
  rewrite <- (Z.add_0_r (idx * PAGE_SIZE)).
  rewrite <- read_part_disk_bytes; [|done|lia|by rewrite PAGE_SIZE_val|lia].
  unfold read_part. rewrite (proj2 (page_at_Some m idx pg)) by eauto.
  change (Z.to_nat 0) with 0%nat. rewrite drop_0.
  rewrite take_ge; [done|]. unfold len in *. lia.
Qed.

Lemma brk_direct_access_outcome m sector :
  wf m → sector_t sector →
  brk_direct_access false sector m = Ok (- ENODEV, None) m
  ∧ ∃ r m', brk_direct_access true sector m = Ok r m' ∧ wf m'
    ∧ (∀ pos, disk_byte m' pos = disk_byte m pos)
    ∧ (sector mod 8 ≠ 0 → r = (- EINVAL, None) ∧ m' = m)
    ∧ (sector mod 8 = 0 → wrap64 (sector + 8) > capacity m →
       r = (- ERANGE, None) ∧ m' = m)
    ∧ (sector mod 8 = 0 → ¬ wrap64 (sector + 8) > capacity m →
       match r.2 with
       | Some p =>
           r.1 = 0 ∧ brk_lookup_page sector m' = Ok (Some p) m'
           ∧ ∃ pg, page_mem m' !! p = Some pg
               ∧ data pg = disk_bytes m (sector * 512) PAGE_SIZE
       | None => r.1 = - ENOSPC ∧ same_store m m'
       end).
Proof.
  intros Hwf Hs. split; [done|]. unfold brk_direct_access. cbn [negb].
  rewrite land_page_sectors. change PAGE_SECTORS with 8.
  case_bool_decide as Hal.
  { exists (- EINVAL, None), m. split_and!; done. }
  unfold bind at 1, gets.
  case_bool_decide as Hcap.
  { exists (- ERANGE, None), m. split_and!; done. }
  destruct (brk_insert_page_disk m sector Hwf Hs) as (r & m' & H & Hwf' & Hd).
  destruct (brk_insert_page_grows m sector Hwf Hs) as (r2 & mx & Hx & _ & _ & _ & _ & Hr & _).
  rewrite H in Hx. injection Hx as <- <-.
  rewrite (bind_Ok _ _ _ _ _ H).
  destruct r as [p|].
  - exists (0, Some p), m'. split; [done|]. split; [done|]. split; [done|].
    split; [done|]. split; [done|]. intros Hal' _. cbn [fst snd].
    split; [done|]. split; [rewrite brk_lookup_page_wf by done; by rewrite Hr|].
    destruct (wf_tree _ _ _ Hwf' Hr) as (pg & Hpg & _).
    exists pg. split; [done|].
    rewrite (page_frame_disk_bytes m' _ _ _ Hwf' Hr Hpg).
    rewrite (disk_bytes_ext m m') by (intros; apply Hd).
    f_equal. rewrite page_idx_div, PAGE_SIZE_val.
    pose proof (Z.div_mod sector 8 ltac:(lia)). lia.
  - exists (- ENOSPC, None), m'. split; [done|]. split; [done|]. split; [done|].
    split; [done|]. split; [done|]. intros _ _. cbn [fst snd]. split; [done|].
    destruct (brk_insert_page_spec m sector Hwf Hs) as (r3 & my & Hy & _ & _ & Hcase).
    rewrite H in Hy. injection Hy as <- <-.
    destruct (brk_pages m !! page_idx sector) as [q|]; [by destruct Hcase|done].
Qed.

(** * Further properties of the driver *)

(** ** Reads and writes, byte by byte *)

(** X1. A read of a range that crosses at most one page boundary returns
    the bytes of the device over the range, zero where no page was ever
    allocated, and leaves the machine as it was; so does a read segment. *)
Theorem read_returns_device_bytes m dst sector n :
  wf m → sector_range sector n → n ≤ len dst →
  page_offset sector + n ≤ 2 * PAGE_SIZE →
  copy_from_brk dst sector n m
  = Ok (disk_bytes m (sector * 512) n ++ drop (Z.to_nat n) dst) m
  ∧ len (disk_bytes m (sector * 512) n) = n.
Proof.
  intros Hwf Hr Hdst Htwo. split; [by apply copy_from_brk_disk|].
  apply len_disk_bytes. by destruct Hr as (_ & ? & _).
Qed.

Lemma read_returns_device_bytes_witness :
  copy_from_brk (replicate 1024 "B"%byte) 7 1024 example_written
  = Ok (zeros 512 ++ replicate 512 "A"%byte) example_written.
Proof.
  refine (eq_trans (proj1 (read_returns_device_bytes example_written
                             (replicate 1024 "B"%byte) 7 1024 _ _ _ _)) _).
  - wf_compute.
  - by_compute.
  - by_compute.
  - by_compute.
  - by_compute.
Defined.

(** X2. A write whose range does not pass the last sector that a sector_t
    can number changes the bytes of its range to the bytes of the source,
    and no other byte of the device; it returns only when the source holds
    that many bytes. *)
Theorem write_changes_exactly_its_range `{crypto : CryptoApi} m src sector n m' :
  wf m → sector_range sector n →
  copy_to_brk src sector n m = Ok tt m' →
  n ≤ len src
  ∧ ∀ pos, disk_byte m' pos
           = if decide (sector * 512 ≤ pos < sector * 512 + n)
             then default x00 (src !! Z.to_nat (pos - sector * 512))
             else disk_byte m pos.
Proof.
  intros Hwf Hr H. split; [|by apply copy_to_brk_disk].
  destruct Hr as (Hs & _). by destruct (copy_to_brk_inv _ _ _ _ _ Hwf Hs H) as (_ & _ & _ & _ & ? & _).
Qed.

Lemma write_changes_exactly_its_range_witness :
  let m' := machine_of (@copy_to_brk example_crypto (replicate 512 "B"%byte) 9 512
                          example_written) example_written in
  disk_byte m' 4607 = "A"%byte ∧ disk_byte m' 4608 = "B"%byte
  ∧ disk_byte m' 5119 = "B"%byte ∧ disk_byte m' 5120 = "A"%byte.
Proof.
  intros m'.
  pose proof (proj2 (@write_changes_exactly_its_range example_crypto example_written
                       (replicate 512 "B"%byte) 9 512 m'
                       ltac:(wf_compute) ltac:(by_compute) ltac:(by_compute))) as H.
  split_and!; (etrans; [apply H|by_compute]).
Defined.

(** X3. Making room for a write never changes what a reader sees: whether
    brk_insert_page and copy_to_brk_setup succeed or run out of memory,
    every byte of the device reads as before, since a page that enters the
    tree is zero-filled and a missing page reads as zeros. *)
Theorem setup_is_invisible_to_readers m sector n :
  wf m → sector_t sector →
  (∃ r m', brk_insert_page sector m = Ok r m'
           ∧ ∀ pos, disk_byte m' pos = disk_byte m pos)
  ∧ (∃ r m', copy_to_brk_setup sector n m = Ok r m'
             ∧ ∀ pos, disk_byte m' pos = disk_byte m pos).
Proof.
  intros Hwf Hs. split.
  - destruct (brk_insert_page_disk m sector Hwf Hs) as (r & m' & H & _ & Hd). eauto.
  - destruct (copy_to_brk_setup_disk m sector n Hwf Hs) as (r & m' & H & _ & Hd). eauto.
Qed.

Lemma setup_is_invisible_to_readers_witness :
  ∃ r m', copy_to_brk_setup 7 1024 example_written = Ok r m'
          ∧ disk_byte m' 3584 = x00 ∧ disk_byte m' 4096 = "A"%byte.
Proof.
  destruct (setup_is_invisible_to_readers example_written 7 1024) as [_ (r & m' & H & Hd)].
  - wf_compute.
  - by_compute.
  - exists r, m'. split; [exact H|]. split; (etrans; [apply Hd|by_compute]).
Defined.

(** X4. A discard that starts on a page boundary, its start sector a
    multiple of PAGE_SECTORS, and whose range does not pass the last sector
    that a sector_t can number, always returns; it zeroes the whole pages of
    its range, counted from the start, and no other byte of the device: what
    is left of the range after the last whole page is kept. No page is
    allocated or freed on the way: the tree, the allocator and the log are
    as they were. *)
Theorem aligned_discard_zeroes_whole_pages m sector n :
  wf m → sector_range sector n → sector mod PAGE_SECTORS = 0 →
  ∃ m', discard_from_brk sector n m = Ok tt m'
    ∧ brk_pages m' = brk_pages m ∧ gfp m' = gfp m ∧ klog m' = klog m
    ∧ ∀ pos, disk_byte m' pos
             = if decide (sector * 512 ≤ pos
                          < sector * 512 + n / PAGE_SIZE * PAGE_SIZE)
               then x00 else disk_byte m pos.
Proof.
  intros Hwf Hr Hal. pose proof Hr as (Hs & Hn & _).
  destruct (discard_from_brk_disk m sector n Hwf Hr) as (m' & H & Hd).
  destruct (discard_loop_run (Z.to_nat (n / PAGE_SIZE)) m sector n Hwf Hn)
    as (m2 & H2 & _ & _ & Ht & Hg & Hk & _).
  { pose proof (Z.div_pos n PAGE_SIZE Hn ltac:(by rewrite PAGE_SIZE_val)). lia. }
  unfold discard_from_brk in H. rewrite H2 in H. injection H as ->.
  exists m'. split; [done|]. split; [done|]. split; [done|]. split; [done|].
  intros pos. rewrite Hd. rewrite page_idx_div.
  change PAGE_SECTORS with 8 in Hal. rewrite PAGE_SIZE_val.
  pose proof (Z.div_mod sector 8 ltac:(lia)) as Hsd.
  destruct (decide (sector * 512 ≤ pos < sector * 512 + n / 4096 * 4096)).
  - by rewrite decide_True by lia.
  - by rewrite decide_False by lia.
Qed.

(** A discard of 5000 bytes from sector 0 on: page 0 is zeroed, page 1
    keeps its data. *)
Lemma aligned_discard_zeroes_whole_pages_witness :
  ∃ m', discard_from_brk 0 5000 example_two_pages = Ok tt m'
        ∧ disk_byte m' 4095 = x00 ∧ disk_byte m' 4096 = "A"%byte.
Proof.
  destruct (aligned_discard_zeroes_whole_pages example_two_pages 0 5000)
    as (m' & H & _ & _ & _ & Hd).
  - wf_compute.
  - by_compute.
  - by_compute.
  - exists m'. split; [exact H|]. split; (etrans; [apply Hd|by_compute]).
Defined.

(** X5. Freeing the page of a sector and zeroing it are the same to a
    reader, as the choice between the two in discard_from_brk assumes:
    every byte of the device reads the same after brk_free_page as after
    brk_zero_page. They differ in what they keep: brk_zero_page leaves the
    tree and the set of live pages as they were, brk_free_page takes the
    page out of the tree and gives it back to the allocator. *)
Theorem free_page_reads_like_zero_page m sector :
  wf m →
  ∃ mf mz, brk_free_page sector m = Ok tt mf ∧ brk_zero_page sector m = Ok tt mz
    ∧ (∀ pos, disk_byte mf pos = disk_byte mz pos)
    ∧ brk_pages mf !! page_idx sector = None
    ∧ brk_pages mz = brk_pages m
    ∧ dom (page_mem mz) = dom (page_mem m)
    ∧ ∀ p, brk_pages m !! page_idx sector = Some p →
        page_mem mf = delete p (page_mem m) ∧ EvFreePage p ∈ klog mf.
Proof. apply brk_free_page_vs_zero. Qed.

Lemma free_page_reads_like_zero_page_witness :
  ∃ mf mz, brk_free_page 8 example_written = Ok tt mf
    ∧ brk_zero_page 8 example_written = Ok tt mz
    ∧ disk_byte mf 4096 = disk_byte mz 4096
    ∧ page_mem mf = ∅ ∧ brk_pages mz = brk_pages example_written.
Proof.
  destruct (free_page_reads_like_zero_page example_written 8)
    as (mf & mz & Hf & Hz & Hd & _ & Ht & _ & Hp).
  - wf_compute.
  - exists mf, mz. split; [exact Hf|]. split; [exact Hz|]. split; [apply Hd|].
    split; [|exact Ht].
    destruct (Hp 1%positive ltac:(by_compute)) as [Hm _].
    etrans; [exact Hm|by_compute].
Defined.

(** ** Whole requests *)



(** X7. Take a write request whose size is the sum of the lengths of its
    segments, each segment a whole number of sectors, non-empty, within its
    page and at most a page long, and whose range lies within the capacity.
    When it returns, it has gone over its segments in order and stopped at
    the first one for which a page could not be had. It completes with 0
    when all segments were written, with -ENOSPC when it stopped early, and
    with -EIO when there was no segment. The bytes of the [k] segments it
    got through are on the device, one segment after the other from the
    start sector on; no other byte of the device has changed, and the
    caller's pages are as they were. *)
Theorem write_request_writes_segments_in_order `{crypto : CryptoApi} m b r m' :
  wf m → bi_discard b = false → bi_dir b = WRITE →
  Forall seg_ok (bi_io_vec b) → Forall seg_sectors (bi_io_vec b) →
  bi_size b = segs_len (bi_io_vec b) →
  in_capacity m (bi_sector b) (bi_size b) →
  brk_make_request b m = Ok r m' →
  wf m' ∧ capacity m' = capacity m ∧ r.2 = bi_io_vec b
  ∧ ∃ k : nat,
      (k ≤ length (bi_io_vec b))%nat
      ∧ (if decide (k = length (bi_io_vec b))
         then r.1 = match bi_io_vec b with [] => - EIO | _ => 0 end
         else r.1 = - ENOSPC)
      ∧ ∀ pos, disk_byte m' pos
               = if decide (bi_sector b * 512 ≤ pos
                            < bi_sector b * 512 + segs_len (take k (bi_io_vec b)))
                 then default x00 (concat (seg_payload <$> bi_io_vec b)
                                     !! Z.to_nat (pos - bi_sector b * 512))
                 else disk_byte m pos.
Proof. apply brk_make_request_write. Qed.

(** With memory for the first segment only, the request fails with -ENOSPC
    and the first segment is on the device. *)
Lemma write_request_writes_segments_in_order_witness :
  ∃ m', @brk_make_request example_crypto example_write_bio (example_fresh 5)
        = Ok (- ENOSPC, bi_io_vec example_write_bio) m'
    ∧ wf m' ∧ capacity m' = 2048.
Proof.
  eexists. split; [by_compute|].
  edestruct (@write_request_writes_segments_in_order example_crypto (example_fresh 5)
               example_write_bio) as (Hwf & Hc & _).
  - wf_compute.
  - reflexivity.
  - reflexivity.
  - repeat constructor; by_compute.
  - repeat constructor; by_compute.
  - reflexivity.
  - by_compute.
  - by_compute.
  - split; [exact Hwf|exact Hc].
Defined.



(** X9. A write request does complete with 0 when memory is to be had.
    Take a write request with at least one segment, whose size is the sum
    of the lengths of its segments, each segment non-empty, within its page
    and at most a page long, and which passes the range test of the driver:
    its start sector plus its size in sectors, computed in 64 bits, is not
    beyond the capacity. If the next five allocations per segment succeed
    (two pages, a tree node reservation for each, and the hash transform)
    and the crypto layer produces a digest, the request writes all its
    segments and completes with 0. *)
Theorem write_request_succeeds_with_memory `{crypto : CryptoApi} m b :
  wf m → bi_discard b = false → bi_dir b = WRITE →
  Forall seg_ok (bi_io_vec b) → bi_io_vec b ≠ [] →
  bi_size b = segs_len (bi_io_vec b) →
  sector_t (bi_sector b) → bio_end_sector b ≤ capacity m →
  digest_available → never_fails (5 * length (bi_io_vec b)) m →
  ∃ m', brk_make_request b m = Ok (0, bi_io_vec b) m' ∧ wf m'.
Proof.
  intros Hwf Hd Hdir Hok Hne Hsz Hs Hend Hdig Hnf.
  unfold brk_make_request. unfold bind at 1, gets at 1.
  rewrite bool_decide_eq_false_2 by lia. rewrite Hd, Hdir, Hsz.
  destruct (brk_segments_write_never_fails 0 (bi_io_vec b) (- EIO) (bi_sector b) m)
    as (m' & H & Hwf' & _); try done.
  { by rewrite Nat.add_0_r. }
  exists m'. split; [|done]. rewrite H. by destruct (bi_io_vec b).
Qed.

Lemma write_request_succeeds_with_memory_witness :
  ∃ m', @brk_make_request example_crypto example_write_bio (example_fresh 10)
        = Ok (0, bi_io_vec example_write_bio) m' ∧ wf m'.
Proof.
  apply (@write_request_succeeds_with_memory example_crypto).
  - wf_compute.
  - reflexivity.
  - reflexivity.
  - repeat constructor; by_compute.
  - discriminate.
  - reflexivity.
  - by_compute.
  - by_compute.
  - intros copy. eexists. reflexivity.
  - exists []. reflexivity.
Defined.

(** X10. A request that returns completes with 0, -EIO or -ENOSPC. It
    completes with -EIO exactly when the range test of the driver refuses
    it (its start sector plus its size in sectors, computed in 64 bits, is
    beyond the capacity) or when it is a read or write of size 0, whatever
    its segments; then nothing has happened at all. -ENOSPC is only ever
    the answer to a write of non-zero size that passed the range test. A
    discard that passes the range test completes with 0. *)
Theorem request_completion_codes `{crypto : CryptoApi} m b r m' :
  wf m → sector_t (bi_sector b) → brk_make_request b m = Ok r m' →
  (r.1 = 0 ∨ r.1 = - EIO ∨ r.1 = - ENOSPC)
  ∧ (r.1 = - EIO ↔
     bio_end_sector b > capacity m ∨ bi_discard b = false ∧ bi_size b = 0)
  ∧ (r.1 = - EIO → m' = m ∧ r.2 = bi_io_vec b)
  ∧ (r.1 = - ENOSPC →
     ¬ bio_end_sector b > capacity m ∧ bi_discard b = false
     ∧ bi_dir b = WRITE ∧ bi_size b ≠ 0)
  ∧ (bi_discard b = true → ¬ bio_end_sector b > capacity m → r.1 = 0).
Proof.
  intros Hwf Hs H.
  destruct (brk_make_request_code m b r m' Hwf Hs H) as (H1 & H2 & H3 & H4).
  split; [done|]. split; [done|]. split; [done|]. split; [done|].
  intros Hd Hend. destruct H1 as [?|[He|He]]; [done|..].
  - apply H2 in He as [?|[? _]]; [done|congruence].
  - apply H4 in He as (_ & ? & _). congruence.
Qed.

(** A write of size 0 with a segment: -EIO, and nothing has happened. *)
Lemma request_completion_codes_witness :
  @brk_make_request example_crypto
    (Bio 0 0 false WRITE [BioVec (replicate 4096 "C"%byte) 4096 0]) example_written
  = Ok (- EIO, [BioVec (replicate 4096 "C"%byte) 4096 0]) example_written.
Proof.
  destruct (@request_completion_codes example_crypto example_written
              (Bio 0 0 false WRITE [BioVec (replicate 4096 "C"%byte) 4096 0])
              (- EIO, [BioVec (replicate 4096 "C"%byte) 4096 0]) example_written)
    as (_ & _ & H & _).
  - wf_compute.
  - by_compute.
  - by_compute.
  - destruct (H eq_refl) as [_ _]. by_compute.
Defined.

(** ** The page store and the allocator *)

(** X11. For a page index that is not in the tree, the outcomes of the next
    two allocations decide what brk_insert_page does. If the page
    allocation fails it returns no page. If the page allocation succeeds
    and the tree node reservation fails, it frees the page it has just
    allocated and returns no page. In both cases the tree and the live
    pages are as before. Only when both succeed does the page enter the
    tree, zero-filled and tagged with its index. *)
Theorem insert_page_by_allocation_outcome m sector :
  wf m → sector_t sector → brk_pages m !! page_idx sector = None →
  let p := fresh (dom (page_mem m)) in
  let a1 := default false (head (gfp m)) in
  let a2 := default false (head (tail (gfp m))) in
  ∃ m', brk_insert_page sector m = Ok (if a1 && a2 then Some p else None) m'
    ∧ gfp m' = (if a1 then tail (tail (gfp m)) else tail (gfp m))
    ∧ klog m' = klog m ++ (if a1 then [EvAllocPage (Some p); EvRadixPreload a2]
                                      ++ (if a2 then [] else [EvFreePage p])
                           else [EvAllocPage None])
    ∧ if a1 && a2
      then brk_pages m' = <[page_idx sector := p]> (brk_pages m)
           ∧ page_mem m' = <[p := Page (page_idx sector) (zeros PAGE_SIZE)]> (page_mem m)
      else same_store m m'.
Proof.
  intros Hwf Hs E p a1 a2.
  destruct (brk_insert_page_outcome m sector Hwf Hs E) as (m' & H & Hg & Hl).
  exists m'. split; [exact H|]. split; [exact Hg|]. split; [exact Hl|].
  destruct (brk_insert_page_spec m sector Hwf Hs) as (r & mx & Hx & _ & _ & Hcase).
  fold p a1 a2 in H. rewrite H in Hx. injection Hx as <- <-. rewrite E in Hcase.
  fold a1 a2. destruct (a1 && a2); [by destruct Hcase as (_ & ? & ?)|done].
Qed.

(** The page allocation succeeds, the tree node reservation does not. *)
Lemma insert_page_by_allocation_outcome_witness :
  ∃ m', brk_insert_page 0 (brk_alloc 1024 [true; false; true]) = Ok None m'
    ∧ gfp m' = [true]
    ∧ klog m' = [EvAllocPage (Some 1%positive); EvRadixPreload false;
                 EvFreePage 1%positive]
    ∧ page_mem m' = ∅.
Proof.
  destruct (insert_page_by_allocation_outcome (brk_alloc 1024 [true; false; true]) 0)
    as (m' & H & Hg & Hl & Hs).
  - wf_compute.
  - by_compute.
  - by_compute.
  - exists m'. split; [exact H|]. split; [exact Hg|]. split; [exact Hl|].
    destruct Hs as (_ & _ & Hm). exact Hm.
Defined.

(** X12. brk_free_page undoes brk_insert_page: freeing the page of a sector
    right after it was inserted gives back the tree and the live pages of
    before, and a lookup finds nothing again. *)
Theorem free_page_undoes_insert_page m sector p m1 :
  wf m → sector_t sector → brk_pages m !! page_idx sector = None →
  brk_insert_page sector m = Ok (Some p) m1 →
  ∃ m2, brk_free_page sector m1 = Ok tt m2 ∧ same_store m m2
        ∧ brk_lookup_page sector m2 = Ok None m2
        ∧ klog m2 = klog m1 ++ [EvFreePage p].
Proof. apply insert_then_free. Qed.

Lemma free_page_undoes_insert_page_witness :
  let m1 := machine_of (brk_insert_page 20 example_written) example_written in
  ∃ m2, brk_free_page 20 m1 = Ok tt m2 ∧ same_store example_written m2.
Proof.
  intros m1.
  destruct (free_page_undoes_insert_page example_written 20 2%positive m1)
    as (m2 & H & Hs & _).
  - wf_compute.
  - by_compute.
  - by_compute.
  - by_compute.
  - by exists m2.
Defined.

(** X13. Discarding is idempotent: a second discard of the same range
    changes nothing at all. *)
Theorem discard_is_idempotent m sector n :
  wf m → 0 ≤ n →
  ∃ m', discard_from_brk sector n m = Ok tt m' ∧ discard_from_brk sector n m' = Ok tt m'.
Proof. apply discard_twice. Qed.

Lemma discard_is_idempotent_witness :
  ∃ m', discard_from_brk 8 4096 example_written = Ok tt m'
        ∧ discard_from_brk 8 4096 m' = Ok tt m'.
Proof.
  apply discard_is_idempotent.
  - wf_compute.
  - by_compute.
Defined.

(** X14. brk_free_pages gives every live page of the device back to the
    allocator exactly once, and does nothing else: it allocates nothing,
    and the only calls it logs are the __free_page calls, one for each page
    that was live. *)
Theorem free_pages_frees_each_page_once m :
  wf m →
  ∃ freed m', brk_free_pages m = Ok tt m'
    ∧ gfp m' = gfp m
    ∧ klog m' = klog m ++ (EvFreePage <$> freed)
    ∧ NoDup freed
    ∧ (∀ p, p ∈ freed ↔ is_Some (page_mem m !! p))
    ∧ brk_pages m' = ∅ ∧ page_mem m' = ∅ ∧ capacity m' = capacity m.
Proof. apply brk_free_pages_log. Qed.

Lemma free_pages_frees_each_page_once_witness :
  ∃ m', brk_free_pages example_after_request = Ok tt m'
    ∧ klog m' = klog example_after_request
                ++ [EvFreePage 1%positive; EvFreePage 2%positive; EvFreePage 3%positive].
Proof.
  destruct (free_pages_frees_each_page_once example_after_request)
    as (freed & m' & H & _).
  - wf_compute.
  - exists m'. split; [exact H|].
    assert (Hrun := H). vm_compute in Hrun. injection Hrun as <-. reflexivity.
Defined.

(** X15. The control command answers -ENOTTY to every command other than
    BLKFLSBUF and -EBUSY to BLKFLSBUF while the device has more than one
    opener, and in both cases leaves the machine exactly as it was. When it
    answers 0 it has called kill_bdev first and then freed every live page
    once. *)
Theorem ioctl_refuses_or_flushes m bd_openers cmd :
  wf m →
  ∃ r m', brk_ioctl bd_openers cmd m = Ok r m'
    ∧ (r = 0 ↔ cmd = BLKFLSBUF ∧ bd_openers ≤ 1)
    ∧ (r = - ENOTTY ↔ cmd ≠ BLKFLSBUF)
    ∧ (r = - EBUSY ↔ cmd = BLKFLSBUF ∧ 1 < bd_openers)
    ∧ (r ≠ 0 → m' = m)
    ∧ (r = 0 →
       ∃ freed, klog m' = klog m ++ EvKillBdev :: (EvFreePage <$> freed)
         ∧ NoDup freed ∧ (∀ p, p ∈ freed ↔ is_Some (page_mem m !! p))
         ∧ gfp m' = gfp m).
Proof. apply brk_ioctl_outcome. Qed.

Lemma ioctl_refuses_or_flushes_witness :
  brk_ioctl 2 BLKFLSBUF example_written = Ok (- EBUSY) example_written.
Proof.
  destruct (ioctl_refuses_or_flushes example_written 2 BLKFLSBUF)
    as (r & m' & H & _ & _ & _ & _).
  - wf_compute.
  - etrans; [exact H|]. vm_compute in H. by injection H as <- <-.
Defined.

(** X16. The single-page entry point writes and reads back a whole page at
    any sector: brk_rw_page does not look at the capacity, leaves the
    caller's page as it was on a write, and a page written with result 0
    is what a later read of the same sector puts into the caller's page. *)
Theorem rw_page_reads_back_written_page `{crypto : CryptoApi} m sector page buf r m' :
  wf m → sector_t sector → len page = PAGE_SIZE → len buf = PAGE_SIZE →
  brk_rw_page sector page WRITE m = Ok (0, r) m' →
  r = page ∧ brk_rw_page sector buf READ m' = Ok (0, page) m'.
Proof. apply brk_rw_page_round_trip. Qed.

(** A page written at sector 4000 of a device of 2048 sectors. *)
Lemma rw_page_reads_back_written_page_witness :
  let page := replicate 4096 "P"%byte in
  let m' := machine_of (@brk_rw_page example_crypto 4000 page WRITE (example_fresh 8))
              (example_fresh 0) in
  @brk_rw_page example_crypto 4000 (zeros 4096) READ m' = Ok (0, page) m'.
Proof.
  intros page m'.
  refine (proj2 (@rw_page_reads_back_written_page example_crypto (example_fresh 8) 4000
                   page (zeros 4096) page m' _ _ _ _ _)).
  - wf_compute.
  - by_compute.
  - by_compute.
  - by_compute.
  - by_compute.
Defined.

(** ** Direct access *)

(** X17. brk_direct_access answers -ENODEV without a device, -EINVAL for a
    sector that is not the first of a page, -ERANGE when the page of the
    sector ends beyond the capacity, in that order and without touching the
    machine, and -ENOSPC when the page cannot be had. On success the page
    it hands out is the one the read and write paths find for the sector,
    its frame holds the bytes of the device for that page, and no byte of
    the device has changed. *)
Theorem direct_access_hands_out_the_page_of_the_sector m sector :
  wf m → sector_t sector →
  brk_direct_access false sector m = Ok (- ENODEV, None) m
  ∧ ∃ r m', brk_direct_access true sector m = Ok r m' ∧ wf m'
    ∧ (∀ pos, disk_byte m' pos = disk_byte m pos)
    ∧ (sector mod 8 ≠ 0 → r = (- EINVAL, None) ∧ m' = m)
    ∧ (sector mod 8 = 0 → wrap64 (sector + 8) > capacity m →
       r = (- ERANGE, None) ∧ m' = m)
    ∧ (sector mod 8 = 0 → ¬ wrap64 (sector + 8) > capacity m →
       match r.2 with
       | Some p =>
           r.1 = 0 ∧ brk_lookup_page sector m' = Ok (Some p) m'
           ∧ ∃ pg, page_mem m' !! p = Some pg
               ∧ data pg = disk_bytes m (sector * 512) PAGE_SIZE
       | None => r.1 = - ENOSPC ∧ same_store m m'
       end).
Proof. apply brk_direct_access_outcome. Qed.

(** The last page of the example device is sector 2040; sector 2041 is not
    the first of a page, and the page of sector 2048 lies beyond the
    capacity. *)
Lemma direct_access_hands_out_the_page_of_the_sector_witness :
  brk_direct_access true 2041 example_written = Ok (- EINVAL, None) example_written
  ∧ brk_direct_access true 2048 example_written = Ok (- ERANGE, None) example_written
  ∧ brk_direct_access true 8 example_written = Ok (0, Some 1%positive) example_written.
Proof.
  split; [|split].
  - destruct (direct_access_hands_out_the_page_of_the_sector example_written 2041)
      as (_ & r & m' & H & _ & _ & He & _); [wf_compute|by_compute|].
    destruct He as [-> ->]; [by_compute|exact H].
  - by_compute.
  - by_compute.
Defined.
